(** * EasyCache (eca.js): a shallow embedding of the cache engine

    The engine of [src/easycache.js] (class [EasyCache], the version with
    storage adapters, tags and sliding TTL) is embedded as state-passing
    functions over an explicit engine state.

    Modelling conventions.
    - JavaScript [undefined] is [None]; a user value is [option Value], a
      stored (serialized) value is [option Raw].
    - [this.cache], [this.timers], [this.tagsMap] and the store of
      [MemoryAdapter] are [Map]s that the modelled methods only look up,
      insert into and delete from: they are [gmap]s.  [this.accessOrder]
      is iterated by [_evictLRU], and the key [Set]s of [this.tagsMap] by
      the per-tag limit of [set]: both keep insertion order and are lists.
    - [Date.now()] is an argument: one per place where the method reads
      the clock, in reading order.
    - A storage adapter is a record of state-passing functions that either
      return or throw ([Result]).  Every adapter call settles at once, as
      the calls of [MemoryAdapter] do, so an [await] of one costs a single
      microtask turn (the [await] of ECMAScript 2019 and later).  Where
      asynchronous activities overlap inside a call, they are written out
      in the order the microtask queue runs them: the [delete] that
      [_evictLRU] starts without awaiting it, and the calls that
      [setMultiple] and [deleteMultiple] start together.
    - [this.emit(name, ...)] appends to the event log [events]; a listener
      for [error] is assumed to be attached (without one, Node's [emit]
      throws on [error], and a method that reports a failure rejects).
    - Public methods are called one after the other, each awaited;
      expiration timers are recorded in [timers] but do not fire between
      the calls that are modelled.
    - Counters are [N]; times and durations are [Z] (milliseconds). *)

From stdpp Require Import base option list gmap strings fin_maps.
From Stdlib Require Import ZArith NArith QArith Lia.
From stdpp Require Import pretty.
From Stdlib Require Import Qround.

Open Scope Z_scope.

(** ** JavaScript containers that keep insertion order *)

(** [Map] with string keys, as an association list in insertion order:
    [set] on a key already present keeps its place. *)
Module JsMap.
Section Ops.
Context {V : Type}.

Fixpoint get (k : string) (m : list (string * V)) : option V :=
  match m with
  | [] => None
  | (k', v) :: m' => if String.eqb k k' then Some v else get k m'
  end.

Definition has (k : string) (m : list (string * V)) : bool :=
  match get k m with Some _ => true | None => false end.

Fixpoint set (k : string) (v : V) (m : list (string * V)) : list (string * V) :=
  match m with
  | [] => [(k, v)]
  | (k', v') :: m' =>
    if String.eqb k k' then (k, v) :: m' else (k', v') :: set k v m'
  end.

Fixpoint delete (k : string) (m : list (string * V)) : list (string * V) :=
  match m with
  | [] => []
  | (k', v') :: m' =>
    if String.eqb k k' then delete k m' else (k', v') :: delete k m'
  end.

Definition size (m : list (string * V)) : Z := Z.of_nat (length m).

Definition keys (m : list (string * V)) : list string := map fst m.
End Ops.
End JsMap.

(** [Set] of strings, as a list in insertion order. *)
Module JsSet.
Definition has (k : string) (s : list string) : bool :=
  existsb (String.eqb k) s.

Definition add (k : string) (s : list string) : list string :=
  if has k s then s else s ++ [k].

Fixpoint delete (k : string) (s : list string) : list string :=
  match s with
  | [] => []
  | k' :: s' => if String.eqb k k' then delete k s' else k' :: delete k s'
  end.

Definition size (s : list string) : Z := Z.of_nat (length s).
End JsSet.

(** ** Results of calls that may throw *)

Inductive Result (T : Type) : Type :=
  | Ok (x : T)
  | Throw (e : string).
Arguments Ok {T} x.
Arguments Throw {T} e.

(** Truthiness of a number and of a string, as [if (x)] and [x && ...]
    test them. *)
Definition truthyZ (z : Z) : bool := negb (z =? 0).
Definition truthyKey (k : string) : bool := negb (String.eqb k EmptyString).

(** ** Storage adapters (src/adapters) *)

(** The contract the engine consumes: [get], [set], [delete], [has],
    [clear].  Each call returns or throws and leaves a new store. *)
Record Adapter (Raw : Type) : Type := {
    Store : Type;
    ad_get : string -> Store -> Result (option Raw) * Store;
    ad_set : string -> option Raw -> Store -> Result bool * Store;
    ad_delete : string -> Store -> Result bool * Store;
    ad_has : string -> Store -> Result bool * Store;
    ad_clear : Store -> Result bool * Store
}.
Arguments Store {Raw} _.
Arguments ad_get {Raw} _ _ _.
Arguments ad_set {Raw} _ _ _ _.
Arguments ad_delete {Raw} _ _ _.
Arguments ad_has {Raw} _ _ _.
Arguments ad_clear {Raw} _ _.

(** src/adapters/memory.js: a [Map] from key to whatever was stored,
    [undefined] included. *)
Module MemoryAdapter.
Section Ops.
Context {Raw : Type}.

Definition get (key : string) (store : gmap string (option Raw))
  : Result (option Raw) * gmap string (option Raw) :=
  (Ok (match store !! key with Some v => v | None => None end), store).

Definition set (key : string) (value : option Raw)
  (store : gmap string (option Raw))
  : Result bool * gmap string (option Raw) :=
  (Ok true, <[key := value]> store).

Definition delete (key : string) (store : gmap string (option Raw))
  : Result bool * gmap string (option Raw) :=
  (Ok (match store !! key with Some _ => true | None => false end),
  base.delete key store).

Definition has (key : string) (store : gmap string (option Raw))
  : Result bool * gmap string (option Raw) :=
  (Ok (match store !! key with Some _ => true | None => false end), store).

Definition clear (store : gmap string (option Raw))
  : Result bool * gmap string (option Raw) :=
  (Ok true, ∅).
End Ops.

Definition adapter (Raw : Type) : Adapter Raw :=
  {| Store := gmap string (option Raw);
     ad_get := get; ad_set := set; ad_delete := delete;
     ad_has := has; ad_clear := clear |}.
End MemoryAdapter.

(** ** The engine *)

Module EasyCache.

(** Metadata kept per key ([cacheItem] in [set]). *)
Record CacheItem : Type := {
  createdAt : Z;
  expiresAt : option Z;   (* null = None *)
  accessCount : Z;
  tags : list string
}.

(** [this.stats] *)
Record Stats : Type := {
  hits : N;
  misses : N;
  sets : N;
  deletes : N;
  evictions : N;
  totalAccesses : N;
  totalExpired : N
}.

Definition zeroStats : Stats :=
  {| hits := 0; misses := 0; sets := 0; deletes := 0; evictions := 0;
     totalAccesses := 0; totalExpired := 0 |}.

(** What a method returns to its caller. *)
Inductive Ret : Type :=
  | RThis              (* return this *)
  | RBool (b : bool).

(** The snapshot of [getStats].  [hitRate] is kept as the exact
    quotient; [size] is [this.cache.size]. *)
Record StatsSnapshot : Type := {
  snap_stats : Stats;
  snap_size : Z;
  snap_hitRate : Q
}.

(** [hits / (hits + misses) || 0]: the quotient is NaN when both
    counters are 0, which [||] turns into 0. *)
Definition hitRateOf (st : Stats) : Q :=
  match (hits st + misses st)%N with
  | N0 => 0%Q
  | Npos p => (Z.of_N (hits st) # p)%Q
  end.

Section Engine.
Context {Value Raw : Type}.

(** Second argument of [emit]. *)
Inductive Payload : Type :=
  | PNull
  | PUndefined
  | PRaw (r : Raw)
  | PValue (v : Value).

Definition payloadOfValue (v : option Value) : Payload :=
  match v with Some x => PValue x | None => PUndefined end.

Definition payloadOfRaw (r : option Raw) : Payload :=
  match r with Some x => PRaw x | None => PUndefined end.

Inductive Event : Type :=
  | EvSet (key : string) (p : Payload)
  | EvGet (key : string) (p : Payload)
  | EvDelete (key : string) (p : Payload)
  | EvEvicted (key : string) (p : Payload)
  | EvClear
  | EvError (e : string).

(** A pending [setTimeout]: its delay, which method armed it (the
    callback armed by [set] also counts [totalExpired]) and the value
    its callback reports. *)
Inductive TimerOrigin : Type := ArmedBySet | ArmedByGet.

Record Timer : Type := {
  delay : Z;
  origin : TimerOrigin;
  reported : Payload
}.

(** [this.options], as far as the modelled methods read it. *)
Record Options : Type := {
  maxSize : Z;
  defaultTTL : Z;
  slidingTTL : bool;
  enableStats : bool;
  serialize : option Value -> Result (option Raw);
  deserialize : Raw -> Result (option Value);
  maxEntriesPerTag : string -> option Z   (* undefined = None *)
}.

Context (A : Adapter Raw) (opts : Options).

Record Engine : Type := {
  cache : gmap string CacheItem;
  timers : gmap string Timer;
  accessOrder : list (string * Z);
  tagsMap : gmap string (list string);
  stats : Stats;
  storage : Store A;
  events : list Event        (* oldest first *)
}.

(** The state the constructor leaves, over a given store. *)
Definition create (st : Store A) : Engine :=
  {| cache := ∅; timers := ∅; accessOrder := []; tagsMap := ∅;
     stats := zeroStats; storage := st; events := [] |}.

(** *** Field updates *)

Definition withCache (f : gmap string CacheItem -> gmap string CacheItem)
  (s : Engine) : Engine :=
  {| cache := f (cache s); timers := timers s;
     accessOrder := accessOrder s; tagsMap := tagsMap s;
     stats := stats s; storage := storage s; events := events s |}.

Definition withTimers (f : gmap string Timer -> gmap string Timer)
  (s : Engine) : Engine :=
  {| cache := cache s; timers := f (timers s);
     accessOrder := accessOrder s; tagsMap := tagsMap s;
     stats := stats s; storage := storage s; events := events s |}.

Definition withAccessOrder
  (f : list (string * Z) -> list (string * Z)) (s : Engine) : Engine :=
  {| cache := cache s; timers := timers s;
     accessOrder := f (accessOrder s); tagsMap := tagsMap s;
     stats := stats s; storage := storage s; events := events s |}.

Definition withTagsMap
  (f : gmap string (list string) -> gmap string (list string))
  (s : Engine) : Engine :=
  {| cache := cache s; timers := timers s;
     accessOrder := accessOrder s; tagsMap := f (tagsMap s);
     stats := stats s; storage := storage s; events := events s |}.

Definition withStats (f : Stats -> Stats) (s : Engine) : Engine :=
  {| cache := cache s; timers := timers s;
     accessOrder := accessOrder s; tagsMap := tagsMap s;
     stats := f (stats s); storage := storage s; events := events s |}.

Definition withStorage (st : Store A) (s : Engine) : Engine :=
  {| cache := cache s; timers := timers s;
     accessOrder := accessOrder s; tagsMap := tagsMap s;
     stats := stats s; storage := st; events := events s |}.

(** [this.emit(...)].  The event [error] is emitted to an attached
    listener: Node's [emit] throws when [error] has none, and the method
    that reports a failure then rejects instead of returning; that case
    is outside this development. *)
Definition emit (e : Event) (s : Engine) : Engine :=
  {| cache := cache s; timers := timers s;
     accessOrder := accessOrder s; tagsMap := tagsMap s;
     stats := stats s; storage := storage s; events := events s ++ [e] |}.

Definition incHits (st : Stats) : Stats :=
  {| hits := hits st + 1; misses := misses st; sets := sets st;
     deletes := deletes st; evictions := evictions st;
     totalAccesses := totalAccesses st; totalExpired := totalExpired st |}.
Definition incMisses (st : Stats) : Stats :=
  {| hits := hits st; misses := misses st + 1; sets := sets st;
     deletes := deletes st; evictions := evictions st;
     totalAccesses := totalAccesses st; totalExpired := totalExpired st |}.
Definition incSets (st : Stats) : Stats :=
  {| hits := hits st; misses := misses st; sets := sets st + 1;
     deletes := deletes st; evictions := evictions st;
     totalAccesses := totalAccesses st; totalExpired := totalExpired st |}.
Definition incDeletes (st : Stats) : Stats :=
  {| hits := hits st; misses := misses st; sets := sets st;
     deletes := deletes st + 1; evictions := evictions st;
     totalAccesses := totalAccesses st; totalExpired := totalExpired st |}.
Definition incEvictions (st : Stats) : Stats :=
  {| hits := hits st; misses := misses st; sets := sets st;
     deletes := deletes st; evictions := evictions st + 1;
     totalAccesses := totalAccesses st; totalExpired := totalExpired st |}.
Definition incTotalAccesses (st : Stats) : Stats :=
  {| hits := hits st; misses := misses st; sets := sets st;
     deletes := deletes st; evictions := evictions st;
     totalAccesses := totalAccesses st + 1;
     totalExpired := totalExpired st |}.

(** [if (this.options.enableStats) { this.stats.x++ }] *)
Definition countIfEnabled (f : Stats -> Stats) (s : Engine) : Engine :=
  if enableStats opts then withStats f s else s.

(** *** delete *)

(** Removal of [key] from the key set of one tag; an emptied set is
    dropped from [tagsMap]. *)
Definition untag (key : string) (tm : gmap string (list string))
  (tag : string) : gmap string (list string) :=
  match tm !! tag with
  | Some keysForTag =>
    let keysForTag' := JsSet.delete key keysForTag in
    if JsSet.size keysForTag' =? 0
    then base.delete tag tm
    else <[tag := keysForTag']> tm
  | None => tm
  end.

Definition untagAll (key : string) (itemTags : list string)
  (tm : gmap string (list string)) : gmap string (list string) :=
  fold_left (untag key) itemTags tm.

(** [delete] suspended at an [await]: what it has read so far. *)
Record PendingDelete : Type := {
  pd_key : string;
  pd_item : CacheItem;
  pd_value : Payload
}.

(** [delete] up to [await this.storage.get(key)]: the existence test,
    the metadata read and the call that fetches the value for the
    event (a failure of that call leaves [value] null). *)
Definition deleteBegin (key : string) (s : Engine)
  : option PendingDelete * Engine :=
  match cache s !! key with
  | None => (None, s)
  | Some item =>
    let '(r, st) := ad_get A key (storage s) in
    let value := match r with
                 | Ok raw => payloadOfRaw raw
                 | Throw _ => PNull
                 end in
    (Some {| pd_key := key; pd_item := item; pd_value := value |},
     withStorage st s)
  end.

(** The call [this.storage.delete(key)]; its outcome is seen by
    [delete] one turn later. *)
Definition deleteStorage (pd : PendingDelete) (s : Engine)
  : Result bool * Engine :=
  let '(r, st) := ad_delete A (pd_key pd) (storage s) in
  (r, withStorage st s).

(** The rest of [delete], after [await this.storage.delete(key)]. *)
Definition deleteFinish (pd : PendingDelete) (r : Result bool)
  (s : Engine) : Engine :=
  match r with
  | Throw e => emit (EvError e) s
  | Ok _ =>
    let key := pd_key pd in
    let s := withCache (base.delete key) s in
    let s := withAccessOrder (JsMap.delete key) s in
    let s := withTagsMap (untagAll key (tags (pd_item pd))) s in
    let s := withTimers (base.delete key) s in
    let s := countIfEnabled incDeletes s in
    emit (EvDelete key (pd_value pd)) s
  end.

(** [async delete(key)], awaited. *)
Definition delete (key : string) (s : Engine) : Ret * Engine :=
  match deleteBegin key s with
  | (None, s) => (RThis, s)
  | (Some pd, s) =>
    let '(r, s) := deleteStorage pd s in
    (RThis, deleteFinish pd r s)
  end.

(** [deleteMultiple(keys)]: every [delete] is started before any is
    awaited, so all of them run to their first [await], then all issue
    the storage deletion, then all finish. *)
Fixpoint beginAll (keys : list string) (s : Engine)
  : list PendingDelete * Engine :=
  match keys with
  | [] => ([], s)
  | key :: rest =>
    let '(pd, s) := deleteBegin key s in
    let '(pds, s) := beginAll rest s in
    (match pd with Some p => p :: pds | None => pds end, s)
  end.

Fixpoint storageAll (pds : list PendingDelete) (s : Engine)
  : list (PendingDelete * Result bool) * Engine :=
  match pds with
  | [] => ([], s)
  | pd :: rest =>
    let '(r, s) := deleteStorage pd s in
    let '(rs, s) := storageAll rest s in
    ((pd, r) :: rs, s)
  end.

Definition finishAll (rs : list (PendingDelete * Result bool))
  (s : Engine) : Engine :=
  fold_left (fun s pr => deleteFinish (fst pr) (snd pr) s) rs s.

Definition deleteMultiple (keys : list string) (s : Engine)
  : Ret * Engine :=
  let '(pds, s) := beginAll keys s in
  let '(rs, s) := storageAll pds s in
  (RThis, finishAll rs s).

(** [deleteByTag(tag)] *)
Definition deleteByTag (tag : string) (s : Engine) : Ret * Engine :=
  match tagsMap s !! tag with
  | None => (RBool false, s)
  | Some keysForTag =>
    let '(_, s) := deleteMultiple keysForTag s in
    (RBool (Z.of_nat (length keysForTag) >? 0), s)
  end.

(** *** _evictLRU *)

(** [time < oldestTime], where [oldestTime] starts at Infinity. *)
Definition ltOldest (time : Z) (oldestTime : option Z) : bool :=
  match oldestTime with
  | None => true
  | Some t => time <? t
  end.

(** The loop over [this.accessOrder.entries()]. *)
Fixpoint scanOldest (entries : list (string * Z))
  (oldestKey : option string) (oldestTime : option Z)
  : option string :=
  match entries with
  | [] => oldestKey
  | (key, time) :: rest =>
    if ltOldest time oldestTime
    then scanOldest rest (Some key) (Some time)
    else scanOldest rest oldestKey oldestTime
  end.

(** [_evictLRU()] is not [async] and does not await the [delete] it
    starts: it returns with that [delete] suspended at its first
    [await] (the result [Some pd]), having counted and announced the
    eviction. *)
Definition _evictLRU (s : Engine) : option PendingDelete * Engine :=
  if JsMap.size (accessOrder s) =? 0 then (None, s)
  else
  match scanOldest (accessOrder s) None None with
  | Some oldestKey =>
      if truthyKey oldestKey then
        let '(pd, s) := deleteBegin oldestKey s in
        let s := withStats incEvictions s in
        (pd, emit (EvEvicted oldestKey PUndefined) s)
      else (None, s)
  | None => (None, s)
  end.

(** *** set *)

(** The loop over [this.tagsMap.get(tag)] that looks for the least
    recently used key of a tag. *)
Fixpoint scanOldestTagged (s : Engine) (members : list string)
  (oldestKey : option string) (oldestTime : option Z)
  : option string :=
  match members with
  | [] => oldestKey
  | taggedKey :: rest =>
    match cache s !! taggedKey, JsMap.get taggedKey (accessOrder s) with
    | Some _, Some time =>
        if ltOldest time oldestTime
        then scanOldestTagged s rest (Some taggedKey) (Some time)
        else scanOldestTagged s rest oldestKey oldestTime
    | _, _ => scanOldestTagged s rest oldestKey oldestTime
    end
  end.

(** One round of [for (const tag of cacheItem.tags)]: index [key]
    under [tag], then enforce [maxEntriesPerTag[tag]]. *)
Definition tagStep (key : string) (s : Engine) (tag : string) : Engine :=
  let members :=
  JsSet.add key (match tagsMap s !! tag with
                 | Some ks => ks
                 | None => []
                 end) in
  let s := withTagsMap (insert tag members) s in
  match maxEntriesPerTag opts tag with
  | Some maxEntries =>
    if truthyZ maxEntries && (JsSet.size members >? maxEntries) then
      match scanOldestTagged s members None None with
      | Some oldestTaggedKey =>
          if truthyKey oldestTaggedKey then
            let '(_, s) := delete oldestTaggedKey s in
            let s := countIfEnabled incEvictions s in
            emit (EvEvicted oldestTaggedKey PNull) s
          else s
      | None => s
      end
    else s
  | None => s
  end.

(** [ttl !== null ? ttl : this.options.defaultTTL]; an omitted [ttl]
    is the parameter default, null. *)
Definition effectiveTTLOf (ttl : option Z) : Z :=
  match ttl with
  | Some t => t
  | None => defaultTTL opts
  end.

(** [effectiveTTL > 0 ? Date.now() + effectiveTTL : null] *)
Definition expiresAtOf (effectiveTTL now : Z) : option Z :=
  if effectiveTTL >? 0 then Some (now + effectiveTTL) else None.

(** The suspended [delete] of an eviction, one turn on: it issues the
    storage deletion. *)
Definition pendingStorage (pd : option PendingDelete) (s : Engine)
  : option (PendingDelete * Result bool) * Engine :=
  match pd with
  | None => (None, s)
  | Some p => let '(r, s) := deleteStorage p s in (Some (p, r), s)
  end.

(** ... and one more turn on: it finishes. *)
Definition pendingFinish (pr : option (PendingDelete * Result bool))
  (s : Engine) : Engine :=
  match pr with
  | None => s
  | Some (p, r) => deleteFinish p r s
  end.

(** The metadata and the access order after the pending [delete] of an
    eviction has finished. *)
Definition cacheAfter (pr : option (PendingDelete * Result bool))
  (metadata : gmap string CacheItem) : gmap string CacheItem :=
  match pr with
  | Some (pd, Ok _) => base.delete (pd_key pd) metadata
  | _ => metadata
  end.

Definition orderAfter (pr : option (PendingDelete * Result bool))
  (order : list (string * Z)) : list (string * Z) :=
  match pr with
  | Some (pd, Ok _) => JsMap.delete (pd_key pd) order
  | _ => order
  end.

(** [set], from [// Store metadata in memory] to the end. *)
Definition setCommit (key : string) (value : option Value)
  (itemTags : list string) (effectiveTTL : Z) (expiry : option Z)
  (nowCreated nowAccess : Z) (s : Engine) : Engine :=
  let cacheItem :=
  {| createdAt := nowCreated; expiresAt := expiry;
     accessCount := 0; tags := itemTags |} in
  let s := withCache (insert key cacheItem) s in
  let s := withAccessOrder (JsMap.set key nowAccess) s in
  let s := fold_left (tagStep key) itemTags s in
  let s :=
  if effectiveTTL >? 0
  then withTimers
         (insert key {| delay := effectiveTTL; origin := ArmedBySet;
                        reported := payloadOfValue value |}) s
  else s in
  let s := countIfEnabled incSets s in
  emit (EvSet key (payloadOfValue value)) s.

(** [set], from [// Store value in external storage] to the end.  [pr]
    is the [delete] that [_evictLRU] left running, if any: it finishes
    while [set] awaits the backend write, or right after a synchronous
    failure of [serialize]. *)
Definition setWrite (key : string) (value : option Value)
  (itemTags : list string) (effectiveTTL : Z) (expiry : option Z)
  (nowCreated nowAccess : Z)
  (pr : option (PendingDelete * Result bool)) (s : Engine)
  : Ret * Engine :=
  match serialize opts value with
  | Throw e => (RThis, pendingFinish pr (emit (EvError e) s))
  | Ok raw =>
    let '(r, st) := ad_set A key raw (storage s) in
    let s := withStorage st s in
    let s := pendingFinish pr s in
    match r with
    | Throw e => (RThis, emit (EvError e) s)
    | Ok _ =>
        (RThis,
         setCommit key value itemTags effectiveTTL expiry
           nowCreated nowAccess s)
    end
  end.

(** [async set(key, value, ttl = null, tags = [], condition = null)].

    [condition] is [None] when the argument is not a function.  The
    three clock readings are those of [expiresAt], [createdAt] and
    [accessOrder.set].

    When [_evictLRU] has started a [delete], that [delete] and [set]
    take turns: the [delete] issues its storage deletion while [set]
    is suspended at [await this._evictLRU()]; [set] then runs up to
    [await this.storage.set(...)]; the [delete] finishes; [set]
    resumes. *)
Definition set (key : string) (value : option Value) (ttl : option Z)
  (itemTags : list string)
  (condition : option (string -> option Value -> Result bool))
  (nowExpiry nowCreated nowAccess : Z) (s : Engine) : Ret * Engine :=
  match (match condition with
       | Some c => c key value
       | None => Ok true
       end) with
  | Throw e => (RThis, emit (EvError e) s)
  | Ok false => (RBool false, s)
  | Ok true =>
    (* old tags of an existing item leave tagsMap *)
    let s := match cache s !! key with
             | Some existingItem =>
                 withTagsMap (untagAll key (tags existingItem)) s
             | None => s
             end in
    (* capacity check *)
    let '(pd, s) :=
      if (Z.of_nat (size (cache s)) >=? maxSize opts)
         && negb (bool_decide (is_Some (cache s !! key)))
      then _evictLRU s
      else (None, s) in
    let '(pr, s) := pendingStorage pd s in
    (* existing timer *)
    let s := withTimers (base.delete key) s in
    let effectiveTTL := effectiveTTLOf ttl in
    let expiry := expiresAtOf effectiveTTL nowExpiry in
    setWrite key value itemTags effectiveTTL expiry nowCreated nowAccess
      pr s
  end.

(** *** get *)

(** [item.expiresAt && Date.now() > item.expiresAt] *)
Definition isExpired (item : CacheItem) (now : Z) : bool :=
  match expiresAt item with
  | Some e => truthyZ e && (now >? e)
  | None => false
  end.

(** The purge of [get] and [has] on a storage inconsistency. *)
Definition purge (key : string) (s : Engine) : Engine :=
  withAccessOrder (JsMap.delete key) (withCache (base.delete key) s).

(** [get], from [// Update access info for LRU] to the end. *)
Definition getHit (key : string) (item : CacheItem) (value : Value)
  (nowAccess nowSlide : Z) (s : Engine) : Engine :=
  let s := withAccessOrder (JsMap.set key nowAccess) s in
  let counted :=
  {| createdAt := createdAt item; expiresAt := expiresAt item;
     accessCount := accessCount item + 1; tags := tags item |} in
  let s :=
  match expiresAt item with
  | Some e =>
      if slidingTTL opts && truthyZ e then
        let currentTTL := e - createdAt item in
        let renewed :=
          {| createdAt := createdAt item;
             expiresAt := Some (nowSlide + currentTTL);
             accessCount := accessCount item + 1;
             tags := tags item |} in
        withTimers
          (insert key {| delay := currentTTL; origin := ArmedByGet;
                         reported := PValue value |})
          (withCache (insert key renewed) s)
      else withCache (insert key counted) s
  | None => withCache (insert key counted) s
  end in
  let s := countIfEnabled incHits s in
  emit (EvGet key (PValue value)) s.

(** [async get(key)]; [None] is [undefined].  The clock readings are
    those of the expiry test, of [accessOrder.set] and of the sliding
    renewal. *)
Definition get (key : string) (nowCheck nowAccess nowSlide : Z)
  (s : Engine) : option Value * Engine :=
  let s := countIfEnabled incTotalAccesses s in
  match cache s !! key with
  | None => (None, countIfEnabled incMisses s)
  | Some item =>
    if isExpired item nowCheck then
      let '(_, s) := delete key s in
      (None, countIfEnabled incMisses s)
    else
      let '(r, st) := ad_get A key (storage s) in
      let s := withStorage st s in
      let decoded :=
        match r with
        | Throw e => Throw e
        | Ok None => Ok None
        | Ok (Some raw) => deserialize opts raw
        end in
      match decoded with
      | Throw e =>
          (None, countIfEnabled incMisses (emit (EvError e) s))
      | Ok None =>
          (None, countIfEnabled incMisses (purge key s))
      | Ok (Some value) =>
          (Some value, getHit key item value nowAccess nowSlide s)
      end
  end.

(** *** has, clear, getStats, resetStats, getOrSet *)

Definition has (key : string) (now : Z) (s : Engine) : bool * Engine :=
  match cache s !! key with
  | None => (false, s)
  | Some item =>
    if isExpired item now then
      let '(_, s) := delete key s in (false, s)
    else
      let '(r, st) := ad_has A key (storage s) in
      let s := withStorage st s in
      match r with
      | Ok true => (true, s)
      | Ok false => (false, purge key s)
      | Throw _ => (false, s)
      end
  end.

Definition clear (s : Engine) : Ret * Engine :=
  let '(r, st) := ad_clear A (storage s) in
  let s := withStorage st s in
  match r with
  | Throw e => (RThis, emit (EvError e) s)
  | Ok _ =>
    let s := withCache (fun _ => ∅) s in
    let s := withTimers (fun _ => ∅) s in
    let s := withAccessOrder (fun _ => []) s in
    (RThis, emit EvClear s)
  end.

Definition getStats (s : Engine) : StatsSnapshot :=
  {| snap_stats := stats s;
     snap_size := Z.of_nat (size (cache s));
     snap_hitRate := hitRateOf (stats s) |}.

Definition resetStats (s : Engine) : Ret * Engine :=
  (RThis, withStats (fun _ => zeroStats) s).

(** [async getOrSet(key, fn, ttl = null, loaderOptions = {})];
    [loaded] is the outcome of [fn(loaderOptions)], read only on a
    miss.  A throwing loader is reported and rethrown. *)
Definition getOrSet (key : string) (loaded : Result (option Value))
  (ttl : option Z) (g1 g2 g3 s1 s2 s3 : Z) (s : Engine)
  : Result (option Value) * Engine :=
  let '(value, s) := get key g1 g2 g3 s in
  match value with
  | Some v => (Ok (Some v), s)
  | None =>
    match loaded with
    | Throw e => (Throw e, emit (EvError e) s)
    | Ok v =>
        let '(_, s) := set key v ttl [] None s1 s2 s3 s in
        (Ok v, s)
    end
  end.

(** *** Sequences of calls *)

(** A call of a public method with its arguments and clock readings.
    [getOrSet] is a [get] followed, on a miss, by a [set]. *)
Inductive Call : Type :=
  | CallSet (key : string) (value : option Value) (ttl : option Z)
  (itemTags : list string)
  (condition : option (string -> option Value -> Result bool))
  (nowExpiry nowCreated nowAccess : Z)
  | CallGet (key : string) (nowCheck nowAccess nowSlide : Z)
  | CallHas (key : string) (now : Z)
  | CallDelete (key : string)
  | CallDeleteByTag (tag : string)
  | CallClear.

Inductive Answer : Type :=
  | AnsRet (r : Ret)
  | AnsValue (v : option Value)
  | AnsBool (b : bool).

Definition call (c : Call) (s : Engine) : Answer * Engine :=
  match c with
  | CallSet key value ttl itemTags condition tE tC tA =>
    let '(r, s) := set key value ttl itemTags condition tE tC tA s in
    (AnsRet r, s)
  | CallGet key t1 t2 t3 =>
    let '(v, s) := get key t1 t2 t3 s in (AnsValue v, s)
  | CallHas key now => let '(b, s) := has key now s in (AnsBool b, s)
  | CallDelete key => let '(r, s) := delete key s in (AnsRet r, s)
  | CallDeleteByTag tag => let '(r, s) := deleteByTag tag s in (AnsRet r, s)
  | CallClear => let '(r, s) := clear s in (AnsRet r, s)
  end.

Fixpoint run (calls : list Call) (s : Engine) : list Answer * Engine :=
  match calls with
  | [] => ([], s)
  | c :: rest =>
    let '(a, s) := call c s in
    let '(answers, s) := run rest s in
    (a :: answers, s)
  end.

(** The contract of [set]: [key] is a non-empty string. *)
Definition wellKeyed (c : Call) : Prop :=
  match c with
  | CallSet key _ _ _ _ _ _ _ => key <> EmptyString
  | _ => True
  end.

(** A [get] that returned a value is a hit, one that returned
    [undefined] a miss. *)
Definition isHit (a : Answer) : bool :=
  match a with AnsValue (Some _) => true | _ => false end.

Definition isMiss (a : Answer) : bool :=
  match a with AnsValue None => true | _ => false end.

Definition countHits (answers : list Answer) : nat :=
  length (filter (fun a => isHit a = true) answers).

Definition countMisses (answers : list Answer) : nat :=
  length (filter (fun a => isMiss a = true) answers).

(** The pair of counters that [hitRate] reads. *)
Definition hm (s : Engine) : N * N := (hits (stats s), misses (stats s)).

(** *** The invariants of the data model *)

(** TagIndex: [key] is listed under [tag] exactly when the metadata of
    [key] exists and carries [tag]; no tag keeps an empty key set. *)
Definition TagIndexInv (s : Engine) : Prop :=
  (forall key tag,
    (exists keysForTag,
        tagsMap s !! tag = Some keysForTag /\ In key keysForTag)
    <-> (exists item, cache s !! key = Some item /\ In tag (tags item)))
  /\ (forall tag keysForTag,
       tagsMap s !! tag = Some keysForTag -> keysForTag <> []).

(** AccessOrder: a key has a last-access time exactly when it has
    metadata; the empty string, which [_evictLRU] would not evict, is
    not a key. *)
Definition AccessOrderOk (metadata : gmap string CacheItem)
  (order : list (string * Z)) : Prop :=
  (forall key, is_Some (JsMap.get key order) <-> is_Some (metadata !! key))
  /\ metadata !! EmptyString = None.

Definition AccessOrderInv (s : Engine) : Prop :=
  AccessOrderOk (cache s) (accessOrder s).

(** The entry of [key] expires at time [t]: its metadata says so. *)
Definition ExpiresAt (s : Engine) (key : string) (t : Z) : Prop :=
  exists item, cache s !! key = Some item /\ expiresAt item = Some t.

(** The entry of [key] never expires: no expiry time, no timer. *)
Definition NeverExpires (s : Engine) (key : string) : Prop :=
  (exists item, cache s !! key = Some item /\ expiresAt item = None)
  /\ timers s !! key = None.

(** [key] is the least recently used key of [entries]: its time is the
    smallest, and no entry before it in insertion order has that time. *)
Definition LruVictim (entries : list (string * Z)) (key : string) : Prop :=
  exists before time after,
  entries = before ++ (key, time) :: after
  /\ (forall k t, In (k, t) before -> time < t)
  /\ (forall k t, In (k, t) after -> time <= t).

(** The number of capacity evictions announced in an event log:
    [_evictLRU] reports [item?.value], which is [undefined]; the
    per-tag limit reports null. *)
Definition isCapacityEviction (e : Event) : bool :=
  match e with
  | EvEvicted _ PUndefined => true
  | _ => false
  end.

Definition capacityEvictions (log : list Event) : nat :=
  length (filter (fun e => isCapacityEviction e = true) log).

(** [s'] has no more entries than [s] and keeps the access-order
    invariant. *)
Definition NoGrowth (s s' : Engine) : Prop :=
  (size (cache s') <= size (cache s))%nat
  /\ (AccessOrderInv s -> AccessOrderInv s').

(** [s'] comes from [s] by deletions only: no metadata is added, the
    access-order invariant is kept, and the events added announce no
    capacity eviction. *)
Definition Shrunk (s s' : Engine) : Prop :=
  cache s' ⊆ cache s
  /\ (AccessOrderInv s -> AccessOrderInv s')
  /\ exists added,
     events s' = events s ++ added /\ capacityEvictions added = 0%nat.

End Engine.

Arguments Engine Value {Raw} A.
Arguments create Value {Raw} A st.
Arguments cache {Value Raw A} _.
Arguments timers {Value Raw A} _.
Arguments accessOrder {Value Raw A} _.
Arguments tagsMap {Value Raw A} _.
Arguments stats {Value Raw A} _.
Arguments storage {Value Raw A} _.
Arguments events {Value Raw A} _.
Arguments PendingDelete : clear implicits.
Arguments Call : clear implicits.
Arguments Answer : clear implicits.
Arguments hm {Value Raw A} s.
Arguments Shrunk {Value Raw A} s s'.
Arguments NoGrowth {Value Raw A} s s'.
Arguments TagIndexInv {Value Raw A} s.
Arguments AccessOrderInv {Value Raw A} s.
Arguments ExpiresAt {Value Raw A} s key t.
Arguments NeverExpires {Value Raw A} s key.
Arguments Payload : clear implicits.
Arguments Event : clear implicits.
Arguments Timer : clear implicits.
Arguments Options : clear implicits.
End EasyCache.

(** ** The engine over the in-memory backend *)

(** The store holds no defined value for [key]: the key is absent or was
    stored as [undefined].  [MemoryAdapter.get] answers [undefined] in
    both cases. *)
Definition StoredUndefined {Raw : Type} (store : gmap string (option Raw))
    (key : string) : Prop :=
  match store !! key with
  | Some (Some _) => False
  | _ => True
  end.

(** What a later [get] of [key] relies on: the store has nothing defined
    for the key, and the key has no access time unless it has metadata. *)
Definition Unreadable {Value Raw : Type} (key : string)
    (s : EasyCache.Engine Value (MemoryAdapter.adapter Raw)) : Prop :=
  StoredUndefined (EasyCache.storage s) key
  /\ (EasyCache.cache s !! key = None ->
      JsMap.get key (EasyCache.accessOrder s) = None).

(** ** Configurations used in the examples *)

(** The default pair [JSON.stringify] / [JSON.parse] on the values
    [undefined], [null], [true] and [false].  [JSON.stringify(undefined)]
    is [undefined]; [JSON.parse] is only ever applied to a text that
    [stringify] produced, any other text is a [SyntaxError] here. *)
Module Json.
Inductive value : Type :=
  | JNull
  | JBool (b : bool).

Definition stringify (v : option value) : Result (option string) :=
  Ok (match v with
      | None => None
      | Some JNull => Some "null"%string
      | Some (JBool true) => Some "true"%string
      | Some (JBool false) => Some "false"%string
      end).

Definition parse (text : string) : Result (option value) :=
  if String.eqb text "null" then Ok (Some JNull)
  else if String.eqb text "true" then Ok (Some (JBool true))
  else if String.eqb text "false" then Ok (Some (JBool false))
  else Throw "SyntaxError".
End Json.

(** A backend whose connection drops after a number of calls: a
    [MemoryAdapter] behind a budget; with the budget used up every call
    throws. *)
Module FlakyAdapter.
Section Ops.
Context {Raw : Type}.

Definition guarded {T : Type}
  (op : gmap string (option Raw) -> Result T * gmap string (option Raw))
  (store : nat * gmap string (option Raw))
  : Result T * (nat * gmap string (option Raw)) :=
  match fst store with
  | O => (Throw "connection lost", store)
  | S budget => let '(r, m) := op (snd store) in (r, (budget, m))
  end.
End Ops.

Definition adapter (Raw : Type) : Adapter Raw :=
  {| Store := nat * gmap string (option Raw);
     ad_get := fun key => guarded (MemoryAdapter.get key);
     ad_set := fun key value => guarded (MemoryAdapter.set key value);
     ad_delete := fun key => guarded (MemoryAdapter.delete key);
     ad_has := fun key => guarded (MemoryAdapter.has key);
     ad_clear := guarded MemoryAdapter.clear |}.
End FlakyAdapter.

Module Demo.
Import EasyCache.

(** [new EasyCache({ maxSize, defaultTTL, slidingTTL })]: the other
    options at their defaults. *)
Definition options (maxSize defaultTTL : Z) (slidingTTL : bool)
  : Options Json.value string :=
  {| EasyCache.maxSize := maxSize;
     EasyCache.defaultTTL := defaultTTL;
     EasyCache.slidingTTL := slidingTTL;
     enableStats := true;
     serialize := Json.stringify;
     deserialize := Json.parse;
     maxEntriesPerTag := fun _ => None |}.

Definition memory : Adapter string := MemoryAdapter.adapter string.
Definition flaky : Adapter string := FlakyAdapter.adapter string.

(** A fresh engine over an empty in-memory store. *)
Definition fresh : Engine Json.value memory :=
  create Json.value memory (∅ : gmap string (option string)).

(** A fresh engine over a backend that serves [budget] calls. *)
Definition freshFlaky (budget : nat) : Engine Json.value flaky :=
  create Json.value flaky (budget, (∅ : gmap string (option string))).

Definition yes : option Json.value := Some (Json.JBool true).
Definition no : option Json.value := Some (Json.JBool false).

(** A condition: only [true] is worth caching. *)
Definition onlyTrue (key : string) (value : option Json.value) : Result bool :=
  Ok (match value with Some (Json.JBool true) => true | _ => false end).

(** Two writes, a deletion and four reads; two of the reads find
    nothing. *)
Definition session : list (Call Json.value) :=
  [ CallSet "a" yes None [] None 10 10 10;
    CallGet "a" 20 20 20;
    CallGet "b" 30 30 30;
    CallSet "b" no (Some 500) ["t"%string] None 40 40 40;
    CallGet "b" 50 50 50;
    CallDelete "a";
    CallGet "a" 60 60 60 ].

(** A cache of capacity 2 after two writes. *)
Definition full : Engine Json.value memory :=
  snd (set memory (options 2 0 false) "b" no None [] None 20 20 20
         (snd (set memory (options 2 0 false) "a" yes None [] None
                 10 10 10 fresh))).
End Demo.

(** ** The rest of the class *)

(** The methods of [EasyCache] that the definitions above do not cover:
    [touch], [getInfo], [getByTag], [setMultiple], and the ledger that
    relates [this.stats] to the notifications. *)
Module EasyCacheRest.
Import EasyCache.

(** What [getInfo] returns for a known key. *)
Record Info : Type := {
  info_key : string;
  info_createdAt : Z;
  info_expiresAt : option Z;
  info_accessCount : Z;
  info_tags : list string;
  info_isExpired : bool;
  info_ttl : option Z      (* null = None *)
}.

Section Engine.
Context {Value Raw : Type} (A : Adapter Raw) (opts : Options Value Raw).

(** [touch(key, ttl)]: one clock reading, that of [expiresAt].  The
    callback it arms starts the [delete] of the key and emits [expired]
    with [item.value], which metadata does not have; like the callback
    that [get] arms it counts nothing, and it is recorded with that
    origin.  No timer fires in this development. *)
Definition touch (key : string) (ttl now : Z) (s : Engine Value A)
  : Ret * Engine Value A :=
  match cache s !! key with
  | None => (RBool false, s)
  | Some item =>
      let s := withTimers A (base.delete key) s in
      let touched :=
        {| createdAt := createdAt item;
           expiresAt := if ttl >? 0 then Some (now + ttl) else None;
           accessCount := accessCount item;
           tags := tags item |} in
      let s := withCache A (insert key touched) s in
      let s :=
        if ttl >? 0
        then withTimers A
               (insert key {| delay := ttl; origin := ArmedByGet;
                              reported := PUndefined |}) s
        else s in
      (RThis, s)
  end.

(** [getInfo(key)]; [None] is null.  The two clock readings are those of
    [isExpired] and of [ttl], in that order. *)
Definition getInfo (key : string) (nowExpired nowTtl : Z)
    (s : Engine Value A) : option Info :=
  match cache s !! key with
  | None => None
  | Some item =>
      Some {| info_key := key;
              info_createdAt := createdAt item;
              info_expiresAt := expiresAt item;
              info_accessCount := accessCount item;
              info_tags := tags item;
              info_isExpired :=
                match expiresAt item with
                | Some e => if truthyZ e then nowExpired >? e else false
                | None => false
                end;
              info_ttl :=
                match expiresAt item with
                | Some e =>
                    if truthyZ e then Some (Z.max 0 (e - nowTtl)) else None
                | None => None
                end |}
  end.

(** The loop of [getByTag] over the keys of a tag: one awaited [get] per
    key; [clock key] gives the three clock readings of that [get].  The
    loop runs over the live set, from which a [get] removes no key but
    its own: it visits the keys the set had at the start.
    [result[key] = value] on a plain object defines no property when the
    key is [__proto__]. *)
Fixpoint getEach (keys : list string) (clock : string -> Z * Z * Z)
    (result : gmap string Value) (s : Engine Value A)
  : gmap string Value * Engine Value A :=
  match keys with
  | [] => (result, s)
  | key :: rest =>
      let '(t1, t2, t3) := clock key in
      let '(value, s) := get A opts key t1 t2 t3 s in
      let result :=
        match value with
        | Some v =>
            if String.eqb key "__proto__" then result
            else <[key := v]> result
        | None => result
        end in
      getEach rest clock result s
  end.

(** [getByTag(tag)]: the result object as a finite map. *)
Definition getByTag (tag : string) (clock : string -> Z * Z * Z)
    (s : Engine Value A) : gmap string Value * Engine Value A :=
  match tagsMap s !! tag with
  | None => (∅, s)
  | Some keysForTag => getEach keysForTag clock ∅ s
  end.

(** *** setMultiple *)

(** One entry of the object given to [setMultiple], with the clock
    readings of its [set]. *)
Record Entry : Type := {
  en_key : string;
  en_value : option Value;
  en_nowExpiry : Z;
  en_nowCreated : Z;
  en_nowAccess : Z
}.

(** [setMultiple] starts every [set] before it awaits any: the calls
    overlap.  A call that is suspended at an [await] is a task in the
    microtask queue; with an adapter that settles at once every task is
    ready when it is queued, and the queue runs first in, first out. *)
Inductive Task : Type :=
  | TaskDeleteStorage (pd : PendingDelete Value Raw)
      (* delete, after [await this.storage.get(key)] *)
  | TaskDeleteFinish (pd : PendingDelete Value Raw) (r : Result bool)
      (* delete, after [await this.storage.delete(key)] *)
  | TaskSetResume (e : Entry) (ttl : option Z)
      (* set, after [await this._evictLRU()] *)
  | TaskSetCommit (e : Entry) (effectiveTTL : Z) (expiry : option Z)
      (r : Result bool)
      (* set, after [await this.storage.set(...)] *).

(** [set] from [// Clear existing timer if exists] up to its
    [await this.storage.set(...)]. *)
Definition setResume (e : Entry) (ttl : option Z) (s : Engine Value A)
  : list Task * Engine Value A :=
  let s := withTimers A (base.delete (en_key e)) s in
  let effectiveTTL := effectiveTTLOf opts ttl in
  let expiry := expiresAtOf effectiveTTL (en_nowExpiry e) in
  match serialize opts (en_value e) with
  | Throw err => ([], emit A (EvError err) s)
  | Ok raw =>
      let '(r, st) := ad_set A (en_key e) raw (storage s) in
      ([TaskSetCommit e effectiveTTL expiry r], withStorage A st s)
  end.

(** [this.set(key, value, ttl)] up to its first [await]: no condition,
    no tags. *)
Definition setStart (ttl : option Z) (e : Entry) (s : Engine Value A)
  : list Task * Engine Value A :=
  let key := en_key e in
  let s := match cache s !! key with
           | Some existingItem =>
               withTagsMap A (untagAll key (tags existingItem)) s
           | None => s
           end in
  if (Z.of_nat (size (cache s)) >=? maxSize opts)
     && negb (bool_decide (is_Some (cache s !! key)))
  then
    let '(pd, s) := _evictLRU A s in
    (match pd with
     | Some p => [TaskDeleteStorage p]
     | None => []
     end ++ [TaskSetResume e ttl], s)
  else setResume e ttl s.

(** One task runs to its next [await] or to its end. *)
Definition runTask (t : Task) (s : Engine Value A)
  : list Task * Engine Value A :=
  match t with
  | TaskDeleteStorage pd =>
      let '(r, s) := deleteStorage A pd s in ([TaskDeleteFinish pd r], s)
  | TaskDeleteFinish pd r => ([], deleteFinish A opts pd r s)
  | TaskSetResume e ttl => setResume e ttl s
  | TaskSetCommit e effectiveTTL expiry r =>
      match r with
      | Throw err => ([], emit A (EvError err) s)
      | Ok _ =>
          ([], setCommit A opts (en_key e) (en_value e) [] effectiveTTL
                 expiry (en_nowCreated e) (en_nowAccess e) s)
      end
  end.

(** The queue, for at most [fuel] tasks; what is left of it is
    returned. *)
Fixpoint runQueue (fuel : nat) (queue : list Task) (s : Engine Value A)
  : list Task * Engine Value A :=
  match fuel, queue with
  | S fuel', t :: rest =>
      let '(more, s) := runTask t s in
      runQueue fuel' (rest ++ more) s
  | _, _ => (queue, s)
  end.

(** The calls [this.set(key, value, ttl)] of [items.map(...)], each run
    to its first [await], in the order of [Object.entries]. *)
Fixpoint startAll (ttl : option Z) (entries : list Entry)
    (s : Engine Value A) : list Task * Engine Value A :=
  match entries with
  | [] => ([], s)
  | e :: rest =>
      let '(tasks, s) := setStart ttl e s in
      let '(more, s) := startAll ttl rest s in
      (tasks ++ more, s)
  end.

(** How many tasks a queue can still run: a task is followed by at most
    one more. *)
Definition taskCost (t : Task) : nat :=
  match t with
  | TaskDeleteStorage _ | TaskSetResume _ _ => 2
  | TaskDeleteFinish _ _ | TaskSetCommit _ _ _ _ => 1
  end.

Definition queueCost (queue : list Task) : nat :=
  list_sum (map taskCost queue).

(** [async setMultiple(items, ttl = null)]: the tasks left over (none,
    see [runQueue_drains]) and the state when [Promise.all]
    resolves. *)
Definition setMultipleRun (entries : list Entry) (ttl : option Z)
    (s : Engine Value A) : list Task * Engine Value A :=
  let '(queue, s) := startAll ttl entries s in
  runQueue (queueCost queue) queue s.

Definition setMultiple (entries : list Entry) (ttl : option Z)
    (s : Engine Value A) : Ret * Engine Value A :=
  (RThis, snd (setMultipleRun entries ttl s)).

(** The same writes as calls awaited one after the other:
    [for (const [key, value] of Object.entries(items))
       await this.set(key, value, ttl)]. *)
Definition setInTurn (ttl : option Z) (entries : list Entry)
    : list (Call Value) :=
  map (fun e =>
         CallSet (en_key e) (en_value e) ttl [] None
           (en_nowExpiry e) (en_nowCreated e) (en_nowAccess e))
    entries.

(** *** Statistics and notifications *)

Definition isGetEvent (e : Event Value Raw) : bool :=
  match e with EvGet _ _ => true | _ => false end.
Definition isSetEvent (e : Event Value Raw) : bool :=
  match e with EvSet _ _ => true | _ => false end.
Definition isDeleteEvent (e : Event Value Raw) : bool :=
  match e with EvDelete _ _ => true | _ => false end.
Definition isEvictedEvent (e : Event Value Raw) : bool :=
  match e with EvEvicted _ _ => true | _ => false end.

Definition countEvents (p : Event Value Raw -> bool)
    (log : list (Event Value Raw)) : N :=
  N.of_nat (length (filter (fun e => p e = true) log)).

(** The counters after the events [added] were emitted, [dm] misses
    counted and [da] accesses counted: every notification has its
    counter.  With statistics disabled only [evictions] moves, by the
    capacity evictions. *)
Definition bump (added : list (Event Value Raw)) (dm da : N) (st : Stats)
  : Stats :=
  if enableStats opts then
    {| hits := hits st + countEvents isGetEvent added;
       misses := misses st + dm;
       sets := sets st + countEvents isSetEvent added;
       deletes := deletes st + countEvents isDeleteEvent added;
       evictions := evictions st + countEvents isEvictedEvent added;
       totalAccesses := totalAccesses st + da;
       totalExpired := totalExpired st |}
  else
    {| hits := hits st; misses := misses st; sets := sets st;
       deletes := deletes st;
       evictions := evictions st + N.of_nat (capacityEvictions added);
       totalAccesses := totalAccesses st;
       totalExpired := totalExpired st |}.

(** [s'] is [s] plus the events [added], with the counters moved
    accordingly; an access is a hit or a miss. *)
Definition Ledger (s s' : Engine Value A) (added : list (Event Value Raw))
    (dm da : N) : Prop :=
  events s' = events s ++ added
  /\ stats s' = bump added dm da (stats s)
  /\ da = (countEvents isGetEvent added + dm)%N.

(** *** The tag index, key by key *)

(** The keys of a tag's key set that have an access time, with that
    time, in the order of the key set: what the loop over
    [this.tagsMap.get(tag)] compares. *)
Definition tagOrder (order : list (string * Z)) (members : list string)
  : list (string * Z) :=
  omap (fun k => pair k <$> JsMap.get k order) members.

(** [key] is listed under [tag]. *)
Definition Listed (tm : gmap string (list string)) (key tag : string)
  : Prop :=
  exists keysForTag, tm !! tag = Some keysForTag /\ In key keysForTag.

(** The metadata of [key] carries [tag]. *)
Definition Tagged (metadata : gmap string CacheItem) (key tag : string)
  : Prop :=
  exists item, metadata !! key = Some item /\ In tag (tags item).

Definition NoEmptyTag (tm : gmap string (list string)) : Prop :=
  forall tag keysForTag, tm !! tag = Some keysForTag -> keysForTag <> [].

(** The tag index is right for every key but [key], which is listed
    nowhere: the state of [set] between its removal of the old tags and
    its insertion of the new ones. *)
Definition TagIndexBut (key : string) (s : Engine Value A) : Prop :=
  (forall k tag, k <> key ->
      Listed (tagsMap s) k tag <-> Tagged (cache s) k tag)
  /\ (forall tag, ~ Listed (tagsMap s) key tag)
  /\ NoEmptyTag (tagsMap s).

End Engine.

Arguments Entry : clear implicits.
Arguments Task : clear implicits.

(** [s'] differs from [s] in the backend store only. *)
Definition StorageOnly {Value Raw : Type} {A : Adapter Raw}
    (s s' : Engine Value A) : Prop :=
  cache s' = cache s /\ timers s' = timers s
  /\ accessOrder s' = accessOrder s /\ tagsMap s' = tagsMap s
  /\ stats s' = stats s /\ events s' = events s.
End EasyCacheRest.

(** ** Utilities (EasyCache.utils) *)

Module Utils.
Import Stdlib.Strings.Ascii.

(** A JavaScript number: an integer below 2^53, which a double holds
    exactly; NaN; or a double of 2^53 or more, which the product of two
    integers reaches only rounded and which is not determined further
    here. *)
Inductive JsNumber : Type :=
  | Num (z : Z)
  | NaN
  | Beyond.

(** [\d] *)
Definition isDigit (c : ascii) : bool :=
  let n := nat_of_ascii c in (48 <=? n)%nat && (n <=? 57)%nat.

(** [[a-z]] under the flag [i]: the ASCII letters. *)
Definition isLetter (c : ascii) : bool :=
  let n := nat_of_ascii c in
  ((65 <=? n)%nat && (n <=? 90)%nat) || ((97 <=? n)%nat && (n <=? 122)%nat).

(** [toLowerCase], on a string of ASCII letters. *)
Definition lowerChar (c : ascii) : ascii :=
  let n := nat_of_ascii c in
  if (65 <=? n)%nat && (n <=? 90)%nat then ascii_of_nat (n + 32) else c.

Fixpoint toLowerCase (s : string) : string :=
  match s with
  | EmptyString => EmptyString
  | String c rest => String (lowerChar c) (toLowerCase rest)
  end.

(** The longest prefix of characters that satisfy [p], and the rest. *)
Fixpoint span (p : ascii -> bool) (s : string) : string * string :=
  match s with
  | EmptyString => (EmptyString, EmptyString)
  | String c rest =>
      if p c then
        let '(taken, others) := span p rest in (String c taken, others)
      else (EmptyString, s)
  end.

(** Every character of [s] satisfies [p]. *)
Fixpoint allChars (p : ascii -> bool) (s : string) : bool :=
  match s with
  | EmptyString => true
  | String c rest => p c && allChars p rest
  end.

(** [parseInt] on a string of decimal digits. *)
Fixpoint decimalValue (acc : Z) (digits : string) : Z :=
  match digits with
  | EmptyString => acc
  | String c rest =>
      decimalValue (10 * acc + Z.of_nat (nat_of_ascii c - 48)) rest
  end.

(** [units[unit]]: the five own properties, and [constructor], which
    the object literal inherits: a function, so truthy, and NaN as a
    factor. *)
Inductive Multiplier : Type :=
  | Factor (m : Z)
  | Inherited
  | Missing.

Definition unitOf (unit : string) : Multiplier :=
  if String.eqb unit "ms" then Factor 1
  else if String.eqb unit "s" then Factor 1000
  else if String.eqb unit "m" then Factor (60 * 1000)
  else if String.eqb unit "h" then Factor (60 * 60 * 1000)
  else if String.eqb unit "d" then Factor (24 * 60 * 60 * 1000)
  else if String.eqb unit "constructor" then Inherited
  else Missing.

(** [parseInt(value) * multiplier]: exact while the product is below
    2^53 (the factor is at least 1, so the number read is below 2^53
    too). *)
Definition times (value multiplier : Z) : JsNumber :=
  if value * multiplier <? 2 ^ 53 then Num (value * multiplier) else Beyond.

(** [parseTime(timeStr)]: [/^(\d+)([a-z]+)$/i], then the unit table. *)
Definition parseTime (timeStr : string) : Result JsNumber :=
  let '(value, rest) := span isDigit timeStr in
  let '(unit, tail) := span isLetter rest in
  match value, unit, tail with
  | String _ _, String _ _, EmptyString =>
      match unitOf (toLowerCase unit) with
      | Factor m => Ok (times (decimalValue 0 value) m)
      | Inherited => Ok NaN
      | Missing => Throw "Invalid time unit"
      end
  | _, _, _ => Throw "Invalid time format"
  end.

(** [formatBytes(bytes)], for a byte count that is a non-negative
    integer up to [Number.MAX_SAFE_INTEGER].  On doubles the division by
    1024 is exact and [toFixed(2)] rounds the exact value to the nearest
    hundredth, a tie upwards: the numbers are rationals here.  Beyond
    that range a count need not be a double and [toFixed] may change
    notation; [formatBytes] answers [None] there, for "not covered". *)
Definition units : list string := ["B"; "KB"; "MB"; "GB"]%string.

(** [while (bytes >= 1024 && i < units.length - 1) { bytes /= 1024; i++ }]:
    the guard on [i] ends the loop after three rounds at most. *)
Fixpoint scale (rounds : nat) (bytes : Q) (i : nat) : Q * nat :=
  match rounds with
  | O => (bytes, i)
  | S rounds' =>
      if Qle_bool 1024 bytes && (i <? length units - 1)%nat
      then scale rounds' (bytes / 1024) (S i)
      else (bytes, i)
  end.

(** The hundredths that [toFixed(2)] prints for a non-negative [x]. *)
Definition hundredths (x : Q) : Z := Qfloor (x * 100 + (1 # 2)).

(** The digits of [n] hundredths: the integer part, a point, two
    decimals. *)
Definition fixed2 (n : Z) : string :=
  pretty (n / 100) +:+ "." +:+ pretty (n mod 100 / 10) +:+ pretty (n mod 10).

Definition formatBytes (bytes : N) : option string :=
  if (bytes <? 2 ^ 53)%N then
    let '(x, i) := scale 3 (inject_Z (Z.of_N bytes)) 0 in
    Some (fixed2 (hundredths x) +:+ " " +:+ nth i units EmptyString)
  else None.

End Utils.

(** A backend whose deletions fail: a [MemoryAdapter] whose [delete]
    throws, as a file that cannot be removed makes it. *)
Module StuckAdapter.
Definition adapter (Raw : Type) : Adapter Raw :=
  {| Store := gmap string (option Raw);
     ad_get := MemoryAdapter.get;
     ad_set := MemoryAdapter.set;
     ad_delete := fun _ store => (Throw "EBUSY", store);
     ad_has := MemoryAdapter.has;
     ad_clear := MemoryAdapter.clear |}.
End StuckAdapter.

(** Further configurations used in the examples. *)
Module DemoRest.
Import EasyCache EasyCacheRest Demo.

(** [new EasyCache({ maxSize, enableStats: false })] *)
Definition silent (maxSize : Z) : Options Json.value string :=
  {| EasyCache.maxSize := maxSize;
     EasyCache.defaultTTL := 0;
     EasyCache.slidingTTL := false;
     enableStats := false;
     serialize := Json.stringify;
     deserialize := Json.parse;
     maxEntriesPerTag := fun _ => None |}.

(** [new EasyCache({ maxSize: 10, maxEntriesPerTag: { t: 2 } })] *)
Definition limited : Options Json.value string :=
  {| EasyCache.maxSize := 10;
     EasyCache.defaultTTL := 0;
     EasyCache.slidingTTL := false;
     enableStats := true;
     serialize := Json.stringify;
     deserialize := Json.parse;
     maxEntriesPerTag :=
       fun tag => if String.eqb tag "t" then Some 2 else None |}.

(** Two tagged writes: a under t and u, b under t. *)
Definition tagged : Engine Json.value memory :=
  snd (set memory (options 10 0 false) "b" no None ["t"%string] None
         20 20 20
         (snd (set memory (options 10 0 false) "a" yes None
                 ["t"%string; "u"%string] None 10 10 10 fresh))).

(** An entry written at time 10 with a TTL of 100. *)
Definition timed : Engine Json.value memory :=
  snd (set memory (options 10 0 false) "k" yes (Some 100) [] None
         10 10 10 fresh).

(** The entries of [{ a: true, b: false, c: true }], all written at
    time 10. *)
Definition batch : list (Entry Json.value) :=
  [ {| en_key := "a"; en_value := yes;
       en_nowExpiry := 10; en_nowCreated := 10; en_nowAccess := 10 |};
    {| en_key := "b"; en_value := no;
       en_nowExpiry := 10; en_nowCreated := 10; en_nowAccess := 10 |};
    {| en_key := "c"; en_value := yes;
       en_nowExpiry := 10; en_nowCreated := 10; en_nowAccess := 10 |} ].

Definition stuck : Adapter string := StuckAdapter.adapter string.

(** A fresh engine over a backend whose deletions fail. *)
Definition freshStuck : Engine Json.value stuck :=
  create Json.value stuck (∅ : gmap string (option string)).

(** Two writes into a cache of capacity 1. *)
Definition crowded : list (Call Json.value) :=
  [ CallSet "a" yes None [] None 10 10 10;
    CallSet "b" no None [] None 20 20 20;
    CallGet "b" 30 30 30 ].
End DemoRest.

(** * Properties *)

Import EasyCache.

(** ** Insertion-ordered maps *)

Section JsMapFacts.
Context {V : Type}.
Implicit Types (m : list (string * V)) (k : string) (v : V).

Lemma JsMap_get_set k' k v m :
  JsMap.get k' (JsMap.set k v m)
  = if String.eqb k' k then Some v else JsMap.get k' m.
Proof.
  induction m as [|[k0 v0] m IH]; simpl.
  - by destruct (String.eqb_spec k' k).
  - destruct (String.eqb_spec k k0) as [->|Hne]; simpl.
    + by destruct (String.eqb_spec k' k0).
    + destruct (String.eqb_spec k' k0) as [->|Hne']; [|exact IH].
      destruct (String.eqb_spec k0 k); [congruence|done].
Qed.

Lemma JsMap_get_delete k' k m :
  JsMap.get k' (JsMap.delete k m)
  = if String.eqb k' k then None else JsMap.get k' m.
Proof.
  induction m as [|[k0 v0] m IH]; simpl.
  - by destruct (String.eqb k' k).
  - destruct (String.eqb_spec k k0) as [->|Hne]; simpl.
    + rewrite IH. by destruct (String.eqb_spec k' k0).
    + destruct (String.eqb_spec k' k0) as [->|Hne']; [|exact IH].
      destruct (String.eqb_spec k0 k); [congruence|done].
Qed.

Lemma JsMap_In_get k v m : In (k, v) m -> is_Some (JsMap.get k m).
Proof.
  induction m as [|[k0 v0] m IH]; simpl; [done|].
  intros [[= -> ->]|Hin].
  - rewrite String.eqb_refl. eauto.
  - destruct (String.eqb k k0); eauto.
Qed.

End JsMapFacts.

Section Properties.
Context {Value Raw : Type} (A : Adapter Raw) (opts : Options Value Raw).

Implicit Types (s : Engine Value A) (key tag : string).

(** ** delete *)

Lemma delete_returns_this key s : fst (delete A opts key s) = RThis.
Proof.
  unfold delete. destruct (deleteBegin A key s) as [[pd|] s1]; [|done].
  by destruct (deleteStorage A pd s1).
Qed.

(** A [delete] of a key without metadata changes nothing and notifies
    nobody. *)
Lemma delete_absent key s :
  cache s !! key = None -> delete A opts key s = (RThis, s).
Proof. intros H. unfold delete, deleteBegin. by rewrite H. Qed.

Lemma countIfEnabled_cache f s : cache (countIfEnabled A opts f s) = cache s.
Proof. unfold countIfEnabled. by destruct (enableStats opts). Qed.

Lemma countIfEnabled_timers f s : timers (countIfEnabled A opts f s) = timers s.
Proof. unfold countIfEnabled. by destruct (enableStats opts). Qed.

Lemma countIfEnabled_accessOrder f s :
  accessOrder (countIfEnabled A opts f s) = accessOrder s.
Proof. unfold countIfEnabled. by destruct (enableStats opts). Qed.

Lemma countIfEnabled_storage f s :
  storage (countIfEnabled A opts f s) = storage s.
Proof. unfold countIfEnabled. by destruct (enableStats opts). Qed.

Lemma countIfEnabled_events f s : events (countIfEnabled A opts f s) = events s.
Proof. unfold countIfEnabled. by destruct (enableStats opts). Qed.

(** What [delete] does to the metadata and to the timer of any key: it
    leaves them or removes them. *)
Lemma deleteFinish_cache pd r s k :
  cache (deleteFinish A opts pd r s) !! k = cache s !! k
  \/ cache (deleteFinish A opts pd r s) !! k = None.
Proof.
  destruct r as [b|e]; simpl; [|by left].
  rewrite countIfEnabled_cache. simpl.
  destruct (decide (pd_key pd = k)) as [->|Hne].
  - right. apply lookup_delete_eq.
  - left. by apply lookup_delete_ne.
Qed.

Lemma deleteFinish_timers pd r s k :
  timers (deleteFinish A opts pd r s) !! k = timers s !! k
  \/ timers (deleteFinish A opts pd r s) !! k = None.
Proof.
  destruct r as [b|e]; simpl; [|by left].
  rewrite countIfEnabled_timers. simpl.
  destruct (decide (pd_key pd = k)) as [->|Hne].
  - right. apply lookup_delete_eq.
  - left. by apply lookup_delete_ne.
Qed.

(** [delete], unfolded: either the key has no metadata and nothing
    happens, or the three stages run in a row. *)
Lemma delete_cases key s :
  (cache s !! key = None /\ delete A opts key s = (RThis, s))
  \/ (exists pd r s1,
         cache s !! key = Some (pd_item pd) /\ pd_key pd = key
         /\ cache s1 = cache s /\ timers s1 = timers s
         /\ accessOrder s1 = accessOrder s /\ tagsMap s1 = tagsMap s
         /\ stats s1 = stats s /\ events s1 = events s
         /\ (exists st, r = fst (ad_delete A key st))
         /\ delete A opts key s = (RThis, deleteFinish A opts pd r s1)).
Proof.
  unfold delete, deleteBegin.
  destruct (cache s !! key) as [item|] eqn:Hc; [right|by left].
  destruct (ad_get A key (storage s)) as [r st]. unfold deleteStorage. simpl.
  destruct (ad_delete A key st) as [r' st'] eqn:Hd. simpl.
  exists {| pd_key := key; pd_item := item;
            pd_value := match r with
                        | Ok raw => payloadOfRaw raw
                        | Throw _ => PNull
                        end |},
    r', (withStorage A st' (withStorage A st s)).
  repeat split; try reflexivity.
  exists st. by rewrite Hd.
Qed.

Lemma delete_cache key s k :
  cache (snd (delete A opts key s)) !! k = cache s !! k
  \/ cache (snd (delete A opts key s)) !! k = None.
Proof.
  destruct (delete_cases key s) as [[_ ->]|(pd & r & s1 & _ & _ & Hc & _ & _ & _ & _ & _ & _ & ->)];
    [by left|].
  simpl. rewrite <- Hc. apply deleteFinish_cache.
Qed.

Lemma delete_timers key s k :
  timers (snd (delete A opts key s)) !! k = timers s !! k
  \/ timers (snd (delete A opts key s)) !! k = None.
Proof.
  destruct (delete_cases key s) as [[_ ->]|(pd & r & s1 & _ & _ & _ & Ht & _ & _ & _ & _ & _ & ->)];
    [by left|].
  simpl. rewrite <- Ht. apply deleteFinish_timers.
Qed.

Lemma tagStep_cache key s tag k :
  cache (tagStep A opts key s tag) !! k = cache s !! k
  \/ cache (tagStep A opts key s tag) !! k = None.
Proof.
  unfold tagStep.
  set (s1 := withTagsMap A _ s).
  change (cache s) with (cache s1).
  destruct (maxEntriesPerTag opts tag) as [maxEntries|]; [|by left].
  destruct (truthyZ maxEntries && _); [|by left].
  destruct (scanOldestTagged A s1 _ None None) as [victim|]; [|by left].
  destruct (truthyKey victim); [|by left].
  pose proof (delete_cache victim s1 k) as Hd.
  destruct (delete A opts victim s1) as [r s2]. simpl in *.
  by rewrite countIfEnabled_cache.
Qed.

Lemma tagStep_timers key s tag k :
  timers (tagStep A opts key s tag) !! k = timers s !! k
  \/ timers (tagStep A opts key s tag) !! k = None.
Proof.
  unfold tagStep.
  set (s1 := withTagsMap A _ s).
  change (timers s) with (timers s1).
  destruct (maxEntriesPerTag opts tag) as [maxEntries|]; [|by left].
  destruct (truthyZ maxEntries && _); [|by left].
  destruct (scanOldestTagged A s1 _ None None) as [victim|]; [|by left].
  destruct (truthyKey victim); [|by left].
  pose proof (delete_timers victim s1 k) as Hd.
  destruct (delete A opts victim s1) as [r s2]. simpl in *.
  by rewrite countIfEnabled_timers.
Qed.

Lemma tagLoop_cache key itemTags s k :
  cache (fold_left (tagStep A opts key) itemTags s) !! k = cache s !! k
  \/ cache (fold_left (tagStep A opts key) itemTags s) !! k = None.
Proof.
  revert s. induction itemTags as [|tag rest IH]; intros s; simpl; [by left|].
  destruct (IH (tagStep A opts key s tag)) as [H|H]; [|by right].
  rewrite H. apply tagStep_cache.
Qed.

Lemma tagLoop_timers key itemTags s k :
  timers (fold_left (tagStep A opts key) itemTags s) !! k = timers s !! k
  \/ timers (fold_left (tagStep A opts key) itemTags s) !! k = None.
Proof.
  revert s. induction itemTags as [|tag rest IH]; intros s; simpl; [by left|].
  destruct (IH (tagStep A opts key s tag)) as [H|H]; [|by right].
  rewrite H. apply tagStep_timers.
Qed.

(** ** set *)

(** A [set] whose condition passes, whose value serializes and whose
    backend write returns gets to write metadata: it ends in [setCommit],
    entered without a timer for the key. *)
Lemma set_commits key value ttl itemTags condition tE tC tA s raw :
  match condition with Some c => c key value = Ok true | None => True end ->
  serialize opts value = Ok raw ->
  (forall k r st, exists b st', ad_set A k r st = (Ok b, st')) ->
  exists s0,
    timers s0 !! key = None
    /\ set A opts key value ttl itemTags condition tE tC tA s
       = (RThis,
          setCommit A opts key value itemTags (effectiveTTLOf opts ttl)
            (expiresAtOf (effectiveTTLOf opts ttl) tE) tC tA s0).
Proof.
  intros Hc Hs Ha. unfold set, setWrite.
  assert (match condition with Some c => c key value | None => Ok true end
          = Ok true) as -> by (destruct condition; done).
  destruct (if _ && _ then _ else _) as [pd s1].
  destruct (pendingStorage A pd s1) as [pr s2].
  rewrite Hs.
  destruct (Ha key raw (storage (withTimers A (base.delete key) s2)))
    as (b & st' & ->).
  eexists. split; [|reflexivity].
  destruct pr as [[p r]|]; simpl; [|apply lookup_delete_eq].
  destruct (deleteFinish_timers p r
              (withStorage A st' (withTimers A (base.delete key) s2)) key)
    as [->| ->]; [apply lookup_delete_eq|done].
Qed.

Lemma setCommit_expiry key value itemTags eff expiry tC tA s :
  let s' := setCommit A opts key value itemTags eff expiry tC tA s in
  (forall item, cache s' !! key = Some item -> expiresAt item = expiry)
  /\ (0 < eff -> (delay <$> timers s' !! key) = Some eff)
  /\ (eff <= 0 -> timers s !! key = None -> timers s' !! key = None)
  /\ (itemTags = [] -> is_Some (cache s' !! key)).
Proof.
  unfold setCommit.
  set (cacheItem := {| createdAt := tC; expiresAt := expiry;
                       accessCount := 0; tags := itemTags |}).
  set (s1 := withAccessOrder A _ (withCache A _ s)).
  set (s2 := fold_left _ itemTags s1).
  set (s3 := if eff >? 0 then _ else s2).
  assert (cache s1 !! key = Some cacheItem) as H1 by apply lookup_insert_eq.
  assert (timers s1 = timers s) as Ht1 by done.
  assert (cache s3 = cache s2) as Hc3 by (subst s3; by destruct (eff >? 0)).
  cbv zeta. change (cache (emit A ?e ?x)) with (cache x).
  change (timers (emit A ?e ?x)) with (timers x).
  rewrite countIfEnabled_cache, countIfEnabled_timers, Hc3.
  split; [|split; [|split]].
  - intros item.
    destruct (tagLoop_cache key itemTags s1 key) as [Hq|Hq];
      fold s2 in Hq; rewrite Hq; [|done].
    rewrite H1. by intros [= <-].
  - intros Hpos. subst s3.
    destruct (Z.gtb_spec eff 0); [|lia]. simpl. by rewrite lookup_insert_eq.
  - intros Hle Hnone. subst s3.
    destruct (Z.gtb_spec eff 0); [lia|].
    destruct (tagLoop_timers key itemTags s1 key) as [Hq|Hq];
      fold s2 in Hq; rewrite Hq; [|done].
    by rewrite Ht1.
  - intros Hnil.
    assert (s2 = s1) as -> by (subst s2; by rewrite Hnil).
    rewrite H1. eauto.
Qed.

(** ** What a write that goes through leaves under its key *)

Lemma tagLoop_nolimit_cache key itemTags s :
  (forall tag, In tag itemTags -> maxEntriesPerTag opts tag = None) ->
  cache (fold_left (tagStep A opts key) itemTags s) = cache s.
Proof.
  revert s. induction itemTags as [|tag rest IH]; intros s Hno; [done|].
  simpl. rewrite IH; [|intros t Ht; apply Hno; by right].
  unfold tagStep. by rewrite (Hno tag (or_introl eq_refl)).
Qed.

Lemma set_inserts key value ttl itemTags condition tE tC tA s raw :
  match condition with Some c => c key value = Ok true | None => True end ->
  serialize opts value = Ok raw ->
  (forall k r st, exists b st', ad_set A k r st = (Ok b, st')) ->
  (forall tag, In tag itemTags -> maxEntriesPerTag opts tag = None) ->
  cache (snd (set A opts key value ttl itemTags condition tE tC tA s)) !! key
  = Some {| createdAt := tC;
            expiresAt := expiresAtOf (effectiveTTLOf opts ttl) tE;
            accessCount := 0; tags := itemTags |}.
Proof.
  intros Hc Hs Ha Hno.
  destruct (set_commits key value ttl itemTags condition tE tC tA s raw
              Hc Hs Ha) as (s0 & _ & ->).
  cbn [snd]. unfold setCommit.
  change (cache (emit A ?e ?x)) with (cache x).
  rewrite countIfEnabled_cache.
  destruct (effectiveTTLOf opts ttl >? 0);
    cbn [cache withTimers]; rewrite tagLoop_nolimit_cache by done;
    apply lookup_insert_eq.
Qed.


(** What [set] answers depends on its condition alone: false when the
    condition is false, the engine itself otherwise, whether or not the
    backend write went through. *)
Lemma set_result key value ttl itemTags condition tE tC tA s :
  fst (set A opts key value ttl itemTags condition tE tC tA s)
  = match (match condition with
           | Some c => c key value
           | None => Ok true
           end) with
    | Ok false => RBool false
    | _ => RThis
    end.
Proof.
  unfold set, setWrite.
  destruct (match condition with Some c => c key value | None => Ok true end)
    as [[|]|e]; [|done|done].
  destruct (if _ && _ then _ else _) as [pd s1].
  destruct (pendingStorage A pd s1) as [pr s2].
  destruct (serialize opts value) as [raw|e]; [|done].
  destruct (ad_set A key raw _) as [r st]. by destruct r.
Qed.

(** ** Sliding renewal *)

(** On a hit with [slidingTTL], the entry is renewed for its expiry time
    minus its creation time, and the timer is armed for that long. *)
Lemma getHit_sliding key item value t2 t3 s e :
  slidingTTL opts = true -> expiresAt item = Some e -> e <> 0 ->
  let s' := getHit A opts key item value t2 t3 s in
  cache s' !! key
  = Some {| createdAt := createdAt item;
            expiresAt := Some (t3 + (e - createdAt item));
            accessCount := accessCount item + 1;
            tags := tags item |}
  /\ (delay <$> timers s' !! key) = Some (e - createdAt item).
Proof.
  intros Hs He Hnz. cbv zeta. unfold getHit. rewrite He, Hs.
  assert (truthyZ e = true) as ->
    by (unfold truthyZ; by destruct (Z.eqb_spec e 0)).
  cbn [andb]. change (cache (emit A ?ev ?x)) with (cache x).
  change (timers (emit A ?ev ?x)) with (timers x).
  rewrite countIfEnabled_cache, countIfEnabled_timers. simpl.
  by rewrite !lookup_insert_eq.
Qed.

(** ** set with a condition *)

(** C8: a [set] whose condition is a function that returns false on
    (key, value) returns false and leaves the whole engine state as it
    was: metadata, access order, tag index, timers, storage, statistics
    and the event log. *)
Theorem set_condition_false_noop key value ttl itemTags c tE tC tA s :
  c key value = Ok false ->
  set A opts key value ttl itemTags (Some c) tE tC tA s = (RBool false, s).
Proof. intros H. unfold set. by rewrite H. Qed.

(** ** The victim of _evictLRU *)

(** The scan, entered with a candidate: it keeps the candidate when no
    later entry is strictly older, and otherwise ends on the first of the
    oldest later entries. *)
Lemma scanOldest_candidate (entries : list (string * Z)) k0 t0 :
  (scanOldest entries (Some k0) (Some t0) = Some k0
   /\ forall k t, In (k, t) entries -> t0 <= t)
  \/ (exists before k time after,
        entries = before ++ (k, time) :: after
        /\ scanOldest entries (Some k0) (Some t0) = Some k
        /\ time < t0
        /\ (forall k' t', In (k', t') before -> time < t')
        /\ (forall k' t', In (k', t') after -> time <= t')).
Proof.
  revert k0 t0. induction entries as [|[k t] rest IH]; intros k0 t0.
  - left. split; [done|]. intros k t [].
  - simpl. destruct (Z.ltb_spec t t0) as [Hlt|Hge].
    + right. destruct (IH k t)
        as [[Hres Hall]|(before & k' & time & after & -> & Hres & Hlt' & Hb & Ha)].
      * exists [], k, t, rest.
        split; [done|]. split; [done|]. split; [done|]. split; [|done].
        intros k' t' [].
      * exists ((k, t) :: before), k', time, after.
        split; [done|]. split; [done|]. split; [lia|]. split; [|done].
        intros k1 t1 [[= -> ->]|Hin]; [done|by eapply Hb].
    + destruct (IH k0 t0)
        as [[Hres Hall]|(before & k' & time & after & -> & Hres & Hlt' & Hb & Ha)].
      * left. split; [done|].
        intros k1 t1 [[= -> ->]|Hin]; [done|by eapply Hall].
      * right. exists ((k, t) :: before), k', time, after.
        split; [done|]. split; [done|]. split; [done|]. split; [|done].
        intros k1 t1 [[= -> ->]|Hin]; [lia|by eapply Hb].
Qed.

Lemma scanOldest_victim (entries : list (string * Z)) :
  entries <> [] ->
  exists victim,
    scanOldest entries None None = Some victim /\ LruVictim entries victim.
Proof.
  destruct entries as [|[k t] rest]; [done|]. intros _. simpl.
  destruct (scanOldest_candidate rest k t)
    as [[Hres Hall]|(before & k' & time & after & -> & Hres & Hlt & Hb & Ha)].
  - exists k. split; [done|]. exists [], t, rest.
    split; [done|]. split; [|done]. intros k' t' [].
  - exists k'. split; [done|]. exists ((k, t) :: before), time, after.
    split; [done|]. split; [|done].
    intros k1 t1 [[= -> ->]|Hin]; [done|by eapply Hb].
Qed.

Lemma LruVictim_In entries victim :
  LruVictim entries victim -> exists t, In (victim, t) entries.
Proof.
  intros (before & time & after & -> & _). exists time.
  apply in_or_app. right. by left.
Qed.

(** ** States reached by deletions *)

Lemma capacityEvictions_app (l1 l2 : list (Event Value Raw)) :
  capacityEvictions (l1 ++ l2)
  = (capacityEvictions l1 + capacityEvictions l2)%nat.
Proof. unfold capacityEvictions. by rewrite filter_app, length_app. Qed.

Lemma AccessOrderInv_ext s s' :
  cache s' = cache s -> accessOrder s' = accessOrder s ->
  AccessOrderInv s -> AccessOrderInv s'.
Proof. unfold AccessOrderInv. by intros -> ->. Qed.

Lemma AccessOrderOk_empty : AccessOrderOk ∅ [].
Proof.
  split; [|apply lookup_empty]. intros k. simpl. rewrite lookup_empty.
  split; intros []; done.
Qed.

Lemma AccessOrderOk_delete metadata order k :
  AccessOrderOk metadata order ->
  AccessOrderOk (base.delete k metadata) (JsMap.delete k order).
Proof.
  intros [Hiff Hempty]. split.
  - intros k'. rewrite JsMap_get_delete.
    destruct (String.eqb_spec k' k) as [->|Hne].
    + rewrite lookup_delete_eq. split; intros []; done.
    + rewrite lookup_delete_ne by done. apply Hiff.
  - destruct (decide (k = EmptyString)) as [->|Hne].
    + apply lookup_delete_eq.
    + by rewrite lookup_delete_ne.
Qed.

Lemma AccessOrderOk_insert metadata order k item t :
  k <> EmptyString ->
  AccessOrderOk metadata order ->
  AccessOrderOk (<[k := item]> metadata) (JsMap.set k t order).
Proof.
  intros Hk [Hiff Hempty]. split.
  - intros k'. rewrite JsMap_get_set.
    destruct (String.eqb_spec k' k) as [->|Hne].
    + rewrite lookup_insert_eq. split; eauto.
    + rewrite lookup_insert_ne by done. apply Hiff.
  - by rewrite lookup_insert_ne.
Qed.

Lemma AccessOrderInv_delete s s' k :
  cache s' = base.delete k (cache s) ->
  accessOrder s' = JsMap.delete k (accessOrder s) ->
  AccessOrderInv s -> AccessOrderInv s'.
Proof.
  unfold AccessOrderInv. intros -> ->. apply AccessOrderOk_delete.
Qed.

Lemma Shrunk_refl s : Shrunk s s.
Proof.
  split; [done|]. split; [done|]. exists []. by rewrite app_nil_r.
Qed.

Lemma Shrunk_trans s1 s2 s3 : Shrunk s1 s2 -> Shrunk s2 s3 -> Shrunk s1 s3.
Proof.
  intros (Hc1 & Hi1 & a1 & He1 & Hn1) (Hc2 & Hi2 & a2 & He2 & Hn2).
  split; [by etrans|]. split; [auto|].
  exists (a1 ++ a2). rewrite He2, He1, <- app_assoc. split; [done|].
  rewrite capacityEvictions_app. lia.
Qed.

Lemma Shrunk_same s s' :
  cache s' = cache s -> accessOrder s' = accessOrder s ->
  events s' = events s -> Shrunk s s'.
Proof.
  intros Hc Ha He. split; [by rewrite Hc|].
  split; [by apply AccessOrderInv_ext|].
  exists []. by rewrite app_nil_r.
Qed.

Lemma Shrunk_size s s' :
  Shrunk s s' -> Z.of_nat (size (cache s')) <= Z.of_nat (size (cache s)).
Proof. intros [Hc _]. apply Nat2Z.inj_le. by apply map_subseteq_size. Qed.

Lemma Shrunk_countIfEnabled f s : Shrunk s (countIfEnabled A opts f s).
Proof.
  apply Shrunk_same;
    [apply countIfEnabled_cache|apply countIfEnabled_accessOrder
    |apply countIfEnabled_events].
Qed.

(** The fields of the state that a successful storage deletion lets
    [delete] reach. *)
Lemma deleteFinish_ok pd b s :
  let s' := deleteFinish A opts pd (Ok b) s in
  cache s' = base.delete (pd_key pd) (cache s)
  /\ accessOrder s' = JsMap.delete (pd_key pd) (accessOrder s)
  /\ events s' = events s ++ [EvDelete (pd_key pd) (pd_value pd)]
  /\ storage s' = storage s.
Proof.
  unfold deleteFinish, emit. cbn [cache accessOrder events storage].
  rewrite countIfEnabled_cache, countIfEnabled_accessOrder,
    countIfEnabled_events, countIfEnabled_storage.
  done.
Qed.

Lemma Shrunk_emit e s :
  isCapacityEviction e = false -> Shrunk s (emit A e s).
Proof.
  intros He. split; [done|]. split; [done|]. exists [e]. split; [done|].
  unfold capacityEvictions. rewrite filter_cons.
  case_decide; [congruence|done].
Qed.

Lemma Shrunk_deleteFinish pd r s : Shrunk s (deleteFinish A opts pd r s).
Proof.
  destruct r as [b|e].
  - destruct (deleteFinish_ok pd b s) as (Hc & Ha & He & _).
    split; [|split].
    + rewrite Hc. apply delete_subseteq.
    + by apply (AccessOrderInv_delete _ _ (pd_key pd)).
    + eexists. split; [exact He|done].
  - by apply Shrunk_emit.
Qed.

Lemma Shrunk_delete key s : Shrunk s (snd (delete A opts key s)).
Proof.
  destruct (delete_cases key s)
    as [[_ ->]|(pd & r & s1 & _ & _ & Hc & _ & Ha & _ & _ & He & _ & ->)].
  - apply Shrunk_refl.
  - simpl. eapply Shrunk_trans; [by apply Shrunk_same|].
    apply Shrunk_deleteFinish.
Qed.

Lemma Shrunk_tagStep key s tag : Shrunk s (tagStep A opts key s tag).
Proof.
  unfold tagStep. set (s1 := withTagsMap A _ s).
  assert (Shrunk s s1) as H1 by by apply Shrunk_same.
  destruct (maxEntriesPerTag opts tag) as [maxEntries|]; [|done].
  destruct (truthyZ maxEntries && _); [|done].
  destruct (scanOldestTagged A s1 _ None None) as [victim|]; [|done].
  destruct (truthyKey victim); [|done].
  pose proof (Shrunk_delete victim s1) as Hd.
  destruct (delete A opts victim s1) as [r s2]. simpl in Hd.
  eapply Shrunk_trans; [exact H1|]. eapply Shrunk_trans; [exact Hd|].
  eapply Shrunk_trans; [apply (Shrunk_countIfEnabled incEvictions)|].
  by apply Shrunk_emit.
Qed.

Lemma Shrunk_tagLoop key itemTags s :
  Shrunk s (fold_left (tagStep A opts key) itemTags s).
Proof.
  revert s. induction itemTags as [|tag rest IH]; intros s; simpl.
  - apply Shrunk_refl.
  - eapply Shrunk_trans; [apply Shrunk_tagStep|apply IH].
Qed.

(** ** Capacity *)

(** What [setCommit] leaves: the new entry on top of the metadata it
    found, less whatever the per-tag limits removed. *)
Lemma setCommit_spec key value itemTags eff expiry tC tA s :
  let item := {| createdAt := tC; expiresAt := expiry;
                 accessCount := 0; tags := itemTags |} in
  let s' := setCommit A opts key value itemTags eff expiry tC tA s in
  cache s' ⊆ <[key := item]> (cache s)
  /\ (key <> EmptyString -> AccessOrderInv s -> AccessOrderInv s')
  /\ exists added,
       events s' = events s ++ added /\ capacityEvictions added = 0%nat.
Proof.
  cbv zeta. unfold setCommit.
  set (item := {| createdAt := tC; expiresAt := expiry;
                  accessCount := 0; tags := itemTags |}).
  set (s1 := withAccessOrder A _ (withCache A _ s)).
  set (s2 := fold_left _ itemTags s1).
  set (s3 := if eff >? 0 then _ else s2).
  assert (Shrunk s1 s2) as H12 by apply Shrunk_tagLoop.
  assert (Shrunk s2 s3) as H23
    by (subst s3; destruct (eff >? 0); [by apply Shrunk_same|apply Shrunk_refl]).
  assert (Shrunk s1 (emit A (EvSet key (payloadOfValue value))
                       (countIfEnabled A opts incSets s3)))
    as (Hc & Hi & added & He & Hn).
  { eapply Shrunk_trans; [exact H12|]. eapply Shrunk_trans; [exact H23|].
    eapply Shrunk_trans; [apply (Shrunk_countIfEnabled incSets)|].
    by apply Shrunk_emit. }
  split; [exact Hc|]. split; [|by exists added].
  intros Hk Hinv. apply Hi. unfold AccessOrderInv. simpl.
  by apply AccessOrderOk_insert.
Qed.

Lemma pendingFinish_spec pr s :
  let s' := pendingFinish A opts pr s in
  cache s' = cacheAfter pr (cache s)
  /\ accessOrder s' = orderAfter pr (accessOrder s)
  /\ exists added,
       events s' = events s ++ added /\ capacityEvictions added = 0%nat.
Proof.
  destruct pr as [[pd [b|e]]|]; cbv zeta; simpl.
  - destruct (deleteFinish_ok pd b s) as (Hc & Ha & He & _).
    split; [exact Hc|]. split; [exact Ha|]. eexists. split; [exact He|done].
  - split; [done|]. split; [done|]. by exists [EvError e].
  - split; [done|]. split; [done|]. exists []. by rewrite app_nil_r.
Qed.

Lemma AccessOrderOk_after
    (pr : option (PendingDelete Value Raw * Result bool)) metadata order :
  AccessOrderOk metadata order ->
  AccessOrderOk (cacheAfter pr metadata) (orderAfter pr order).
Proof.
  destruct pr as [[pd [b|e]]|]; simpl; [apply AccessOrderOk_delete|done..].
Qed.

Lemma setWrite_spec key value itemTags eff expiry tC tA pr s :
  let s' := snd (setWrite A opts key value itemTags eff expiry tC tA pr s) in
  let metadata := cacheAfter pr (cache s) in
  (Z.of_nat (size (cache s'))
   <= Z.of_nat (size (<[key := {| createdAt := tC; expiresAt := expiry;
                                  accessCount := 0; tags := itemTags |}]>
                        metadata)))
  /\ (forall k, k <> key -> metadata !! k = None -> cache s' !! k = None)
  /\ (key <> EmptyString -> AccessOrderInv s -> AccessOrderInv s')
  /\ exists added,
       events s' = events s ++ added /\ capacityEvictions added = 0%nat.
Proof.
  cbv zeta. unfold setWrite.
  set (item := {| createdAt := tC; expiresAt := expiry;
                  accessCount := 0; tags := itemTags |}).
  assert (forall m : gmap string CacheItem,
             Z.of_nat (size m) <= Z.of_nat (size (<[key := item]> m)))
    as Hgrow.
  { intros m. rewrite map_size_insert. destruct (m !! key); simpl; lia. }
  destruct (serialize opts value) as [raw|e].
  - destruct (ad_set A key raw (storage s)) as [r st].
    set (s1 := withStorage A st s).
    destruct (pendingFinish_spec pr s1) as (Hc & Ha & added1 & He & Hn).
    cbv zeta in Hc, Ha, He.
    set (s2 := pendingFinish A opts pr s1) in *.
    change (cache s1) with (cache s) in Hc.
    change (accessOrder s1) with (accessOrder s) in Ha.
    change (events s1) with (events s) in He.
    assert (AccessOrderInv s -> AccessOrderInv s2) as Hinv2.
    { unfold AccessOrderInv. rewrite Hc, Ha. apply AccessOrderOk_after. }
    destruct r as [b|e]; cbn [snd].
    + destruct (setCommit_spec key value itemTags eff expiry tC tA s2)
        as (Hsub & Hinv & added2 & He2 & Hn2).
      cbv zeta in Hsub, Hinv, He2. fold item in Hsub. rewrite Hc in Hsub.
      split; [|split; [|split]].
      * apply Nat2Z.inj_le. by apply map_subseteq_size.
      * intros k Hk Hnone.
        destruct (cache (setCommit A opts key value itemTags eff expiry tC tA s2) !! k)
          as [x|] eqn:Hx; [|done].
        apply (lookup_weaken _ _ _ _ Hx) in Hsub.
        rewrite lookup_insert_ne in Hsub by done. congruence.
      * auto.
      * exists (added1 ++ added2). rewrite He2, He, <- app_assoc.
        split; [done|]. rewrite capacityEvictions_app. lia.
    + change (cache (emit A ?e ?x)) with (cache x).
      split; [|split; [|split]].
      * rewrite Hc. apply Hgrow.
      * intros k _ Hnone. by rewrite Hc.
      * intros _ Hi. by apply Hinv2.
      * exists (added1 ++ [EvError e]).
        change (events (emit A ?e ?x)) with (events x ++ [e]).
        rewrite He, <- app_assoc. split; [done|].
        rewrite capacityEvictions_app. by rewrite Hn.
  - cbn [snd]. set (s1 := emit A (EvError e) s).
    destruct (pendingFinish_spec pr s1) as (Hc & Ha & added1 & He & Hn).
    cbv zeta in Hc, Ha, He.
    change (cache s1) with (cache s) in Hc.
    change (accessOrder s1) with (accessOrder s) in Ha.
    change (events s1) with (events s ++ [EvError e]) in He.
    split; [|split; [|split]].
    + rewrite Hc. apply Hgrow.
    + intros k _ Hnone. by rewrite Hc.
    + intros _ Hi. unfold AccessOrderInv. rewrite Hc, Ha.
      by apply AccessOrderOk_after.
    + exists ([EvError e] ++ added1). rewrite He, <- app_assoc.
      split; [done|]. by rewrite capacityEvictions_app, Hn.
Qed.

(** On a non-empty cache whose access order matches its metadata,
    [_evictLRU] picks the least recently used key, announces its eviction
    and leaves its [delete] started. *)
Lemma evict_begins s :
  AccessOrderInv s -> (exists k, is_Some (cache s !! k)) ->
  exists victim item v s1,
    LruVictim (accessOrder s) victim
    /\ cache s !! victim = Some item
    /\ _evictLRU A s
       = (Some {| pd_key := victim; pd_item := item; pd_value := v |}, s1)
    /\ cache s1 = cache s /\ accessOrder s1 = accessOrder s
    /\ events s1 = events s ++ [EvEvicted victim PUndefined].
Proof.
  intros [Hiff Hempty] [k Hk].
  assert (accessOrder s <> []) as Hne.
  { intros Hnil. apply Hiff in Hk. rewrite Hnil in Hk. by destruct Hk. }
  destruct (scanOldest_victim (accessOrder s) Hne) as (victim & Hscan & Hv).
  destruct (LruVictim_In _ _ Hv) as [t Hin].
  apply JsMap_In_get, Hiff in Hin. destruct Hin as [item Hitem].
  assert (truthyKey victim = true) as Htruthy.
  { unfold truthyKey. destruct (String.eqb_spec victim EmptyString); [|done].
    subst victim. congruence. }
  unfold _evictLRU, JsMap.size.
  destruct (Z.eqb_spec (Z.of_nat (length (accessOrder s))) 0) as [Hz|_].
  { destruct (accessOrder s); [done|simpl in Hz; lia]. }
  rewrite Hscan, Htruthy. unfold deleteBegin. rewrite Hitem.
  destruct (ad_get A victim (storage s)) as [r st].
  by eexists victim, item, _, _.
Qed.

(** One [set] at or below capacity. *)
Lemma set_capacity key value ttl itemTags condition tE tC tA s :
  1 <= maxSize opts ->
  (forall k st, exists b st', ad_delete A k st = (Ok b, st')) ->
  AccessOrderInv s -> key <> EmptyString ->
  Z.of_nat (size (cache s)) <= maxSize opts ->
  let s' := snd (set A opts key value ttl itemTags condition tE tC tA s) in
  (Z.of_nat (size (cache s')) <= maxSize opts /\ AccessOrderInv s')
  /\ (cache s !! key = None -> Z.of_nat (size (cache s)) = maxSize opts ->
      match condition with Some c => c key value = Ok true | None => True end ->
      exists victim added,
        LruVictim (accessOrder s) victim
        /\ events s' = events s ++ EvEvicted victim PUndefined :: added
        /\ capacityEvictions added = 0%nat
        /\ cache s' !! victim = None)
  /\ (is_Some (cache s !! key) \/ Z.of_nat (size (cache s)) < maxSize opts ->
      exists added,
        events s' = events s ++ added /\ capacityEvictions added = 0%nat).
Proof.
  intros Hm Hrel Hinv Hkey Hsize. cbv zeta. unfold set.
  destruct (match condition with Some c => c key value | None => Ok true end)
    as [[|]|e] eqn:Hcond.
  - (* the condition passes *)
    set (s0 := match cache s !! key with Some _ => _ | None => s end).
    assert (cache s0 = cache s) as Hc0
      by (subst s0; by destruct (cache s !! key)).
    assert (accessOrder s0 = accessOrder s) as Ha0
      by (subst s0; by destruct (cache s !! key)).
    assert (events s0 = events s) as He0
      by (subst s0; by destruct (cache s !! key)).
    assert (AccessOrderInv s0) as Hinv0 by by apply (AccessOrderInv_ext s).
    rewrite Hc0.
    destruct ((Z.of_nat (size (cache s)) >=? maxSize opts)
              && negb (bool_decide (is_Some (cache s !! key)))) eqn:Hflag.
    + (* at capacity, new key: one eviction *)
      apply andb_true_iff in Hflag as [Hge Hnew].
      apply Z.geb_le in Hge.
      apply negb_true_iff, bool_decide_eq_false in Hnew.
      assert (cache s !! key = None) as Habsent
        by (destruct (cache s !! key); [exfalso; eauto|done]).
      assert (exists k, is_Some (cache s0 !! k)) as Hsome.
      { rewrite Hc0. apply map_size_ne_0_lookup_1. lia. }
      destruct (evict_begins s0 Hinv0 Hsome)
        as (victim & item & v & s1 & Hv & Hitem & -> & Hc1 & Ha1 & He1).
      rewrite Ha0 in Hv. rewrite Hc0 in Hitem.
      unfold pendingStorage, deleteStorage. cbn [pd_key].
      destruct (Hrel victim (storage s1)) as (b & st' & ->).
      set (pd := {| pd_key := victim; pd_item := item; pd_value := v |}).
      set (s3 := withTimers A (base.delete key) (withStorage A st' s1)).
      assert (cache s3 = cache s) as Hc3 by (subst s3; simpl; congruence).
      assert (AccessOrderInv s3) as Hinv3.
      { apply (AccessOrderInv_ext s); [done| |done]. subst s3. simpl. congruence. }
      assert (victim <> key) as Hvk by congruence.
      destruct (setWrite_spec key value itemTags (effectiveTTLOf opts ttl)
                  (expiresAtOf (effectiveTTLOf opts ttl) tE) tC tA
                  (Some (pd, Ok b)) s3)
        as (Hsz & Hgone & Hi & added & He & Hn).
      cbv zeta in Hsz, Hgone, Hi, He. cbn [cacheAfter pd_key pd] in Hsz, Hgone.
      rewrite Hc3 in Hsz, Hgone.
      rewrite map_size_insert_None in Hsz
        by (by rewrite lookup_delete_ne).
      rewrite map_size_delete_Some in Hsz by eauto.
      split; [split|split].
      * pose proof (map_size_ne_0_lookup_2 (cache s) victim) as Hnz.
        assert (size (cache s) <> 0%nat) by eauto. lia.
      * by apply Hi.
      * intros _ _ _. exists victim, added.
        split; [done|]. split; [|split; [done|]].
        -- rewrite He. subst s3. simpl. rewrite He1, He0.
           by rewrite <- app_assoc.
        -- apply Hgone; [done|apply lookup_delete_eq].
      * intros [Hin|Hlt]; [done|lia].
    + (* below capacity, or an update: no eviction *)
      cbn [pendingStorage].
      set (s3 := withTimers A (base.delete key) s0).
      assert (cache s3 = cache s) as Hc3 by (subst s3; simpl; congruence).
      assert (AccessOrderInv s3) as Hinv3 by by apply (AccessOrderInv_ext s0).
      destruct (setWrite_spec key value itemTags (effectiveTTLOf opts ttl)
                  (expiresAtOf (effectiveTTLOf opts ttl) tE) tC tA None s3)
        as (Hsz & _ & Hi & added & He & Hn).
      cbv zeta in Hsz, Hi, He. cbn [cacheAfter] in Hsz. rewrite Hc3 in Hsz.
      apply andb_false_iff in Hflag.
      split; [split|split].
      * rewrite map_size_insert in Hsz.
        destruct Hflag as [Hlt|Hold].
        -- destruct (Z.geb_spec (Z.of_nat (size (cache s))) (maxSize opts));
             [done|]. destruct (cache s !! key); simpl in Hsz; lia.
        -- apply negb_false_iff, bool_decide_eq_true in Hold as [x Hx].
           rewrite Hx in Hsz. simpl in Hsz. lia.
      * by apply Hi.
      * intros Habsent Hfull _. exfalso. destruct Hflag as [Hlt|Hold].
        -- destruct (Z.geb_spec (Z.of_nat (size (cache s))) (maxSize opts));
             [done|lia].
        -- apply negb_false_iff, bool_decide_eq_true in Hold as [x Hx].
           congruence.
      * intros _. exists added. split; [|done].
        rewrite He. subst s3. simpl. by rewrite He0.
  - (* the condition is false: nothing happens *)
    cbn [snd]. split; [done|]. split.
    + intros _ _ Hpass. destruct condition; [congruence|done].
    + intros _. exists []. by rewrite app_nil_r.
  - (* the condition throws *)
    cbn [snd]. split; [done|]. split.
    + intros _ _ Hpass. destruct condition; [congruence|done].
    + intros _. by exists [EvError e].
Qed.

(** The other calls add no entry. *)
Lemma NoGrowth_Shrunk s s' : Shrunk s s' -> NoGrowth s s'.
Proof.
  intros (Hc & Hi & _). split; [by apply map_subseteq_size|done].
Qed.

Lemma NoGrowth_same s s' :
  cache s' = cache s -> accessOrder s' = accessOrder s -> NoGrowth s s'.
Proof.
  intros Hc Ha. split; [by rewrite Hc|by apply AccessOrderInv_ext].
Qed.

Lemma NoGrowth_trans s1 s2 s3 :
  NoGrowth s1 s2 -> NoGrowth s2 s3 -> NoGrowth s1 s3.
Proof. intros [H1 I1] [H2 I2]. split; [lia|auto]. Qed.

Lemma NoGrowth_purge key s : NoGrowth s (purge A key s).
Proof.
  split.
  - apply map_subseteq_size. simpl. apply delete_subseteq.
  - by apply (AccessOrderInv_delete _ _ key).
Qed.

Lemma NoGrowth_getHit key item value t2 t3 s :
  cache s !! key = Some item ->
  NoGrowth s (getHit A opts key item value t2 t3 s).
Proof.
  intros Hitem. unfold getHit.
  set (s1 := withAccessOrder A (JsMap.set key t2) s).
  set (s2 := match expiresAt item with Some _ => _ | None => _ end).
  assert (exists item', cache s2 = <[key := item']> (cache s)
                        /\ accessOrder s2 = JsMap.set key t2 (accessOrder s))
    as (item' & Hc & Ha).
  { subst s2. destruct (expiresAt item) as [e|]; [|by eexists].
    destruct (slidingTTL opts && truthyZ e); by eexists. }
  change (NoGrowth s (emit A (EvGet key (PValue value))
                        (countIfEnabled A opts incHits s2))).
  split.
  - change (cache (emit A ?e ?x)) with (cache x).
    rewrite countIfEnabled_cache, Hc, map_size_insert_Some; eauto.
  - intros Hinv. unfold AccessOrderInv.
    change (cache (emit A ?e ?x)) with (cache x).
    change (accessOrder (emit A ?e ?x)) with (accessOrder x).
    rewrite countIfEnabled_cache, countIfEnabled_accessOrder, Hc, Ha.
    apply AccessOrderOk_insert; [|done].
    intros ->. destruct Hinv as [_ Hempty]. congruence.
Qed.

Lemma NoGrowth_get key t1 t2 t3 s :
  NoGrowth s (snd (get A opts key t1 t2 t3 s)).
Proof.
  unfold get. set (s0 := countIfEnabled A opts incTotalAccesses s).
  assert (NoGrowth s s0) as H0
    by (apply NoGrowth_same;
        [apply countIfEnabled_cache|apply countIfEnabled_accessOrder]).
  assert (forall x : Engine Value A,
             NoGrowth s0 x -> NoGrowth s (countIfEnabled A opts incMisses x))
    as Hmiss.
  { intros x Hx. eapply NoGrowth_trans; [exact H0|].
    eapply NoGrowth_trans; [exact Hx|].
    apply NoGrowth_same;
      [apply countIfEnabled_cache|apply countIfEnabled_accessOrder]. }
  destruct (cache s0 !! key) as [item|] eqn:Hitem.
  - destruct (isExpired item t1).
    + pose proof (Shrunk_delete key s0) as Hd.
      destruct (delete A opts key s0) as [r s1]. cbn [snd] in *.
      by apply Hmiss, NoGrowth_Shrunk.
    + destruct (ad_get A key (storage s0)) as [r st].
      set (s1 := withStorage A st s0).
      assert (NoGrowth s0 s1) as H1 by by apply NoGrowth_same.
      destruct (match r with
                | Ok (Some raw) => deserialize opts raw
                | Ok None => Ok None
                | Throw e => Throw e
                end) as [[value|]|e]; cbn [snd].
      * eapply NoGrowth_trans; [exact H0|].
        eapply NoGrowth_trans; [exact H1|]. by apply NoGrowth_getHit.
      * apply Hmiss. eapply NoGrowth_trans; [exact H1|apply NoGrowth_purge].
      * apply Hmiss. eapply NoGrowth_trans; [exact H1|].
        by apply NoGrowth_same.
  - cbn [snd]. apply Hmiss. by apply NoGrowth_same.
Qed.

Lemma NoGrowth_has key now s : NoGrowth s (snd (has A opts key now s)).
Proof.
  unfold has. destruct (cache s !! key) as [item|]; [|by apply NoGrowth_same].
  destruct (isExpired item now).
  - pose proof (Shrunk_delete key s) as Hd.
    destruct (delete A opts key s) as [r s1]. by apply NoGrowth_Shrunk.
  - destruct (ad_has A key (storage s)) as [r st].
    set (s1 := withStorage A st s).
    assert (NoGrowth s s1) as H1 by by apply NoGrowth_same.
    destruct r as [[|]|e]; cbn [snd]; [done| |done].
    eapply NoGrowth_trans; [exact H1|apply NoGrowth_purge].
Qed.

Lemma NoGrowth_beginAll keys s : NoGrowth s (snd (beginAll A keys s)).
Proof.
  revert s. induction keys as [|key rest IH]; intros s; simpl.
  - by apply NoGrowth_same.
  - assert (NoGrowth s (snd (deleteBegin A key s))) as Hb.
    { unfold deleteBegin. destruct (cache s !! key); [|by apply NoGrowth_same].
      destruct (ad_get A key (storage s)). by apply NoGrowth_same. }
    destruct (deleteBegin A key s) as [pd s1]. cbn [snd] in Hb.
    specialize (IH s1). destruct (beginAll A rest s1) as [pds s2].
    cbn [snd] in *. by eapply NoGrowth_trans.
Qed.

Lemma NoGrowth_storageAll pds s : NoGrowth s (snd (storageAll A pds s)).
Proof.
  revert s. induction pds as [|pd rest IH]; intros s; simpl.
  - by apply NoGrowth_same.
  - assert (NoGrowth s (snd (deleteStorage A pd s))) as Hb.
    { unfold deleteStorage. destruct (ad_delete A (pd_key pd) (storage s)).
      by apply NoGrowth_same. }
    destruct (deleteStorage A pd s) as [r s1]. cbn [snd] in Hb.
    specialize (IH s1). destruct (storageAll A rest s1) as [rs s2].
    cbn [snd] in *. by eapply NoGrowth_trans.
Qed.

Lemma NoGrowth_finishAll rs s : NoGrowth s (finishAll A opts rs s).
Proof.
  revert s. induction rs as [|[pd r] rest IH]; intros s.
  - by apply NoGrowth_same.
  - unfold finishAll in *. simpl.
    eapply NoGrowth_trans; [|apply IH].
    apply NoGrowth_Shrunk, Shrunk_deleteFinish.
Qed.

Lemma NoGrowth_deleteByTag tag s :
  NoGrowth s (snd (deleteByTag A opts tag s)).
Proof.
  unfold deleteByTag, deleteMultiple.
  destruct (tagsMap s !! tag) as [ks|]; [|by apply NoGrowth_same].
  pose proof (NoGrowth_beginAll ks s) as H1.
  destruct (beginAll A ks s) as [pds s1].
  pose proof (NoGrowth_storageAll pds s1) as H2.
  destruct (storageAll A pds s1) as [rs s2]. cbn [snd] in *.
  eapply NoGrowth_trans; [exact H1|].
  eapply NoGrowth_trans; [exact H2|apply NoGrowth_finishAll].
Qed.

Lemma NoGrowth_clear s : NoGrowth s (snd (clear A s)).
Proof.
  unfold clear. destruct (ad_clear A (storage s)) as [r st].
  destruct r as [b|e]; cbn [snd]; [|by apply NoGrowth_same].
  split.
  - simpl. rewrite map_size_empty. lia.
  - intros _. apply AccessOrderOk_empty.
Qed.

(** Every call keeps the cache within its capacity. *)
Lemma call_capacity c s :
  1 <= maxSize opts ->
  (forall k st, exists b st', ad_delete A k st = (Ok b, st')) ->
  wellKeyed c ->
  AccessOrderInv s /\ Z.of_nat (size (cache s)) <= maxSize opts ->
  AccessOrderInv (snd (call A opts c s))
  /\ Z.of_nat (size (cache (snd (call A opts c s)))) <= maxSize opts.
Proof.
  intros Hm Hrel Hwk [Hinv Hsize].
  assert (forall x : Engine Value A,
             NoGrowth s x ->
             AccessOrderInv x /\ Z.of_nat (size (cache x)) <= maxSize opts)
    as Hng by (intros x [Hle Hi]; split; [auto|lia]).
  destruct c as [key value ttl itemTags condition tE tC tA
                |key t1 t2 t3|key now|key|tag|]; simpl.
  - destruct (set_capacity key value ttl itemTags condition tE tC tA s
                Hm Hrel Hinv Hwk Hsize) as ((Hle & Hi) & _).
    by destruct (set A opts key value ttl itemTags condition tE tC tA s).
  - pose proof (NoGrowth_get key t1 t2 t3 s) as H.
    destruct (get A opts key t1 t2 t3 s). by apply Hng.
  - pose proof (NoGrowth_has key now s) as H.
    destruct (has A opts key now s). by apply Hng.
  - pose proof (Shrunk_delete key s) as H.
    destruct (delete A opts key s). by apply Hng, NoGrowth_Shrunk.
  - pose proof (NoGrowth_deleteByTag tag s) as H.
    destruct (deleteByTag A opts tag s). by apply Hng.
  - pose proof (NoGrowth_clear s) as H.
    destruct (clear A s). by apply Hng.
Qed.

Lemma run_capacity calls s :
  1 <= maxSize opts ->
  (forall k st, exists b st', ad_delete A k st = (Ok b, st')) ->
  Forall wellKeyed calls ->
  AccessOrderInv s /\ Z.of_nat (size (cache s)) <= maxSize opts ->
  AccessOrderInv (snd (run A opts calls s))
  /\ Z.of_nat (size (cache (snd (run A opts calls s)))) <= maxSize opts.
Proof.
  intros Hm Hrel Hwk. revert s.
  induction Hwk as [|c rest Hc Hrest IH]; intros s Hs; [done|].
  cbn [run]. pose proof (call_capacity c s Hm Hrel Hc Hs) as H1.
  destruct (call A opts c s) as [a s1]. cbn [snd] in H1.
  specialize (IH s1 H1). by destruct (run A opts rest s1).
Qed.


(** ** Untagged writes on a reliable backend *)

Lemma setCommit_untagged key value eff expiry tC tA s :
  let s' := setCommit A opts key value [] eff expiry tC tA s in
  cache s'
  = <[key := {| createdAt := tC; expiresAt := expiry;
                accessCount := 0; tags := [] |}]> (cache s)
  /\ accessOrder s' = JsMap.set key tA (accessOrder s).
Proof.
  cbv zeta. unfold setCommit, emit. cbn [fold_left cache accessOrder].
  rewrite countIfEnabled_cache, countIfEnabled_accessOrder.
  by destruct (eff >? 0).
Qed.

(** A [set] without tags that gets to write: it inserts the new entry,
    after removing the least recently used one when the key is new and
    the cache is at capacity. *)
Lemma set_untagged_spec key value ttl condition tE tC tA s raw :
  match condition with Some c => c key value = Ok true | None => True end ->
  serialize opts value = Ok raw ->
  (forall k r st, exists b st', ad_set A k r st = (Ok b, st')) ->
  (forall k st, exists b st', ad_delete A k st = (Ok b, st')) ->
  AccessOrderInv s -> 1 <= maxSize opts ->
  let s' := snd (set A opts key value ttl [] condition tE tC tA s) in
  let item := {| createdAt := tC;
                 expiresAt := expiresAtOf (effectiveTTLOf opts ttl) tE;
                 accessCount := 0; tags := [] |} in
  if (Z.of_nat (size (cache s)) >=? maxSize opts)
     && negb (bool_decide (is_Some (cache s !! key)))
  then exists victim,
      LruVictim (accessOrder s) victim
      /\ cache s' = <[key := item]> (base.delete victim (cache s))
      /\ accessOrder s'
         = JsMap.set key tA (JsMap.delete victim (accessOrder s))
  else cache s' = <[key := item]> (cache s)
       /\ accessOrder s' = JsMap.set key tA (accessOrder s).
Proof.
  intros Hc Hs Hset Hdel Hinv Hm. cbv zeta. unfold set, setWrite.
  assert (match condition with Some c => c key value | None => Ok true end
          = Ok true) as -> by (destruct condition; done).
  set (s0 := match cache s !! key with Some _ => _ | None => s end).
  assert (cache s0 = cache s) as Hc0
    by (subst s0; by destruct (cache s !! key)).
  assert (accessOrder s0 = accessOrder s) as Ha0
    by (subst s0; by destruct (cache s !! key)).
  assert (AccessOrderInv s0) as Hinv0 by by apply (AccessOrderInv_ext s).
  rewrite Hc0, Hs.
  destruct ((Z.of_nat (size (cache s)) >=? maxSize opts)
            && negb (bool_decide (is_Some (cache s !! key)))) eqn:Hflag.
  - apply andb_true_iff in Hflag as [Hge _]. apply Z.geb_le in Hge.
    assert (exists k, is_Some (cache s0 !! k)) as Hsome.
    { rewrite Hc0. apply map_size_ne_0_lookup_1. lia. }
    destruct (evict_begins s0 Hinv0 Hsome)
      as (victim & item & v & s1 & Hv & Hitem & -> & Hc1 & Ha1 & He1).
    rewrite Ha0 in Hv.
    unfold pendingStorage, deleteStorage. cbn [pd_key].
    destruct (Hdel victim (storage s1)) as (b & st' & ->).
    destruct (Hset key raw
                (storage (withTimers A (base.delete key) (withStorage A st' s1))))
      as (b' & st'' & ->).
    cbn [snd pendingFinish].
    match goal with
    | |- context [setCommit A opts key value [] ?eff ?ex tC tA ?x] =>
        destruct (setCommit_untagged key value eff ex tC tA x) as [-> ->];
        destruct (deleteFinish_ok
                    {| pd_key := victim; pd_item := item; pd_value := v |} b
                    (withStorage A st''
                       (withTimers A (base.delete key) (withStorage A st' s1))))
          as (Hcf & Haf & _)
    end.
    exists victim. split; [done|]. cbv zeta in Hcf, Haf.
    rewrite Hcf, Haf. cbn [pd_key cache accessOrder withStorage withTimers].
    by rewrite Hc1, Ha1, Hc0, Ha0.
  - cbn [pendingStorage].
    destruct (Hset key raw (storage (withTimers A (base.delete key) s0)))
      as (b' & st'' & ->).
    cbn [snd pendingFinish].
    match goal with
    | |- context [setCommit A opts key value [] ?eff ?ex tC tA ?x] =>
        destruct (setCommit_untagged key value eff ex tC tA x) as [-> ->]
    end.
    cbn [cache accessOrder withStorage withTimers]. by rewrite Hc0, Ha0.
Qed.

(** C7: on a non-empty access order the scan of [_evictLRU] ends on the
    key with the smallest last-access time, the first in insertion order
    among those that share it, and [_evictLRU] announces the eviction of
    that key and starts its [delete].  So with [maxSize] 2, a reliable
    backend and a clock that does not run backwards between the first two
    writes, writing three distinct non-empty new keys k1, k2, k3 without
    tags into a fresh engine removes k1 and leaves exactly k2 and k3. *)
Theorem lru_victim_selection :
  (forall s,
      accessOrder s <> [] ->
      exists victim,
        scanOldest (accessOrder s) None None = Some victim
        /\ LruVictim (accessOrder s) victim
        /\ (victim <> EmptyString ->
            events (snd (_evictLRU A s))
            = events s ++ [EvEvicted victim PUndefined]
            /\ forall pd, fst (_evictLRU A s) = Some pd -> pd_key pd = victim))
  /\ (forall st k1 k2 k3 v1 v2 v3 r1 r2 r3 ttl1 ttl2 ttl3
             e1 c1 a1 e2 c2 a2 e3 c3 a3,
        maxSize opts = 2 ->
        (forall k r st, exists b st', ad_set A k r st = (Ok b, st')) ->
        (forall k st, exists b st', ad_delete A k st = (Ok b, st')) ->
        serialize opts v1 = Ok r1 -> serialize opts v2 = Ok r2 ->
        serialize opts v3 = Ok r3 ->
        k1 <> EmptyString -> k2 <> EmptyString -> k3 <> EmptyString ->
        k1 <> k2 -> k1 <> k3 -> k2 <> k3 ->
        a1 <= a2 ->
        let s1 := snd (set A opts k1 v1 ttl1 [] None e1 c1 a1
                         (create Value A st)) in
        let s2 := snd (set A opts k2 v2 ttl2 [] None e2 c2 a2 s1) in
        let s3 := snd (set A opts k3 v3 ttl3 [] None e3 c3 a3 s2) in
        cache s3 !! k1 = None
        /\ is_Some (cache s3 !! k2) /\ is_Some (cache s3 !! k3)
        /\ size (cache s3) = 2%nat).
Proof.
  split.
  - intros s Hne.
    destruct (scanOldest_victim (accessOrder s) Hne) as (victim & Hscan & Hv).
    exists victim. split; [done|]. split; [done|]. intros Hk.
    unfold _evictLRU, JsMap.size.
    destruct (Z.eqb_spec (Z.of_nat (length (accessOrder s))) 0) as [Hz|_].
    { destruct (accessOrder s); [done|simpl in Hz; lia]. }
    rewrite Hscan. unfold truthyKey.
    destruct (String.eqb_spec victim EmptyString); [done|]. cbn [negb].
    unfold deleteBegin. destruct (cache s !! victim) as [item|].
    + destruct (ad_get A victim (storage s)) as [r st']. cbn [fst snd].
      split; [done|]. by intros pd [= <-].
    + cbn [fst snd]. split; [done|]. by intros pd.
  - intros st k1 k2 k3 v1 v2 v3 r1 r2 r3 ttl1 ttl2 ttl3
      e1 c1 a1 e2 c2 a2 e3 c3 a3
      Hm Hset Hdel Hs1 Hs2 Hs3 Hk1 Hk2 Hk3 H12 H13 H23 Hclock.
    cbv zeta.
    assert (1 <= maxSize opts) as Hm1 by lia.
    set (s0 := create Value A st).
    assert (AccessOrderInv s0) as Hinv0.
    { split; [|apply lookup_empty]. intros k. simpl. rewrite lookup_empty.
      split; intros []; done. }
    (* first write *)
    pose proof (set_untagged_spec k1 v1 ttl1 None e1 c1 a1 s0 r1
                  I Hs1 Hset Hdel Hinv0 Hm1) as W1.
    cbv zeta in W1. rewrite Hm in W1.
    change (cache s0) with (∅ : gmap string CacheItem) in W1.
    rewrite map_size_empty in W1. cbn [Z.of_nat Z.geb Z.compare andb] in W1.
    destruct W1 as [Hc1 Ha1].
    set (s1 := snd (set A opts k1 v1 ttl1 [] None e1 c1 a1 s0)) in *.
    change (accessOrder s0) with (@nil (string * Z)) in Ha1.
    cbn [JsMap.set] in Ha1.
    assert (AccessOrderInv s1) as Hinv1.
    { unfold AccessOrderInv. rewrite Hc1, Ha1.
      by apply (AccessOrderOk_insert ∅ [] k1 _ a1 Hk1). }
    (* second write *)
    pose proof (set_untagged_spec k2 v2 ttl2 None e2 c2 a2 s1 r2
                  I Hs2 Hset Hdel Hinv1 Hm1) as W2.
    cbv zeta in W2. rewrite Hm in W2.
    assert (size (cache s1) = 1%nat) as Hsz1
      by (rewrite Hc1; by rewrite map_size_insert_None, map_size_empty).
    rewrite Hsz1 in W2. cbn [Z.of_nat Pos.of_succ_nat Z.geb Z.compare
                               Pos.compare Pos.compare_cont andb] in W2.
    destruct W2 as [Hc2 Ha2].
    set (s2 := snd (set A opts k2 v2 ttl2 [] None e2 c2 a2 s1)) in *.
    assert (AccessOrderInv s2) as Hinv2.
    { unfold AccessOrderInv. rewrite Hc2, Ha2.
      by apply AccessOrderOk_insert. }
    rewrite Ha1 in Ha2. cbn [JsMap.set] in Ha2.
    destruct (String.eqb_spec k2 k1) as [|_]; [congruence|].
    assert (cache s1 !! k2 = None) as Hnew2
      by (rewrite Hc1; by rewrite lookup_insert_ne, lookup_empty).
    assert (size (cache s2) = 2%nat) as Hsz2
      by (rewrite Hc2; by rewrite map_size_insert_None, Hsz1).
    (* third write *)
    pose proof (set_untagged_spec k3 v3 ttl3 None e3 c3 a3 s2 r3
                  I Hs3 Hset Hdel Hinv2 Hm1) as W3.
    cbv zeta in W3. rewrite Hm, Hsz2 in W3.
    assert (cache s2 !! k3 = None) as Hnew3.
    { rewrite Hc2, lookup_insert_ne by done.
      rewrite Hc1. by rewrite lookup_insert_ne, lookup_empty. }
    rewrite bool_decide_eq_false_2 in W3 by (rewrite Hnew3; by intros []).
    cbn [Z.of_nat Pos.of_succ_nat Pos.succ Z.geb Z.compare
           Pos.compare Pos.compare_cont andb negb] in W3.
    destruct W3 as (victim & Hv & Hc3 & _).
    assert (victim = k1) as ->.
    { rewrite Ha2 in Hv.
      destruct Hv as (before & time & after & Heq & Hb & _).
      destruct before as [|[kb tb] before]; [by injection Heq|].
      injection Heq as Hkb Htb Heq. subst kb tb.
      destruct before as [|? before]; [|by destruct before].
      injection Heq as Hv2 Ht2 _. subst time.
      specialize (Hb k1 a1 (or_introl eq_refl)). lia. }
    rewrite Hc3, Hc2, Hc1.
    split; [|split; [|split]].
    + rewrite lookup_insert_ne by done. apply lookup_delete_eq.
    + rewrite lookup_insert_ne by done.
      rewrite lookup_delete_ne by done. rewrite lookup_insert_eq. eauto.
    + rewrite lookup_insert_eq. eauto.
    + rewrite map_size_insert_None.
      * rewrite map_size_delete_Some.
        -- by rewrite map_size_insert_None, map_size_insert_None,
             map_size_empty
             by (by rewrite ?lookup_insert_ne, ?lookup_empty).
        -- rewrite lookup_insert_ne by done. rewrite lookup_insert_eq. eauto.
      * rewrite lookup_delete_ne by done.
        by rewrite !lookup_insert_ne, lookup_empty.
Qed.

(** ** Hit and miss counters *)

Lemma hm_countIfEnabled f s :
  (forall st, hits (f st) = hits st /\ misses (f st) = misses st) ->
  hm (countIfEnabled A opts f s) = hm s.
Proof.
  intros Hf. unfold hm, countIfEnabled.
  destruct (enableStats opts); [|done]. simpl.
  by destruct (Hf (stats s)) as [-> ->].
Qed.

Lemma hm_deleteFinish pd r s : hm (deleteFinish A opts pd r s) = hm s.
Proof.
  destruct r as [b|e]; [|done]. unfold deleteFinish.
  change (hm (emit A ?e ?x)) with (hm x). by rewrite hm_countIfEnabled.
Qed.

Lemma hm_delete key s : hm (snd (delete A opts key s)) = hm s.
Proof.
  destruct (delete_cases key s)
    as [[_ ->]|(pd & r & s1 & _ & _ & _ & _ & _ & _ & Hst & _ & _ & ->)];
    [done|].
  simpl. rewrite hm_deleteFinish. unfold hm. by rewrite Hst.
Qed.

Lemma hm_deleteBegin key s : hm (snd (deleteBegin A key s)) = hm s.
Proof.
  unfold deleteBegin. destruct (cache s !! key); [|done].
  by destruct (ad_get A key (storage s)).
Qed.

Lemma hm_deleteStorage pd s : hm (snd (deleteStorage A pd s)) = hm s.
Proof. unfold deleteStorage. by destruct (ad_delete A (pd_key pd) (storage s)). Qed.

Lemma hm_beginAll keys s : hm (snd (beginAll A keys s)) = hm s.
Proof.
  revert s. induction keys as [|key rest IH]; intros s; simpl; [done|].
  pose proof (hm_deleteBegin key s) as Hb.
  destruct (deleteBegin A key s) as [pd s1]. simpl in Hb.
  specialize (IH s1). destruct (beginAll A rest s1) as [pds s2].
  simpl in *. congruence.
Qed.

Lemma hm_storageAll pds s : hm (snd (storageAll A pds s)) = hm s.
Proof.
  revert s. induction pds as [|pd rest IH]; intros s; simpl; [done|].
  pose proof (hm_deleteStorage pd s) as Hb.
  destruct (deleteStorage A pd s) as [r s1]. simpl in Hb.
  specialize (IH s1). destruct (storageAll A rest s1) as [rs s2].
  simpl in *. congruence.
Qed.

Lemma hm_finishAll rs s : hm (finishAll A opts rs s) = hm s.
Proof.
  revert s. induction rs as [|[pd r] rest IH]; intros s; simpl; [done|].
  unfold finishAll in *. simpl. by rewrite IH, hm_deleteFinish.
Qed.

Lemma hm_deleteMultiple keys s :
  hm (snd (deleteMultiple A opts keys s)) = hm s.
Proof.
  unfold deleteMultiple.
  pose proof (hm_beginAll keys s) as H1.
  destruct (beginAll A keys s) as [pds s1].
  pose proof (hm_storageAll pds s1) as H2.
  destruct (storageAll A pds s1) as [rs s2]. simpl in *.
  rewrite hm_finishAll. congruence.
Qed.

Lemma hm_deleteByTag tag s : hm (snd (deleteByTag A opts tag s)) = hm s.
Proof.
  unfold deleteByTag. destruct (tagsMap s !! tag) as [ks|]; [|done].
  pose proof (hm_deleteMultiple ks s) as H.
  by destruct (deleteMultiple A opts ks s).
Qed.

Lemma hm__evictLRU s : hm (snd (_evictLRU A s)) = hm s.
Proof.
  unfold _evictLRU. destruct (_ =? 0); [done|].
  destruct (scanOldest _ None None) as [victim|]; [|done].
  destruct (truthyKey victim); [|done].
  pose proof (hm_deleteBegin victim s) as H.
  by destruct (deleteBegin A victim s).
Qed.

Lemma hm_pendingStorage pd s : hm (snd (pendingStorage A pd s)) = hm s.
Proof.
  destruct pd as [p|]; [|done]. simpl.
  pose proof (hm_deleteStorage p s) as H.
  by destruct (deleteStorage A p s).
Qed.

Lemma hm_pendingFinish pr s : hm (pendingFinish A opts pr s) = hm s.
Proof. destruct pr as [[p r]|]; [|done]. apply hm_deleteFinish. Qed.

Lemma hm_tagStep key s tag : hm (tagStep A opts key s tag) = hm s.
Proof.
  unfold tagStep. set (s1 := withTagsMap A _ s).
  change (hm s) with (hm s1).
  destruct (maxEntriesPerTag opts tag) as [maxEntries|]; [|done].
  destruct (truthyZ maxEntries && _); [|done].
  destruct (scanOldestTagged A s1 _ None None) as [victim|]; [|done].
  destruct (truthyKey victim); [|done].
  pose proof (hm_delete victim s1) as Hd.
  destruct (delete A opts victim s1) as [r s2]. simpl in Hd.
  change (hm (emit A ?e ?x)) with (hm x). by rewrite hm_countIfEnabled.
Qed.

Lemma hm_tagLoop key itemTags s :
  hm (fold_left (tagStep A opts key) itemTags s) = hm s.
Proof.
  revert s. induction itemTags as [|tag rest IH]; intros s; simpl; [done|].
  by rewrite IH, hm_tagStep.
Qed.

Lemma hm_setCommit key value itemTags eff expiry tC tA s :
  hm (setCommit A opts key value itemTags eff expiry tC tA s) = hm s.
Proof.
  unfold setCommit. change (hm (emit A ?e ?x)) with (hm x).
  rewrite hm_countIfEnabled by done.
  destruct (eff >? 0);
    [change (hm (withTimers A ?f ?x)) with (hm x)|]; by rewrite hm_tagLoop.
Qed.

Lemma hm_set key value ttl itemTags condition tE tC tA s :
  hm (snd (set A opts key value ttl itemTags condition tE tC tA s)) = hm s.
Proof.
  unfold set.
  destruct (match condition with Some c => c key value | None => Ok true end)
    as [[|]|e]; [|done|done].
  set (s0 := match cache s !! key with Some _ => _ | None => s end).
  assert (hm s0 = hm s) as <- by (subst s0; by destruct (cache s !! key)).
  assert (forall b : bool, hm (snd (if b then _evictLRU A s0 else (None, s0)))
                    = hm s0) as He
    by (intros [|]; [apply hm__evictLRU|done]).
  specialize (He ((Z.of_nat (size (cache s0)) >=? maxSize opts)
                  && negb (bool_decide (is_Some (cache s0 !! key))))).
  destruct (if _ && _ then _ else _) as [pd s1]. simpl in He.
  pose proof (hm_pendingStorage pd s1) as Hp.
  destruct (pendingStorage A pd s1) as [pr s2]. simpl in Hp.
  unfold setWrite.
  destruct (serialize opts value) as [raw|e].
  - destruct (ad_set A key raw _) as [r st]. destruct r as [b|e]; simpl.
    + rewrite hm_setCommit, hm_pendingFinish. unfold hm in *. simpl. congruence.
    + change (hm (emit A ?e ?x)) with (hm x). rewrite hm_pendingFinish.
      unfold hm in *. simpl. congruence.
  - simpl. rewrite hm_pendingFinish. unfold hm in *. simpl. congruence.
Qed.

Lemma hm_clear s : hm (snd (clear A s)) = hm s.
Proof.
  unfold clear. destruct (ad_clear A (storage s)) as [r st].
  by destruct r.
Qed.

Lemma hm_has key now s : hm (snd (has A opts key now s)) = hm s.
Proof.
  unfold has. destruct (cache s !! key) as [item|]; [|done].
  destruct (isExpired item now).
  - pose proof (hm_delete key s) as H. by destruct (delete A opts key s).
  - destruct (ad_has A key (storage s)) as [r st]. by destruct r as [[|]|].
Qed.

(** A [get] counts one hit when it returns a value and one miss when it
    returns [undefined]. *)
Lemma hm_get key t1 t2 t3 s :
  enableStats opts = true ->
  hm (snd (get A opts key t1 t2 t3 s))
  = match fst (get A opts key t1 t2 t3 s) with
    | Some _ => ((fst (hm s) + 1)%N, snd (hm s))
    | None => (fst (hm s), (snd (hm s) + 1)%N)
    end.
Proof.
  intros En. unfold get, countIfEnabled. rewrite En.
  set (s0 := withStats A incTotalAccesses s).
  change (hm s) with (hm s0). change (cache s0) with (cache s).
  destruct (cache s !! key) as [item|]; [|done].
  destruct (isExpired item t1).
  - pose proof (hm_delete key s0) as H.
    destruct (delete A opts key s0) as [r s1].
    unfold hm in *. simpl in *. injection H as Hh Hm. by rewrite Hh, Hm.
  - destruct (ad_get A key (storage s0)) as [r st].
    destruct r as [[raw|]|e]; [|done|done].
    destruct (deserialize opts raw) as [[v|]|e]; [|done|done].
    simpl. unfold getHit, countIfEnabled. rewrite En.
    change (hm (emit A ?e ?x)) with (hm x).
    destruct (expiresAt item) as [e|]; [|done].
    by destruct (slidingTTL opts && truthyZ e).
Qed.

Lemma hm_call c s :
  enableStats opts = true ->
  hm (snd (call A opts c s))
  = ((fst (hm s) + (if isHit (fst (call A opts c s)) then 1 else 0))%N,
     (snd (hm s) + (if isMiss (fst (call A opts c s)) then 1 else 0))%N).
Proof.
  intros En.
  assert (forall x : Engine Value A,
             hm x = ((fst (hm s) + 0)%N, (snd (hm s) + 0)%N)
                    <-> hm x = hm s) as Hz
    by (intros x; rewrite !N.add_0_r; by destruct (hm s)).
  destruct c as [key value ttl itemTags condition tE tC tA
                |key t1 t2 t3|key now|key|tag|]; simpl.
  - pose proof (hm_set key value ttl itemTags condition tE tC tA s) as H.
    destruct (set A opts key value ttl itemTags condition tE tC tA s).
    by apply Hz.
  - pose proof (hm_get key t1 t2 t3 s En) as H.
    destruct (get A opts key t1 t2 t3 s) as [[v|] s1]; simpl in *;
      rewrite H, N.add_0_r; done.
  - pose proof (hm_has key now s) as H.
    destruct (has A opts key now s). by apply Hz.
  - pose proof (hm_delete key s) as H.
    destruct (delete A opts key s). by apply Hz.
  - pose proof (hm_deleteByTag tag s) as H.
    destruct (deleteByTag A opts tag s). by apply Hz.
  - pose proof (hm_clear s) as H.
    destruct (clear A s). by apply Hz.
Qed.

Lemma countHits_cons (a : Answer Value) answers :
  countHits (a :: answers)
  = ((if isHit a then 1 else 0) + countHits answers)%nat.
Proof.
  unfold countHits. rewrite filter_cons.
  destruct (isHit a); case_decide; done.
Qed.

Lemma countMisses_cons (a : Answer Value) answers :
  countMisses (a :: answers)
  = ((if isMiss a then 1 else 0) + countMisses answers)%nat.
Proof.
  unfold countMisses. rewrite filter_cons.
  destruct (isMiss a); case_decide; done.
Qed.

Lemma hm_run calls s :
  enableStats opts = true ->
  hm (snd (run A opts calls s))
  = ((fst (hm s) + N.of_nat (countHits (fst (run A opts calls s))))%N,
     (snd (hm s) + N.of_nat (countMisses (fst (run A opts calls s))))%N).
Proof.
  intros En. revert s.
  induction calls as [|c rest IH]; intros s.
  - cbn [run fst snd]. change (countHits []) with 0%nat.
    change (countMisses []) with 0%nat.
    rewrite !N.add_0_r. by destruct (hm s).
  - cbn [run]. pose proof (hm_call c s En) as Hc.
    destruct (call A opts c s) as [a s1]. cbn [fst snd] in Hc.
    specialize (IH s1). destruct (run A opts rest s1) as [answers s2].
    cbn [fst snd] in *. rewrite IH, Hc. cbn [fst snd].
    rewrite countHits_cons, countMisses_cons.
    destruct (isHit a), (isMiss a); f_equal; lia.
Qed.

(** [hits / (hits + misses) || 0], as a quotient of the two counters. *)
Lemma hitRateOf_quotient st :
  (hitRateOf st
   == inject_Z (Z.of_N (hits st))
      / inject_Z (Z.of_N (hits st) + Z.of_N (misses st)))%Q.
Proof.
  unfold hitRateOf. rewrite <- N2Z.inj_add.
  destruct (hits st + misses st)%N as [|p] eqn:Hsum.
  - simpl. unfold Qdiv, Qinv. simpl. by rewrite Qmult_0_r.
  - unfold Qeq, Qdiv, Qmult, Qinv, inject_Z. simpl. lia.
Qed.

(** C9: the snapshot of [getStats] reports [hitRate] as the quotient
    [hits / (hits + misses)] of the two counters, and as 0 when both are
    0.  With statistics enabled and both counters at 0, after any sequence
    of calls of [set], [get], [has], [delete], [deleteByTag] and [clear]
    in which H of the [get]s returned a value and M returned [undefined],
    the counters are H and M and [hitRate] is H / (H + M). *)
Theorem hit_rate_accuracy :
  (forall s,
      (snap_hitRate (getStats A s)
       == inject_Z (Z.of_N (hits (stats s)))
          / inject_Z (Z.of_N (hits (stats s)) + Z.of_N (misses (stats s))))%Q
      /\ (hits (stats s) = 0%N -> misses (stats s) = 0%N ->
          snap_hitRate (getStats A s) = 0%Q))
  /\ (forall calls s,
        enableStats opts = true ->
        hits (stats s) = 0%N -> misses (stats s) = 0%N ->
        let answers := fst (run A opts calls s) in
        let s' := snd (run A opts calls s) in
        let H := Z.of_nat (countHits answers) in
        let M := Z.of_nat (countMisses answers) in
        Z.of_N (hits (stats s')) = H /\ Z.of_N (misses (stats s')) = M
        /\ (snap_hitRate (getStats A s') == inject_Z H / inject_Z (H + M))%Q).
Proof.
  split.
  - intros s. split; [apply hitRateOf_quotient|].
    intros Hh Hm. unfold getStats, hitRateOf. simpl. by rewrite Hh, Hm.
  - intros calls s En Hh Hm. cbv zeta.
    pose proof (hm_run calls s En) as Hr. unfold hm in Hr.
    rewrite Hh, Hm in Hr. simpl in Hr. injection Hr as Hh' Hm'.
    assert (Z.of_N (hits (stats (snd (run A opts calls s))))
            = Z.of_nat (countHits (fst (run A opts calls s)))) as Eh
      by (rewrite Hh'; lia).
    assert (Z.of_N (misses (stats (snd (run A opts calls s))))
            = Z.of_nat (countMisses (fst (run A opts calls s)))) as Em
      by (rewrite Hm'; lia).
    split; [exact Eh|]. split; [exact Em|].
    rewrite <- Eh, <- Em. apply hitRateOf_quotient.
Qed.

(** ** The tag index of a state with one tagged key *)

Lemma TagIndexInv_single s key tag item :
  cache s = {[key := item]} -> tags item = [tag] ->
  tagsMap s = {[tag := [key]]} -> TagIndexInv s.
Proof.
  intros Hc Ht Hm. split.
  - intros k t. rewrite Hc, Hm. split.
    + intros (ks & [<- <-]%lookup_singleton_Some & Hin).
      destruct Hin as [<-|[]]. exists item.
      rewrite lookup_singleton_eq, Ht. split; [done|by left].
    + intros (it & [<- <-]%lookup_singleton_Some & Hin).
      rewrite Ht in Hin. destruct Hin as [<-|[]]. exists [key].
      rewrite lookup_singleton_eq. split; [done|by left].
  - intros t ks. rewrite Hm. by intros [_ <-]%lookup_singleton_Some.
Qed.

End Properties.

(** ** Values that serialize to undefined *)

Section MemoryBackend.
Context {Value Raw : Type} (opts : EasyCache.Options Value Raw).

Abbreviation M := (MemoryAdapter.adapter Raw).

Implicit Types (s : Engine Value M) (key : string).

Lemma StoredUndefined_delete (store : gmap string (option Raw)) key k :
  StoredUndefined store key -> StoredUndefined (base.delete k store) key.
Proof.
  unfold StoredUndefined. destruct (decide (k = key)) as [->|Hne].
  - by rewrite lookup_delete_eq.
  - by rewrite lookup_delete_ne.
Qed.

Lemma memory_get_undefined (store : gmap string (option Raw)) key :
  StoredUndefined store key -> ad_get M key store = (Ok None, store).
Proof.
  unfold StoredUndefined. simpl. unfold MemoryAdapter.get.
  by destruct (store !! key) as [[raw|]|].
Qed.

Lemma Unreadable_delete key k s :
  Unreadable key s -> Unreadable key (snd (delete M opts k s)).
Proof.
  intros [Hst Hao]. unfold delete, deleteBegin.
  destruct (cache s !! k) as [item|] eqn:Hk; [|done].
  cbn [ad_get MemoryAdapter.adapter MemoryAdapter.get].
  unfold deleteStorage.
  cbn [ad_delete MemoryAdapter.adapter MemoryAdapter.delete pd_key storage
         withStorage snd].
  match goal with
  | |- Unreadable key (deleteFinish M opts ?pd (Ok ?b) ?x) =>
      destruct (deleteFinish_ok M opts pd b x) as (Hc & Ha & _ & Hs)
  end.
  cbv zeta in Hc, Ha, Hs. split.
  - rewrite Hs. by apply StoredUndefined_delete.
  - rewrite Hc, Ha. cbn [pd_key cache accessOrder withStorage].
    rewrite JsMap_get_delete. destruct (String.eqb_spec key k) as [|Hne]; [done|].
    rewrite lookup_delete_ne by done. exact Hao.
Qed.

Lemma Unreadable_tagStep key k s tag :
  Unreadable key s -> Unreadable key (tagStep M opts k s tag).
Proof.
  intros Hu. unfold tagStep. set (s1 := withTagsMap M _ s).
  assert (Unreadable key s1) as H1 by done.
  destruct (maxEntriesPerTag opts tag) as [maxEntries|]; [|done].
  destruct (truthyZ maxEntries && _); [|done].
  destruct (scanOldestTagged M s1 _ None None) as [victim|]; [|done].
  destruct (truthyKey victim); [|done].
  pose proof (Unreadable_delete key victim s1 H1) as Hd.
  destruct (delete M opts victim s1) as [r s2]. cbn [snd] in Hd.
  destruct Hd as [Hst Hao]. split.
  - change (storage (emit M ?e ?x)) with (storage x).
    by rewrite countIfEnabled_storage.
  - change (cache (emit M ?e ?x)) with (cache x).
    change (accessOrder (emit M ?e ?x)) with (accessOrder x).
    by rewrite countIfEnabled_cache, countIfEnabled_accessOrder.
Qed.

Lemma Unreadable_tagLoop key k itemTags s :
  Unreadable key s ->
  Unreadable key (fold_left (tagStep M opts k) itemTags s).
Proof.
  revert s. induction itemTags as [|tag rest IH]; intros s Hu; [done|].
  simpl. by apply IH, Unreadable_tagStep.
Qed.

Lemma pendingFinish_storage pr s :
  storage (pendingFinish M opts pr s) = storage s.
Proof.
  destruct pr as [[pd [b|e]]|]; [|done..]. simpl.
  by destruct (deleteFinish_ok M opts pd b s) as (_ & _ & _ & Hs).
Qed.

(** After a [set] that got to write a value serialized to [undefined],
    the key is unreadable. *)
Lemma set_undefined_unreadable key value ttl itemTags condition tE tC tA s :
  match condition with Some c => c key value = Ok true | None => True end ->
  serialize opts value = Ok None ->
  Unreadable key (snd (set M opts key value ttl itemTags condition tE tC tA s)).
Proof.
  intros Hc Hs. unfold set, setWrite.
  assert (match condition with Some c => c key value | None => Ok true end
          = Ok true) as -> by (destruct condition; done).
  destruct (if _ && _ then _ else _) as [pd s1].
  destruct (pendingStorage M pd s1) as [pr s2].
  rewrite Hs. cbn [ad_set MemoryAdapter.adapter MemoryAdapter.set snd].
  set (s3 := pendingFinish M opts pr _).
  assert (StoredUndefined (storage s3) key) as Hst.
  { subst s3. rewrite pendingFinish_storage. simpl.
    unfold StoredUndefined. by rewrite lookup_insert_eq. }
  unfold setCommit.
  set (s4 := withAccessOrder M _ (withCache M _ s3)).
  assert (Unreadable key s4) as H4.
  { split; [done|]. simpl. by rewrite lookup_insert_eq. }
  pose proof (Unreadable_tagLoop key key itemTags s4 H4) as [Hst5 Hao5].
  set (s5 := fold_left _ itemTags s4) in *.
  split.
  - change (storage (emit M ?e ?x)) with (storage x).
    rewrite countIfEnabled_storage. by destruct (effectiveTTLOf opts ttl >? 0).
  - change (cache (emit M ?e ?x)) with (cache x).
    change (accessOrder (emit M ?e ?x)) with (accessOrder x).
    rewrite countIfEnabled_cache, countIfEnabled_accessOrder.
    by destruct (effectiveTTLOf opts ttl >? 0).
Qed.

(** A [get] of an unreadable key is a miss that leaves no metadata and
    no access time for the key. *)
Lemma get_unreadable key t1 t2 t3 s :
  Unreadable key s ->
  let g := get M opts key t1 t2 t3 s in
  fst g = None
  /\ misses (stats (snd g))
     = (misses (stats s) + (if enableStats opts then 1 else 0))%N
  /\ hits (stats (snd g)) = hits (stats s)
  /\ cache (snd g) !! key = None
  /\ JsMap.get key (accessOrder (snd g)) = None.
Proof.
  intros [Hst Hao]. cbv zeta. unfold get.
  set (s0 := countIfEnabled M opts incTotalAccesses s).
  assert (cache s0 = cache s) as Hc0 by apply countIfEnabled_cache.
  assert (accessOrder s0 = accessOrder s) as Ha0
    by apply countIfEnabled_accessOrder.
  assert (storage s0 = storage s) as Hs0 by apply countIfEnabled_storage.
  assert (hm s0 = hm s) as Hhm0 by by apply hm_countIfEnabled.
  assert (forall x : Engine Value M,
             hm x = hm s ->
             misses (stats (countIfEnabled M opts incMisses x))
             = (misses (stats s) + (if enableStats opts then 1 else 0))%N
             /\ hits (stats (countIfEnabled M opts incMisses x))
                = hits (stats s)) as Hmiss.
  { intros x [= Hh Hm]. unfold countIfEnabled.
    destruct (enableStats opts); simpl; rewrite ?Hh, ?Hm, ?N.add_0_r; done. }
  rewrite Hc0.
  destruct (cache s !! key) as [item|] eqn:Hitem.
  - destruct (isExpired item t1).
    + pose proof (hm_delete M opts key s0) as Hhd.
      unfold delete, deleteBegin in *. rewrite Hc0, Hitem in *.
      cbn [ad_get MemoryAdapter.adapter MemoryAdapter.get] in *.
      unfold deleteStorage in *.
      cbn [ad_delete MemoryAdapter.adapter MemoryAdapter.delete pd_key
             storage withStorage snd fst] in *.
      match goal with
      | |- context [deleteFinish M opts ?pd (Ok ?b) ?x] =>
          destruct (deleteFinish_ok M opts pd b x) as (Hc & Ha & _ & _);
          set (s1 := deleteFinish M opts pd (Ok b) x) in *
      end.
      cbv zeta in Hc, Ha. cbn [pd_key] in Hc, Ha.
      destruct (Hmiss s1) as [Hm Hh]; [congruence|].
      split; [done|]. split; [exact Hm|]. split; [exact Hh|].
      rewrite countIfEnabled_cache, countIfEnabled_accessOrder, Hc, Ha.
      split; [apply lookup_delete_eq|].
      rewrite JsMap_get_delete. by rewrite String.eqb_refl.
    + assert (ad_get M key (storage s0) = (Ok None, storage s)) as ->
        by (rewrite Hs0; by apply memory_get_undefined).
      cbn [fst snd].
      destruct (Hmiss (purge M key (withStorage M (storage s) s0)))
        as [Hm Hh]; [done|].
      split; [done|]. split; [exact Hm|]. split; [exact Hh|].
      rewrite countIfEnabled_cache, countIfEnabled_accessOrder.
      cbn [purge cache accessOrder withAccessOrder withCache withStorage].
      split; [apply lookup_delete_eq|].
      rewrite JsMap_get_delete. by rewrite String.eqb_refl.
  - cbn [fst snd]. destruct (Hmiss s0) as [Hm Hh]; [done|].
    split; [done|]. split; [exact Hm|]. split; [exact Hh|].
    rewrite countIfEnabled_cache, countIfEnabled_accessOrder, Hc0, Ha0.
    split; [done|]. by apply Hao.
Qed.

(** C10: on the in-memory backend, after a [set] that got to write a
    value whose serialization is [undefined], a [get] of the key returns
    [undefined], counts one miss (when statistics are enabled) and no
    hit, and leaves neither metadata nor an access-order entry for the
    key. *)
Theorem undefined_serialization_never_hits
    key value ttl itemTags condition tE tC tA t1 t2 t3 s :
  match condition with Some c => c key value = Ok true | None => True end ->
  serialize opts value = Ok None ->
  let s1 := snd (set M opts key value ttl itemTags condition tE tC tA s) in
  let g := get M opts key t1 t2 t3 s1 in
  fst g = None
  /\ misses (stats (snd g))
     = (misses (stats s1) + (if enableStats opts then 1 else 0))%N
  /\ hits (stats (snd g)) = hits (stats s1)
  /\ cache (snd g) !! key = None
  /\ JsMap.get key (accessOrder (snd g)) = None.
Proof.
  intros Hc Hs. cbv zeta.
  apply get_unreadable. by apply set_undefined_unreadable.
Qed.

End MemoryBackend.

(** ** Examples on the default configuration *)

Module Examples.
Import Demo.

Lemma set_condition_false_noop_witness :
  onlyTrue "k" no = Ok false
  /\ set memory (options 1000 0 false) "k" no (Some 500) ["t"%string]
       (Some onlyTrue) 10 10 10 fresh
     = (RBool false, fresh).
Proof.
  split; [reflexivity|].
  apply (set_condition_false_noop memory (options 1000 0 false)).
  reflexivity.
Defined.

(** C1: on the code, [delete] answers with the engine itself whether or
    not the key existed.  After [set("k", true)], the first [delete("k")]
    removes the key and returns [this], not true; the second returns
    [this], not false, changes nothing and emits nothing. *)
Theorem delete_returns_engine_not_boolean :
  let o := options 1000 0 false in
  let s1 := snd (set memory o "k" yes None [] None 10 10 10 fresh) in
  let d1 := delete memory o "k" s1 in
  let d2 := delete memory o "k" (snd d1) in
  cache s1 !! "k"%string <> None
  /\ fst d1 = RThis /\ cache (snd d1) !! "k"%string = None
  /\ fst d2 = RThis /\ snd d2 = snd d1.
Proof. vm_compute. repeat split; discriminate. Qed.

(** C2: with [slidingTTL], an entry written at time 1000 with a TTL of
    200 and read at 1150 and again at 1300 is renewed the second time for
    350 milliseconds, the first renewed expiry minus [createdAt], not for
    the 200 it was written with. *)
Theorem sliding_ttl_grows_on_second_read :
  let o := options 1000 0 true in
  let s1 := snd (set memory o "k" yes (Some 200) [] None 1000 1000 1000 fresh) in
  let g1 := get memory o "k" 1150 1150 1150 s1 in
  let g2 := get memory o "k" 1300 1300 1300 (snd g1) in
  fst g1 = yes /\ fst g2 = yes
  /\ (expiresAt <$> cache (snd g1) !! "k"%string) = Some (Some (1150 + 200))
  /\ (delay <$> timers (snd g1) !! "k"%string) = Some 200
  /\ (expiresAt <$> cache (snd g2) !! "k"%string) = Some (Some (1300 + 350))
  /\ (delay <$> timers (snd g2) !! "k"%string) = Some 350.
Proof. vm_compute. repeat split. Qed.

(** C3: the tag index does not survive [clear], the purge of [get] or a
    failed [set].  After [set("k", true, null, ["t"])] the invariant
    holds; [clear()] empties the metadata and leaves "k" listed under "t".
    After [set("k", undefined, null, ["t"])] the invariant holds;
    [get("k")] finds nothing in the store, purges the metadata and leaves
    "k" listed under "t".  On a backend that serves one call, after
    [set("k", true, null, ["t"])] the invariant holds; a second
    [set("k", false, null, ["t"])] fails at the backend, having already
    removed "k" from under "t" while the metadata still carries the
    tag. *)
Theorem tag_index_not_preserved :
  let o := options 1000 0 false in
  let s1 := snd (set memory o "k" yes None ["t"%string] None 10 10 10 fresh) in
  let s2 := snd (clear memory s1) in
  let u1 := snd (set memory o "k" None None ["t"%string] None 10 10 10 fresh) in
  let g := get memory o "k" 20 20 20 u1 in
  let f1 := snd (set flaky o "k" yes None ["t"%string] None 10 10 10
                   (freshFlaky 1)) in
  let f2 := snd (set flaky o "k" no None ["t"%string] None 20 20 20 f1) in
  (TagIndexInv s1 /\ ~ TagIndexInv s2)
  /\ (TagIndexInv u1 /\ fst g = None /\ ~ TagIndexInv (snd g))
  /\ (TagIndexInv f1 /\ ~ TagIndexInv f2).
Proof.
  cbv zeta.
  assert (forall s : Engine Json.value memory,
             tagsMap s !! "t"%string = Some ["k"%string] ->
             cache s !! "k"%string = None -> ~ TagIndexInv s) as Hbroken.
  { intros s Ht Hc [Hiff _].
    destruct (proj1 (Hiff "k"%string "t"%string)) as (item & Hi & _).
    - exists ["k"%string]. split; [exact Ht|by left].
    - rewrite Hc in Hi. discriminate. }
  split; [|split].
  - split.
    + eapply (TagIndexInv_single _ _ "k" "t"); by vm_compute.
    + apply Hbroken; by vm_compute.
  - split; [|split].
    + eapply (TagIndexInv_single _ _ "k" "t"); by vm_compute.
    + by vm_compute.
    + apply Hbroken; by vm_compute.
  - split.
    + eapply (TagIndexInv_single _ _ "k" "t"); by vm_compute.
    + intros [Hiff _].
      destruct (proj2 (Hiff "k"%string "t"%string)) as (ks & Hk & _).
      * eexists. split; [by vm_compute|by left].
      * vm_compute in Hk. discriminate.
Qed.

(** C4: a backend that throws.  The store serves one call and then
    loses its connection.  [set("k", true)] goes through; after it
    [set("j", true)], [delete("k")] and [get("k")] each catch the
    backend error and emit [error]; [get] answers [undefined], but [set]
    and [delete] answer [this], as they do on success, not false. *)
Theorem backend_failure_returns_this :
  let o := options 1000 0 false in
  let s1 := snd (set flaky o "k" yes None [] None 10 10 10 (freshFlaky 1)) in
  let w := set flaky o "j" yes None [] None 20 20 20 s1 in
  let d := delete flaky o "k" s1 in
  let g := get flaky o "k" 30 30 30 s1 in
  events s1 = [EvSet "k" (PValue (Json.JBool true))]
  /\ fst w = RThis
  /\ events (snd w) = events s1 ++ [EvError "connection lost"]
  /\ fst d = RThis
  /\ events (snd d) = events s1 ++ [EvError "connection lost"]
  /\ fst g = None
  /\ events (snd g) = events s1 ++ [EvError "connection lost"].
Proof. vm_compute. repeat split. Qed.



Lemma memory_delete_returns :
  forall k st, exists b st', ad_delete memory k st = (Ok b, st').
Proof. intros k st. by eexists _, _. Qed.

Lemma memory_set_returns :
  forall k r st, exists b st', ad_set memory k r st = (Ok b, st').
Proof. intros k r st. by eexists _, _. Qed.

Lemma full_AccessOrderInv : AccessOrderInv full.
Proof.
  unfold AccessOrderInv.
  assert (exists i1 i2,
             cache full = <["b"%string := i2]> (<["a"%string := i1]> ∅))
    as (i1 & i2 & ->) by (eexists _, _; by vm_compute).
  assert (accessOrder full = JsMap.set "b" 20 (JsMap.set "a" 10 []))
    as -> by by vm_compute.
  apply AccessOrderOk_insert; [done|].
  apply AccessOrderOk_insert; [done|]. apply AccessOrderOk_empty.
Qed.



Lemma lru_victim_selection_witness :
  let o := options 2 0 false in
  let s1 := snd (set memory o "k1" yes None [] None 10 10 10 fresh) in
  let s2 := snd (set memory o "k2" no None [] None 10 10 10 s1) in
  let s3 := snd (set memory o "k3" yes None [] None 30 30 30 s2) in
  accessOrder s2 = [("k1"%string, 10); ("k2"%string, 10)]
  /\ LruVictim (accessOrder s2) "k1"
  /\ events (snd (_evictLRU memory s2))
     = events s2 ++ [EvEvicted "k1" PUndefined]
  /\ cache s3 !! "k1"%string = None
  /\ is_Some (cache s3 !! "k2"%string) /\ is_Some (cache s3 !! "k3"%string)
  /\ size (cache s3) = 2%nat.
Proof.
  cbv zeta.
  destruct (lru_victim_selection memory (options 2 0 false)) as [Hscan Hrun].
  split; [by vm_compute|].
  destruct (Hscan (snd (set memory (options 2 0 false) "k2" no None [] None
                          10 10 10
                          (snd (set memory (options 2 0 false) "k1" yes None
                                  [] None 10 10 10 fresh)))))
    as (victim & Hv & Hlru & Hev); [by vm_compute|].
  assert (victim = "k1"%string) as -> by (vm_compute in Hv; congruence).
  split; [exact Hlru|]. split; [by apply Hev|].
  apply (Hrun (∅ : gmap string (option string))
           "k1"%string "k2"%string "k3"%string yes no yes
           (Some "true"%string) (Some "false"%string) (Some "true"%string)
           None None None 10 10 10 10 10 10 30 30 30);
    try done.
  - exact memory_set_returns.
  - exact memory_delete_returns.
Defined.

Lemma hit_rate_accuracy_witness :
  let o := options 1000 0 false in
  let s' := snd (run memory o session fresh) in
  enableStats o = true
  /\ hits (stats fresh) = 0%N /\ misses (stats fresh) = 0%N
  /\ snap_hitRate (getStats memory fresh) = 0%Q
  /\ countHits (fst (run memory o session fresh)) = 2%nat
  /\ countMisses (fst (run memory o session fresh)) = 2%nat
  /\ (snap_hitRate (getStats memory s') == 1 # 2)%Q.
Proof.
  cbv zeta.
  destruct (hit_rate_accuracy memory (options 1000 0 false)) as [Hsnap Hrun].
  split; [done|]. split; [done|]. split; [done|].
  split; [by apply (proj2 (Hsnap fresh))|].
  split; [by vm_compute|]. split; [by vm_compute|].
  destruct (Hrun session fresh eq_refl eq_refl eq_refl) as (_ & _ & Hq).
  etransitivity; [exact Hq|]. by vm_compute.
Defined.

Lemma undefined_serialization_never_hits_witness :
  let o := options 1000 0 false in
  let s1 := snd (set memory o "k" None None [] None 10 10 10 fresh) in
  let g := get memory o "k" 20 20 20 s1 in
  Json.stringify None = Ok None
  /\ is_Some (cache s1 !! "k"%string)
  /\ fst g = None
  /\ misses (stats (snd g)) = 1%N /\ hits (stats (snd g)) = 0%N
  /\ cache (snd g) !! "k"%string = None
  /\ JsMap.get "k" (accessOrder (snd g)) = None.
Proof.
  cbv zeta. split; [done|]. split; [eexists; by vm_compute|].
  destruct (undefined_serialization_never_hits (options 1000 0 false)
              "k" None None [] None 10 10 10 20 20 20 fresh I eq_refl)
    as (Hv & Hm & Hh & Hc & Ha).
  split; [exact Hv|]. split; [exact Hm|]. split; [exact Hh|].
  split; [exact Hc|exact Ha].
Defined.

End Examples.

(** * Properties of the rest of the class *)

Import EasyCacheRest.

(** ** Key sets *)

Lemma JsSet_delete_In key k ks :
  In k (JsSet.delete key ks) <-> In k ks /\ k <> key.
Proof.
  induction ks as [|k' ks IH]; simpl; [tauto|].
  destruct (String.eqb_spec key k') as [Heq|Hne]; simpl; rewrite IH.
  - subst k'. split; [tauto|]. intros [[Hk|Hk] Hn]; [congruence|tauto].
  - split; [|tauto]. intros [Hk|[Hk Hn]]; [|tauto].
    subst k'. split; [tauto|congruence].
Qed.

Lemma JsSet_delete_absent key ks : ~ In key ks -> JsSet.delete key ks = ks.
Proof.
  induction ks as [|k' ks IH]; simpl; [done|]. intros Hn.
  destruct (String.eqb_spec key k') as [Heq|Hne]; [subst; tauto|].
  f_equal. apply IH. tauto.
Qed.

Lemma JsSet_add_In key k ks :
  In k (JsSet.add key ks) <-> In k ks \/ k = key.
Proof.
  unfold JsSet.add, JsSet.has.
  destruct (existsb (String.eqb key) ks) eqn:E.
  - apply existsb_exists in E as (x & Hx & Hk).
    apply String.eqb_eq in Hk. subst x.
    split; [tauto|]. intros [Hk|Hk]; [done|by subst].
  - rewrite in_app_iff. simpl. split; [|intros [?|?]; [tauto|subst; tauto]].
    intros [?|[?|[]]]; [tauto|by right].
Qed.

Lemma JsSet_add_nonempty key ks : JsSet.add key ks <> [].
Proof.
  intros Hq. assert (In key (JsSet.add key ks)) as Hin
    by (apply JsSet_add_In; by right).
  rewrite Hq in Hin. destruct Hin.
Qed.

(** ** The tag index *)

Lemma Listed_delete tm tag k t :
  Listed (base.delete tag tm) k t <-> Listed tm k t /\ t <> tag.
Proof.
  unfold Listed. split.
  - intros (ks & Hks & Hin). apply lookup_delete_Some in Hks as [Hne Hks].
    split; [by exists ks|congruence].
  - intros [(ks & Hks & Hin) Hne]. exists ks. split; [|done].
    apply lookup_delete_Some. split; [congruence|done].
Qed.

Lemma Listed_insert tm tag ks k t :
  Listed (<[tag := ks]> tm) k t
  <-> (t = tag /\ In k ks) \/ (t <> tag /\ Listed tm k t).
Proof.
  unfold Listed. split.
  - intros (ks' & Hks & Hin).
    apply lookup_insert_Some in Hks as [[Heq Hk]|[Hne Hks]].
    + subst. by left.
    + right. split; [congruence|by exists ks'].
  - intros [[Heq Hin]|[Hne (ks' & Hks & Hin)]].
    + subst. exists ks. split; [apply lookup_insert_eq|done].
    + exists ks'. split; [|done]. rewrite lookup_insert_ne; [done|congruence].
Qed.

Lemma untag_listed key tm tag k t :
  Listed (untag key tm tag) k t
  <-> Listed tm k t /\ ~ (k = key /\ t = tag).
Proof.
  unfold untag. destruct (tm !! tag) as [ks|] eqn:Hks.
  - destruct (JsSet.size (JsSet.delete key ks) =? 0) eqn:Hz.
    + rewrite Listed_delete. split.
      * intros [Hl Hne]. split; [done|]. intros [_ Ht]. done.
      * intros [Hl Hn]. split; [done|]. intros Ht. subst t.
        destruct Hl as (ks' & Hks' & Hin). rewrite Hks in Hks'.
        injection Hks' as <-.
        apply Z.eqb_eq in Hz. unfold JsSet.size in Hz.
        destruct (JsSet.delete key ks) as [|x l] eqn:Hd; [|simpl in Hz; lia].
        assert (~ In k (JsSet.delete key ks)) as Hno by (rewrite Hd; tauto).
        rewrite JsSet_delete_In in Hno.
        destruct (decide (k = key)) as [Hk|Hk]; [tauto|tauto].
    + rewrite Listed_insert, JsSet_delete_In. split.
      * intros [[Ht [Hin Hne]]|[Hne Hl]].
        -- subst t. split; [by exists ks|]. tauto.
        -- split; [done|]. tauto.
      * intros [Hl Hn]. destruct (decide (t = tag)) as [Ht|Ht]; [|tauto].
        subst t. left. split; [done|].
        destruct Hl as (ks' & Hks' & Hin). rewrite Hks in Hks'.
        injection Hks' as <-. split; [done|]. intros Hk. tauto.
  - split; [|tauto]. intros Hl. split; [done|]. intros [_ Ht]. subst t.
    destruct Hl as (ks' & Hks' & _). congruence.
Qed.

Lemma untag_noempty key tm tag : NoEmptyTag tm -> NoEmptyTag (untag key tm tag).
Proof.
  unfold untag, NoEmptyTag. intros Hne t ks'.
  destruct (tm !! tag) as [ks|] eqn:Hks; [|apply Hne].
  destruct (JsSet.size (JsSet.delete key ks) =? 0) eqn:Hz.
  - intros Hl. apply lookup_delete_Some in Hl as [_ Hl]. by eapply Hne.
  - intros Hl. apply lookup_insert_Some in Hl as [[_ Hq]|[_ Hl]];
      [|by eapply Hne].
    subst ks'. intros Hq. rewrite Hq in Hz. done.
Qed.

Lemma untagAll_listed key itemTags tm k t :
  Listed (untagAll key itemTags tm) k t
  <-> Listed tm k t /\ ~ (k = key /\ In t itemTags).
Proof.
  unfold untagAll. revert tm.
  induction itemTags as [|tag rest IH]; intros tm; simpl; [tauto|].
  rewrite IH, untag_listed. split.
  - intros [[Hl Hn1] Hn2]. split; [done|]. intros [Hk [Ht|Ht]]; [apply Hn1; by split|apply Hn2; by split].
  - intros [Hl Hn]. split; [split; [done|]|]; intros [Hk Ht]; apply Hn;
      (split; [done|]); [by left|by right].
Qed.

Lemma untagAll_noempty key itemTags tm :
  NoEmptyTag tm -> NoEmptyTag (untagAll key itemTags tm).
Proof.
  unfold untagAll. revert tm.
  induction itemTags as [|tag rest IH]; intros tm Hne; simpl; [done|].
  apply IH. by apply untag_noempty.
Qed.

Lemma Tagged_delete (metadata : gmap string CacheItem) key k t :
  Tagged (base.delete key metadata) k t <-> Tagged metadata k t /\ k <> key.
Proof.
  unfold Tagged. split.
  - intros (item & Hi & Hin). apply lookup_delete_Some in Hi as [Hne Hi].
    split; [by exists item|congruence].
  - intros [(item & Hi & Hin) Hne]. exists item. split; [|done].
    apply lookup_delete_Some. split; [congruence|done].
Qed.

Lemma Tagged_insert (metadata : gmap string CacheItem) key item k t :
  Tagged (<[key := item]> metadata) k t
  <-> (k = key /\ In t (tags item)) \/ (k <> key /\ Tagged metadata k t).
Proof.
  unfold Tagged. split.
  - intros (item' & Hi & Hin).
    apply lookup_insert_Some in Hi as [[Heq Hk]|[Hne Hi]].
    + subst. by left.
    + right. split; [congruence|by exists item'].
  - intros [[Heq Hin]|[Hne (item' & Hi & Hin)]].
    + subst. exists item. split; [apply lookup_insert_eq|done].
    + exists item'. split; [|done].
      rewrite lookup_insert_ne; [done|congruence].
Qed.

Section TagIndexProps.
Context {Value Raw : Type} (A : Adapter Raw) (opts : Options Value Raw).
Implicit Types s : Engine Value A.

Lemma TagIndexInv_split s :
  TagIndexInv s
  <-> (forall k t, Listed (tagsMap s) k t <-> Tagged (cache s) k t)
      /\ NoEmptyTag (tagsMap s).
Proof. reflexivity. Qed.

Lemma TagIndexInv_ext s s' :
  cache s' = cache s -> tagsMap s' = tagsMap s ->
  TagIndexInv s -> TagIndexInv s'.
Proof. unfold TagIndexInv. intros -> ->. done. Qed.

Lemma TagIndexBut_ext key s s' :
  cache s' = cache s -> tagsMap s' = tagsMap s ->
  TagIndexBut A key s -> TagIndexBut A key s'.
Proof. unfold TagIndexBut. intros -> ->. done. Qed.

(** *** What the stages of delete change *)

Lemma StorageOnly_refl s : StorageOnly s s.
Proof. by repeat split. Qed.

Lemma StorageOnly_trans s1 s2 s3 :
  StorageOnly s1 s2 -> StorageOnly s2 s3 -> StorageOnly s1 s3.
Proof.
  intros (H1 & H2 & H3 & H4 & H5 & H6) (G1 & G2 & G3 & G4 & G5 & G6).
  repeat split; congruence.
Qed.

Lemma deleteBegin_spec key s :
  StorageOnly s (snd (deleteBegin A key s))
  /\ match fst (deleteBegin A key s) with
     | Some pd => pd_key pd = key /\ cache s !! key = Some (pd_item pd)
     | None => cache s !! key = None /\ snd (deleteBegin A key s) = s
     end.
Proof.
  unfold deleteBegin. destruct (cache s !! key) as [item|] eqn:Hc.
  - destruct (ad_get A key (storage s)) as [r st]. simpl.
    split; [by repeat split|]. by split.
  - simpl. split; [apply StorageOnly_refl|done].
Qed.

Lemma deleteStorage_spec pd s : StorageOnly s (snd (deleteStorage A pd s)).
Proof.
  unfold deleteStorage. destruct (ad_delete A (pd_key pd) (storage s)).
  by repeat split.
Qed.

Lemma deleteStorage_reliable pd s :
  (forall k st, exists b st', ad_delete A k st = (Ok b, st')) ->
  exists b, fst (deleteStorage A pd s) = Ok b.
Proof.
  intros Hd. unfold deleteStorage.
  destruct (Hd (pd_key pd) (storage s)) as (b & st' & ->). by exists b.
Qed.

Lemma beginAll_spec keys s :
  StorageOnly s (snd (beginAll A keys s))
  /\ (forall pd, In pd (fst (beginAll A keys s)) ->
        In (pd_key pd) keys /\ cache s !! pd_key pd = Some (pd_item pd))
  /\ (forall k, In k keys -> is_Some (cache s !! k) ->
        exists pd, In pd (fst (beginAll A keys s)) /\ pd_key pd = k).
Proof.
  revert s. induction keys as [|key rest IH]; intros s; simpl.
  - split; [apply StorageOnly_refl|]. split; [tauto|tauto].
  - destruct (deleteBegin_spec key s) as [Hf Hpd].
    destruct (deleteBegin A key s) as [pd s1]. simpl in Hf, Hpd.
    destruct (IH s1) as (Hf1 & Hin & Hall).
    destruct (beginAll A rest s1) as [pds s2]. simpl in Hf1, Hin, Hall.
    assert (cache s1 = cache s) as Hc by apply Hf.
    simpl. split; [by eapply StorageOnly_trans|]. split.
    + intros p Hp. destruct pd as [p0|].
      * destruct Hp as [<-|Hp].
        -- destruct Hpd as [Hk Hi]. rewrite Hk. split; [by left|done].
        -- destruct (Hin p Hp) as [? Hi]. rewrite Hc in Hi. tauto.
      * destruct (Hin p Hp) as [? Hi]. rewrite Hc in Hi. tauto.
    + intros k [<-|Hk] Hsome.
      * destruct pd as [p0|].
        -- exists p0. split; [by left|tauto].
        -- destruct Hpd as [Hn _]. rewrite Hn in Hsome.
           by destruct Hsome.
      * rewrite <- Hc in Hsome. destruct (Hall k Hk Hsome) as (p & Hp & Hpk).
        exists p. split; [|done]. destruct pd; [by right|done].
Qed.

Lemma storageAll_spec pds s :
  StorageOnly s (snd (storageAll A pds s))
  /\ map fst (fst (storageAll A pds s)) = pds
  /\ ((forall k st, exists b st', ad_delete A k st = (Ok b, st')) ->
      forall pr, In pr (fst (storageAll A pds s)) -> exists b, snd pr = Ok b).
Proof.
  revert s. induction pds as [|pd rest IH]; intros s; simpl.
  - split; [apply StorageOnly_refl|]. split; [done|]. intros _ pr [].
  - pose proof (deleteStorage_spec pd s) as Hf.
    pose proof (deleteStorage_reliable pd s) as Hr.
    destruct (deleteStorage A pd s) as [r s1]. simpl in Hf, Hr.
    destruct (IH s1) as (Hf1 & Hm & Hok).
    destruct (storageAll A rest s1) as [rs s2]. simpl in *.
    split; [by eapply StorageOnly_trans|]. split; [by f_equal|].
    intros Hd pr [<-|Hp]; [by apply Hr|by apply Hok].
Qed.

(** *** deleteFinish and the tag index *)

Lemma deleteFinish_ok_tags pd b s :
  tagsMap (deleteFinish A opts pd (Ok b) s)
  = untagAll (pd_key pd) (tags (pd_item pd)) (tagsMap s).
Proof.
  unfold deleteFinish, countIfEnabled, emit.
  by destruct (enableStats opts).
Qed.

Lemma deleteFinish_ok_timers pd b s :
  timers (deleteFinish A opts pd (Ok b) s) = base.delete (pd_key pd) (timers s).
Proof.
  unfold deleteFinish, countIfEnabled, emit.
  by destruct (enableStats opts).
Qed.

Lemma deleteFinish_index pd r s k t :
  cache s !! pd_key pd = Some (pd_item pd) \/ cache s !! pd_key pd = None ->
  (Listed (tagsMap s) k t <-> Tagged (cache s) k t) ->
  (Listed (tagsMap (deleteFinish A opts pd r s)) k t
   <-> Tagged (cache (deleteFinish A opts pd r s)) k t).
Proof.
  intros Hpd Hkt. destruct r as [b|e]; [|done].
  destruct (deleteFinish_ok A opts pd b s) as (Hc & _).
  rewrite Hc, deleteFinish_ok_tags, untagAll_listed, Tagged_delete, Hkt.
  split.
  - intros [Ht Hn]. split; [done|]. intros Hk. apply Hn. split; [done|].
    subst k. destruct Ht as (item & Hi & Hin).
    destruct Hpd as [Hpd|Hpd]; congruence.
  - intros [Ht Hn]. split; [done|]. tauto.
Qed.

Lemma deleteFinish_noempty pd r s :
  NoEmptyTag (tagsMap s) -> NoEmptyTag (tagsMap (deleteFinish A opts pd r s)).
Proof.
  destruct r as [b|e]; [|done].
  rewrite deleteFinish_ok_tags. apply untagAll_noempty.
Qed.

Lemma deleteFinish_TagIndexInv pd r s :
  cache s !! pd_key pd = Some (pd_item pd) \/ cache s !! pd_key pd = None ->
  TagIndexInv s -> TagIndexInv (deleteFinish A opts pd r s).
Proof.
  intros Hpd [Hl Hne]%TagIndexInv_split. apply TagIndexInv_split. split.
  - intros k t. exact (deleteFinish_index pd r s k t Hpd (Hl k t)).
  - by apply deleteFinish_noempty.
Qed.

Lemma deleteFinish_TagIndexBut key pd r s :
  pd_key pd <> key ->
  cache s !! pd_key pd = Some (pd_item pd) \/ cache s !! pd_key pd = None ->
  TagIndexBut A key s -> TagIndexBut A key (deleteFinish A opts pd r s).
Proof.
  intros Hne Hpd (Hl & Hk & Hno). split; [|split].
  - intros k t Hkk. exact (deleteFinish_index pd r s k t Hpd (Hl k t Hkk)).
  - intros t. destruct r as [b|e]; [|apply Hk].
    rewrite deleteFinish_ok_tags, untagAll_listed. intros [Hx _].
    by apply (Hk t).
  - by apply deleteFinish_noempty.
Qed.

Lemma delete_TagIndexInv key s :
  TagIndexInv s -> TagIndexInv (snd (delete A opts key s)).
Proof.
  intros Hinv.
  destruct (delete_cases A opts key s)
    as [[_ ->]|(pd & r & s1 & Hi & Hk & Hc & _ & _ & Ht & _ & _ & _ & ->)];
    [done|].
  simpl. apply deleteFinish_TagIndexInv.
  - left. rewrite Hc, Hk. done.
  - by apply (TagIndexInv_ext s).
Qed.

Lemma finishAll_TagIndexInv rs (s0 s : Engine Value A) :
  (forall pr, In pr rs ->
     cache s0 !! pd_key (fst pr) = Some (pd_item (fst pr))) ->
  cache s ⊆ cache s0 ->
  TagIndexInv s -> TagIndexInv (finishAll A opts rs s).
Proof.
  unfold finishAll. revert s.
  induction rs as [|[pd r] rest IH]; intros s Hrs Hsub Hinv; simpl; [done|].
  apply IH.
  - intros pr Hp. apply Hrs. by right.
  - etransitivity; [|exact Hsub].
    apply (Shrunk_deleteFinish A opts pd r s).
  - apply deleteFinish_TagIndexInv; [|done].
    destruct (cache s !! pd_key pd) as [item|] eqn:Hi; [|by right].
    left. pose proof (Hrs (pd, r) (or_introl eq_refl)) as H0. simpl in H0.
    pose proof (lookup_weaken _ _ _ _ Hi Hsub) as H1. congruence.
Qed.

Lemma finishAll_subseteq rs s : cache (finishAll A opts rs s) ⊆ cache s.
Proof.
  unfold finishAll. revert s.
  induction rs as [|[pd r] rest IH]; intros s; simpl; [done|].
  etransitivity; [apply IH|]. apply (Shrunk_deleteFinish A opts pd r s).
Qed.

Lemma finishAll_other rs s k :
  (forall pr, In pr rs -> pd_key (fst pr) <> k) ->
  cache (finishAll A opts rs s) !! k = cache s !! k.
Proof.
  revert s. induction rs as [|[pd r] rest IH]; intros s Hall; [done|].
  change (finishAll A opts ((pd, r) :: rest) s)
    with (finishAll A opts rest (deleteFinish A opts pd r s)).
  rewrite IH; [|intros pr Hp; apply Hall; by right].
  destruct r as [b|e]; [|done].
  destruct (deleteFinish_ok A opts pd b s) as (-> & _).
  apply lookup_delete_ne. apply (Hall (pd, Ok b)). by left.
Qed.

Lemma finishAll_gone rs s k :
  (forall pr, In pr rs -> exists b, snd pr = Ok b) ->
  (exists pr, In pr rs /\ pd_key (fst pr) = k) ->
  cache (finishAll A opts rs s) !! k = None.
Proof.
  revert s. induction rs as [|[pd r] rest IH]; intros s Hok.
  - by intros (pr & [] & _).
  - change (finishAll A opts ((pd, r) :: rest) s)
      with (finishAll A opts rest (deleteFinish A opts pd r s)).
    intros (pr & [<-|Hp] & Hk).
    + destruct (Hok (pd, r) (or_introl eq_refl)) as [b Hb]. simpl in Hb.
      subst r. destruct (deleteFinish_ok A opts pd b s) as (Hc & _).
      eapply lookup_weaken_None; [|apply finishAll_subseteq].
      simpl in Hk. rewrite Hc, <- Hk. apply lookup_delete_eq.
    + apply IH; [intros pr' Hp'; apply Hok; by right|by exists pr].
Qed.
End TagIndexProps.

Section TagIndexCalls.
Context {Value Raw : Type} (A : Adapter Raw) (opts : Options Value Raw).
Implicit Types s : Engine Value A.

Lemma deleteMultiple_spec keys s :
  let s' := snd (deleteMultiple A opts keys s) in
  (TagIndexInv s -> TagIndexInv s')
  /\ cache s' ⊆ cache s
  /\ (forall k, ~ In k keys -> cache s' !! k = cache s !! k)
  /\ ((forall k st, exists b st', ad_delete A k st = (Ok b, st')) ->
      forall k, In k keys -> cache s' !! k = None).
Proof.
  unfold deleteMultiple.
  destruct (beginAll_spec A keys s) as (Hf1 & Hpds & Hall).
  destruct (beginAll A keys s) as [pds s1]. simpl in Hf1, Hpds, Hall.
  destruct (storageAll_spec A pds s1) as (Hf2 & Hm & Hok).
  destruct (storageAll A pds s1) as [rs s2]. simpl in Hf2, Hm, Hok.
  assert (cache s2 = cache s) as Hc.
  { destruct Hf1 as [H1 _], Hf2 as [H2 _]. congruence. }
  assert (tagsMap s2 = tagsMap s) as Ht.
  { destruct Hf1 as (_ & _ & _ & H1 & _), Hf2 as (_ & _ & _ & H2 & _).
    congruence. }
  assert (forall pr, In pr rs ->
            In (pd_key (fst pr)) keys
            /\ cache s !! pd_key (fst pr) = Some (pd_item (fst pr))) as Hrs.
  { intros pr Hp. apply Hpds. rewrite <- Hm. by apply in_map. }
  simpl. split; [|split; [|split]].
  - intros Hinv. apply (finishAll_TagIndexInv A opts rs s).
    + intros pr Hp. by apply Hrs.
    + by rewrite Hc.
    + by apply (TagIndexInv_ext A s).
  - rewrite <- Hc. apply finishAll_subseteq.
  - intros k Hk. rewrite finishAll_other, Hc; [done|].
    intros pr Hp Hq. apply Hk. rewrite <- Hq. by apply Hrs.
  - intros Hd k Hk. destruct (cache s !! k) as [item|] eqn:Hi.
    + apply finishAll_gone; [by apply Hok|].
      destruct (Hall k Hk) as (pd & Hp & Hpk); [by rewrite Hi|].
      rewrite <- Hm in Hp. apply in_map_iff in Hp as (pr & Hq & Hp).
      exists pr. split; [done|]. by rewrite Hq.
    + eapply lookup_weaken_None; [|apply finishAll_subseteq].
      by rewrite Hc.
Qed.

Lemma _evictLRU_spec s :
  cache (snd (_evictLRU A s)) = cache s
  /\ tagsMap (snd (_evictLRU A s)) = tagsMap s
  /\ accessOrder (snd (_evictLRU A s)) = accessOrder s
  /\ timers (snd (_evictLRU A s)) = timers s
  /\ forall pd, fst (_evictLRU A s) = Some pd ->
       cache s !! pd_key pd = Some (pd_item pd).
Proof.
  unfold _evictLRU.
  destruct (JsMap.size (accessOrder s) =? 0); [by repeat split|].
  destruct (scanOldest (accessOrder s) None None) as [k|]; [|by repeat split].
  destruct (truthyKey k); [|by repeat split].
  destruct (deleteBegin_spec A k s) as [(Hc & Hti & Ha & Ht & _) Hpd].
  destruct (deleteBegin A k s) as [pd s1]. simpl in *.
  repeat split; try done.
  intros p ->. destruct Hpd as [<- Hi]. done.
Qed.

Lemma untagExisting_TagIndexBut key s :
  TagIndexInv s ->
  TagIndexBut A key
    (match cache s !! key with
     | Some existingItem =>
         withTagsMap A (untagAll key (tags existingItem)) s
     | None => s
     end).
Proof.
  intros [Hl Hne]%TagIndexInv_split.
  destruct (cache s !! key) as [item|] eqn:Hi.
  - split; [|split].
    + intros k t Hk.
      change (Listed (untagAll key (tags item) (tagsMap s)) k t
              <-> Tagged (cache s) k t).
      rewrite untagAll_listed. specialize (Hl k t). tauto.
    + intros t.
      change (~ Listed (untagAll key (tags item) (tagsMap s)) key t).
      rewrite untagAll_listed. intros [Hx Hn]. apply Hn.
      split; [done|]. apply Hl in Hx as (item' & Hi' & Hin). congruence.
    + change (NoEmptyTag (untagAll key (tags item) (tagsMap s))).
      by apply untagAll_noempty.
  - split; [|split]; [intros k t _; apply Hl| |done].
    intros t Hx. apply Hl in Hx as (item' & Hi' & _). congruence.
Qed.

Lemma tagStep_nocap key s tag :
  maxEntriesPerTag opts tag = None ->
  tagStep A opts key s tag
  = withTagsMap A
      (insert tag (JsSet.add key (match tagsMap s !! tag with
                                  | Some ks => ks
                                  | None => []
                                  end))) s.
Proof. unfold tagStep. by intros ->. Qed.

Lemma tagLoop_nocap key itemTags s :
  (forall tag, In tag itemTags -> maxEntriesPerTag opts tag = None) ->
  let s' := fold_left (tagStep A opts key) itemTags s in
  (cache s' = cache s /\ timers s' = timers s
   /\ accessOrder s' = accessOrder s /\ stats s' = stats s
   /\ storage s' = storage s /\ events s' = events s)
  /\ (forall k t,
        Listed (tagsMap s') k t
        <-> Listed (tagsMap s) k t \/ (k = key /\ In t itemTags))
  /\ (NoEmptyTag (tagsMap s) -> NoEmptyTag (tagsMap s')).
Proof.
  revert s. induction itemTags as [|tag rest IH]; intros s Hno; simpl.
  - split; [by repeat split|]. split; [tauto|done].
  - rewrite tagStep_nocap; [|apply Hno; by left].
    destruct (IH (withTagsMap A
                    (insert tag (JsSet.add key (match tagsMap s !! tag with
                                                | Some ks => ks
                                                | None => []
                                                end))) s))
      as (Hf & Hl & Hne); [intros t Ht; apply Hno; by right|].
    split; [exact Hf|]. split.
    + intros k t. rewrite Hl. simpl. rewrite Listed_insert, JsSet_add_In.
      assert (In k (match tagsMap s !! tag with
                    | Some ks => ks
                    | None => []
                    end) <-> Listed (tagsMap s) k tag) as Hks.
      { unfold Listed. destruct (tagsMap s !! tag) as [ks|].
        - split; [intros ?; by exists ks|]. by intros (ks' & [= <-] & ?).
        - split; [intros []|]. by intros (ks' & [=] & _). }
      rewrite Hks. destruct (decide (t = tag)) as [->|Hne'].
      * split; [|tauto]. intros [[[_ [?|?]]|[? _]]|[? ?]]; tauto.
      * split.
        -- intros [[[? _]|[_ ?]]|[? ?]]; try tauto.
        -- intros [?|[? [?|?]]]; try tauto. congruence.
    + intros Hn. apply Hne. simpl. intros t ks Hk.
      apply lookup_insert_Some in Hk as [[_ <-]|[_ Hk]];
        [apply JsSet_add_nonempty|by eapply Hn].
Qed.

Lemma setCommit_nocap key value itemTags eff expiry tC tA s :
  (forall tag, In tag itemTags -> maxEntriesPerTag opts tag = None) ->
  let s' := setCommit A opts key value itemTags eff expiry tC tA s in
  cache s'
  = <[key := {| createdAt := tC; expiresAt := expiry;
                accessCount := 0; tags := itemTags |}]> (cache s)
  /\ accessOrder s' = JsMap.set key tA (accessOrder s)
  /\ storage s' = storage s
  /\ (forall k t,
        Listed (tagsMap s') k t
        <-> Listed (tagsMap s) k t \/ (k = key /\ In t itemTags))
  /\ (NoEmptyTag (tagsMap s) -> NoEmptyTag (tagsMap s')).
Proof.
  intros Hno. unfold setCommit.
  destruct (tagLoop_nocap key itemTags
              (withAccessOrder A (JsMap.set key tA)
                 (withCache A
                    (insert key {| createdAt := tC; expiresAt := expiry;
                                   accessCount := 0; tags := itemTags |}) s))
              Hno) as ((Hc & _ & Ha & _ & Hs & _) & Hl & Hne).
  cbv zeta.
  destruct (eff >? 0); unfold countIfEnabled; destruct (enableStats opts);
    simpl; rewrite ?Hc, ?Ha, ?Hs;
    (split; [done|]; split; [done|]; split; [done|];
     split; [exact Hl|exact Hne]).
Qed.

Lemma setCommit_TagIndexInv key value itemTags eff expiry tC tA s :
  (forall tag, In tag itemTags -> maxEntriesPerTag opts tag = None) ->
  TagIndexBut A key s ->
  let s' := setCommit A opts key value itemTags eff expiry tC tA s in
  TagIndexInv s'
  /\ forall tag, Listed (tagsMap s') key tag <-> In tag itemTags.
Proof.
  intros Hno (Hl & Hk & Hne).
  destruct (setCommit_nocap key value itemTags eff expiry tC tA s Hno)
    as (Hc & _ & _ & Hl' & Hne').
  cbv zeta. split.
  - apply TagIndexInv_split. split; [|by apply Hne'].
    intros k t. rewrite Hl', Hc, Tagged_insert. simpl.
    destruct (decide (k = key)) as [->|Hkk].
    + split; [|tauto]. intros [Hx|?]; [|tauto]. by apply Hk in Hx.
    + rewrite (Hl k t Hkk). tauto.
  - intros tag. rewrite Hl'. split; [|tauto].
    intros [Hx|?]; [|tauto]. by apply Hk in Hx.
Qed.

Lemma setWrite_TagIndexInv key value itemTags eff expiry tC tA pr s raw :
  serialize opts value = Ok raw ->
  (forall k r st, exists b st', ad_set A k r st = (Ok b, st')) ->
  (forall tag, In tag itemTags -> maxEntriesPerTag opts tag = None) ->
  (forall pd r, pr = Some (pd, r) ->
     pd_key pd <> key /\ cache s !! pd_key pd = Some (pd_item pd)) ->
  TagIndexBut A key s ->
  let s' := snd (setWrite A opts key value itemTags eff expiry tC tA pr s) in
  TagIndexInv s'
  /\ forall tag, Listed (tagsMap s') key tag <-> In tag itemTags.
Proof.
  intros Hser Hset Hno Hpr Hbut. unfold setWrite. rewrite Hser.
  destruct (Hset key raw (storage s)) as (b & st' & ->). cbv zeta.
  apply setCommit_TagIndexInv; [done|].
  destruct pr as [[pd r]|]; simpl.
  - destruct (Hpr pd r eq_refl) as [Hne Hi].
    apply deleteFinish_TagIndexBut; [done|by left|].
    by apply (TagIndexBut_ext A key s).
  - by apply (TagIndexBut_ext A key s).
Qed.

Lemma set_TagIndexInv key value ttl itemTags condition tE tC tA s raw :
  serialize opts value = Ok raw ->
  (forall k r st, exists b st', ad_set A k r st = (Ok b, st')) ->
  (forall tag, In tag itemTags -> maxEntriesPerTag opts tag = None) ->
  TagIndexInv s ->
  let s' := snd (set A opts key value ttl itemTags condition tE tC tA s) in
  TagIndexInv s'
  /\ (match condition with
      | Some c => c key value = Ok true
      | None => True
      end ->
      forall tag, Listed (tagsMap s') key tag <-> In tag itemTags).
Proof.
  intros Hser Hset Hno Hinv. unfold set.
  assert (exists res,
            match condition with
            | Some c => c key value
            | None => Ok true
            end = res) as [res Hres] by by eexists.
  rewrite Hres.
  destruct res as [[|]|e].
  2:{ simpl. split; [done|]. destruct condition; [congruence|done]. }
  2:{ simpl. split; [done|]. destruct condition; [congruence|done]. }
  pose proof (untagExisting_TagIndexBut key s Hinv) as Hbut.
  set (s1 := match cache s !! key with
             | Some existingItem =>
                 withTagsMap A (untagAll key (tags existingItem)) s
             | None => s
             end) in *.
  assert (cache s1 = cache s) as Hc1
    by (subst s1; by destruct (cache s !! key)).
  cbv zeta.
  destruct ((Z.of_nat (size (cache s1)) >=? maxSize opts)
            && negb (bool_decide (is_Some (cache s1 !! key)))) eqn:Hcap.
  - apply andb_true_iff in Hcap as [_ Hfresh].
    apply negb_true_iff, bool_decide_eq_false in Hfresh.
    destruct (_evictLRU_spec s1) as (Hc & Ht & _ & _ & Hpd).
    destruct (_evictLRU A s1) as [pd s2]. simpl in Hc, Ht, Hpd.
    assert (TagIndexBut A key s2) as Hb2 by by apply (TagIndexBut_ext A key s1).
    destruct pd as [p|]; simpl.
    + pose proof (deleteStorage_spec A p s2) as (Hc3 & _ & _ & Ht3 & _).
      destruct (deleteStorage A p s2) as [r s3]. simpl in Hc3, Ht3.
      split; [|intros _];
        eapply (setWrite_TagIndexInv key value itemTags _ _ tC tA
                  (Some (p, r)) (withTimers A (base.delete key) s3) raw);
        try done;
        try (intros pd0 r0 [= <- <-]; simpl; rewrite Hc3, Hc;
             split; [|by apply Hpd];
             intros Hq; apply Hfresh; rewrite <- Hq, (Hpd p eq_refl);
             by eexists);
        by apply (TagIndexBut_ext A key s2).
    + split; [|intros _];
        eapply (setWrite_TagIndexInv key value itemTags _ _ tC tA
                  None (withTimers A (base.delete key) s2) raw);
        try done; by apply (TagIndexBut_ext A key s2).
  - simpl. split; [|intros _];
      eapply (setWrite_TagIndexInv key value itemTags _ _ tC tA
                None (withTimers A (base.delete key) s1) raw);
      try done; by apply (TagIndexBut_ext A key s1).
Qed.

Lemma touch_spec key ttl now s :
  match cache s !! key with
  | None => touch A key ttl now s = (RBool false, s)
  | Some item =>
      let s' := snd (touch A key ttl now s) in
      fst (touch A key ttl now s) = RThis
      /\ cache s'
         = <[key := {| createdAt := createdAt item;
                       expiresAt :=
                         if ttl >? 0 then Some (now + ttl) else None;
                       accessCount := accessCount item;
                       tags := tags item |}]> (cache s)
      /\ timers s'
         = (if ttl >? 0
            then <[key := {| delay := ttl; origin := ArmedByGet;
                             reported := PUndefined |}]>
                   (base.delete key (timers s))
            else base.delete key (timers s))
      /\ tagsMap s' = tagsMap s /\ accessOrder s' = accessOrder s
      /\ storage s' = storage s /\ stats s' = stats s
      /\ events s' = events s
  end.
Proof.
  unfold touch. destruct (cache s !! key) as [item|]; [|done].
  destruct (ttl >? 0); simpl; by repeat split.
Qed.
End TagIndexCalls.

Section TagIndexTheorems.
Context {Value Raw : Type} (A : Adapter Raw) (opts : Options Value Raw).
Implicit Types s : Engine Value A.

(** X1: [delete] keeps the tag index right, whatever the backend does,
    and touches the metadata of no other key; when the backend's
    deletions return, the key is left with no metadata and is listed
    under no tag. *)
Theorem delete_keeps_tag_index key s :
  TagIndexInv s ->
  let s' := snd (delete A opts key s) in
  TagIndexInv s'
  /\ (forall k, k <> key -> cache s' !! k = cache s !! k)
  /\ ((forall k st, exists b st', ad_delete A k st = (Ok b, st')) ->
      cache s' !! key = None /\ forall tag, ~ Listed (tagsMap s') key tag).
Proof.
  intros Hinv. cbv zeta.
  pose proof (delete_TagIndexInv A opts key s Hinv) as Hinv'.
  split; [done|].
  assert ((forall k st, exists b st', ad_delete A k st = (Ok b, st')) ->
          cache (snd (delete A opts key s)) !! key = None) as Hgone.
  { intros Hd.
    destruct (delete_cases A opts key s)
      as [[Hn ->]|(pd & r & s1 & Hi & Hk & Hc & _ & _ & _ & _ & _
                   & [st Hr] & ->)]; [done|].
    destruct (Hd key st) as (b & st' & Hq). rewrite Hq in Hr.
    simpl in Hr. subst r. cbn [snd].
    destruct (deleteFinish_ok A opts pd b s1) as (-> & _).
    rewrite Hk. apply lookup_delete_eq. }
  split.
  - intros k Hk.
    destruct (delete_cases A opts key s)
      as [[Hn ->]|(pd & r & s1 & Hi & Hpk & Hc & _ & _ & _ & _ & _
                   & _ & ->)]; [done|].
    cbn [snd]. destruct r as [b|e]; [|by rewrite <- Hc].
    destruct (deleteFinish_ok A opts pd b s1) as (-> & _).
    rewrite Hpk, Hc. by apply lookup_delete_ne.
  - intros Hd. split; [by apply Hgone|].
    intros tag Hl. apply TagIndexInv_split in Hinv' as [Hl' _].
    apply Hl' in Hl as (item & Hi & _). rewrite (Hgone Hd) in Hi. done.
Qed.

(** X2: the deletions that [deleteMultiple] starts together keep the tag
    index right and leave the metadata of every key that was not asked
    for as it was; when the backend's deletions return, none of the keys
    asked for keeps metadata, whether the key occurs once or several
    times in the list. *)
Theorem deleteMultiple_removes_keys keys s :
  let s' := snd (deleteMultiple A opts keys s) in
  (TagIndexInv s -> TagIndexInv s')
  /\ (forall k, ~ In k keys -> cache s' !! k = cache s !! k)
  /\ ((forall k st, exists b st', ad_delete A k st = (Ok b, st')) ->
      forall k, In k keys -> cache s' !! k = None).
Proof.
  cbv zeta. destruct (deleteMultiple_spec A opts keys s) as (H1 & _ & H3 & H4).
  done.
Qed.

(** X3: [deleteByTag] on a state whose tag index is right, over a
    backend whose deletions return: it answers true exactly when the tag
    is known; afterwards the tag is gone from the index, every key that
    carried the tag has lost its metadata, every other key keeps its
    metadata, and the tag index is right again. *)
Theorem deleteByTag_clears_tag tag s :
  (forall k st, exists b st', ad_delete A k st = (Ok b, st')) ->
  TagIndexInv s ->
  let r := deleteByTag A opts tag s in
  fst r = RBool (bool_decide (is_Some (tagsMap s !! tag)))
  /\ TagIndexInv (snd r)
  /\ tagsMap (snd r) !! tag = None
  /\ (forall k, Tagged (cache s) k tag -> cache (snd r) !! k = None)
  /\ (forall k, ~ Tagged (cache s) k tag ->
        cache (snd r) !! k = cache s !! k).
Proof.
  intros Hd Hinv. cbv zeta. unfold deleteByTag.
  pose proof Hinv as [Hl Hne]%TagIndexInv_split.
  destruct (tagsMap s !! tag) as [ks|] eqn:Hks.
  - destruct (deleteMultiple_spec A opts ks s) as (H1 & H2 & H3 & H4).
    destruct (deleteMultiple A opts ks s) as [r0 s']. cbn [fst snd] in *.
    assert (forall k, Tagged (cache s) k tag -> cache s' !! k = None) as Hgone.
    { intros k Hk. apply Hl in Hk as (ks' & Hks' & Hin).
      apply (H4 Hd). congruence. }
    split; [|split; [by apply H1|split; [|split; [done|]]]].
    + rewrite bool_decide_eq_true_2; [|by eexists]. f_equal.
      apply Z.gtb_lt. destruct ks; [by apply Hne in Hks|simpl; lia].
    + destruct (tagsMap s' !! tag) as [ks'|] eqn:Hks'; [|done].
      exfalso. pose proof (H1 Hinv) as [Hl' Hne']%TagIndexInv_split.
      destruct ks' as [|k ks']; [by apply Hne' in Hks'|].
      assert (Listed (tagsMap s') k tag) as Hx
        by (exists (k :: ks'); split; [done|by left]).
      apply Hl' in Hx as (item & Hi & Hin).
      assert (Tagged (cache s) k tag) as Hold.
      { exists item. split; [|done]. by eapply lookup_weaken. }
      rewrite (Hgone k Hold) in Hi. done.
    + intros k Hk. apply H3. intros Hin. apply Hk, Hl. by exists ks.
  - cbn [fst snd]. split; [|split; [done|split; [done|split; [|done]]]].
    + rewrite bool_decide_eq_false_2; [done|]. by intros [? ?].
    + intros k Hk. apply Hl in Hk as (ks' & Hks' & _). congruence.
Qed.

(** X4: a [set] whose value serializes, over a backend whose writes
    return and with no [maxEntriesPerTag] limit on the tags it is given,
    keeps the tag index right; and when it gets to write, the key is
    afterwards listed under exactly the tags of this call: the tags of an
    earlier [set] of the key are gone. *)
Theorem set_replaces_tags key value ttl itemTags condition tE tC tA s raw :
  serialize opts value = Ok raw ->
  (forall k r st, exists b st', ad_set A k r st = (Ok b, st')) ->
  (forall tag, In tag itemTags -> maxEntriesPerTag opts tag = None) ->
  TagIndexInv s ->
  let s' := snd (set A opts key value ttl itemTags condition tE tC tA s) in
  TagIndexInv s'
  /\ (match condition with
      | Some c => c key value = Ok true
      | None => True
      end ->
      (forall tag, Listed (tagsMap s') key tag <-> In tag itemTags)
      /\ (forall tag, Tagged (cache s') key tag <-> In tag itemTags)).
Proof.
  intros Hser Hset Hno Hinv. cbv zeta.
  destruct (set_TagIndexInv A opts key value ttl itemTags condition
              tE tC tA s raw Hser Hset Hno Hinv) as [Hinv' Htags].
  split; [done|]. intros Hc. split; [by apply Htags|].
  intros tag. rewrite <- (Htags Hc tag).
  apply TagIndexInv_split in Hinv' as [Hl _]. symmetry. apply Hl.
Qed.

End TagIndexTheorems.

(** ** Statistics and notifications *)

Section LedgerProps.
Context {Value Raw : Type} (A : Adapter Raw) (opts : Options Value Raw).
Implicit Types s : Engine Value A.

Local Abbreviation Quiet s s' := (exists added, Ledger A opts s s' added 0 0).

Lemma countEvents_app (p : Event Value Raw -> bool) l1 l2 :
  countEvents p (l1 ++ l2) = (countEvents p l1 + countEvents p l2)%N.
Proof. unfold countEvents. rewrite filter_app, length_app. lia. Qed.

Lemma countEvents_nil (p : Event Value Raw -> bool) : countEvents p [] = 0%N.
Proof. reflexivity. Qed.

Lemma countEvents_single (p : Event Value Raw -> bool) e :
  countEvents p [e] = if p e then 1%N else 0%N.
Proof.
  unfold countEvents. rewrite filter_cons, filter_nil.
  case_decide as Hp; destruct (p e); done.
Qed.

Lemma capacityEvictions_single (e : Event Value Raw) :
  capacityEvictions [e] = if isCapacityEviction e then 1%nat else 0%nat.
Proof.
  unfold capacityEvictions. rewrite filter_cons, filter_nil.
  case_decide as Hp; destruct (isCapacityEviction e); done.
Qed.

Lemma Ledger_refl s : Ledger A opts s s [] 0 0.
Proof.
  unfold Ledger, bump. split; [by rewrite app_nil_r|]. split; [|done].
  rewrite !countEvents_nil. change (capacityEvictions []) with 0%nat.
  destruct (stats s). destruct (enableStats opts); simpl; f_equal; lia.
Qed.

Lemma Ledger_same s s' :
  events s' = events s -> stats s' = stats s -> Ledger A opts s s' [] 0 0.
Proof.
  intros He Hs. destruct (Ledger_refl s) as (H1 & H2 & H3).
  split; [congruence|]. split; [congruence|done].
Qed.

Lemma Ledger_trans s1 s2 s3 a1 a2 m1 m2 d1 d2 :
  Ledger A opts s1 s2 a1 m1 d1 -> Ledger A opts s2 s3 a2 m2 d2 ->
  Ledger A opts s1 s3 (a1 ++ a2) (m1 + m2) (d1 + d2).
Proof.
  intros (E1 & S1 & D1) (E2 & S2 & D2). split; [|split].
  - by rewrite E2, E1, app_assoc.
  - rewrite S2, S1. unfold bump. destruct (stats s1).
    destruct (enableStats opts); simpl; f_equal;
      rewrite ?countEvents_app, ?capacityEvictions_app; lia.
  - rewrite countEvents_app. lia.
Qed.

Lemma Quiet_trans s1 s2 s3 : Quiet s1 s2 -> Quiet s2 s3 -> Quiet s1 s3.
Proof.
  intros [a1 H1] [a2 H2]. exists (a1 ++ a2).
  apply (Ledger_trans s1 s2 s3 a1 a2 0 0 0 0 H1 H2).
Qed.

Lemma Quiet_same s s' :
  events s' = events s -> stats s' = stats s -> Quiet s s'.
Proof. intros. exists []. by apply Ledger_same. Qed.

Lemma Quiet_StorageOnly s s' : StorageOnly s s' -> Quiet s s'.
Proof. intros (_ & _ & _ & _ & Hs & He). by apply Quiet_same. Qed.

Lemma Quiet_error e s : Quiet s (emit A (EvError e) s).
Proof.
  exists [EvError e]. unfold Ledger, bump, emit.
  rewrite ?countEvents_single, ?capacityEvictions_single. split; [done|].
  split; [|done]. simpl. destruct (stats s).
  destruct (enableStats opts); simpl; f_equal; cbn; lia.
Qed.

Lemma Quiet_clearEv s0 s :
  events s = events s0 -> stats s = stats s0 -> Quiet s0 (emit A EvClear s).
Proof.
  intros He Hs. exists [EvClear]. unfold Ledger, bump, emit.
  rewrite ?countEvents_single, ?capacityEvictions_single.
  split; [simpl; by rewrite He|]. split; [|done]. simpl. rewrite Hs.
  destruct (stats s0). destruct (enableStats opts); simpl; f_equal; cbn; lia.
Qed.

Lemma Quiet_deleteEv s0 s key p :
  events s = events s0 -> stats s = stats s0 ->
  Quiet s0 (emit A (EvDelete key p) (countIfEnabled A opts incDeletes s)).
Proof.
  intros He Hs. exists [EvDelete key p].
  unfold Ledger, bump, emit, countIfEnabled.
  rewrite ?countEvents_single, ?capacityEvictions_single.
  destruct (enableStats opts); simpl; rewrite He, Hs;
    (split; [done|]; split; [|done]); destruct (stats s0); simpl;
    unfold incDeletes; simpl; f_equal; cbn; lia.
Qed.

Lemma Quiet_setEv s0 s key p :
  events s = events s0 -> stats s = stats s0 ->
  Quiet s0 (emit A (EvSet key p) (countIfEnabled A opts incSets s)).
Proof.
  intros He Hs. exists [EvSet key p].
  unfold Ledger, bump, emit, countIfEnabled.
  rewrite ?countEvents_single, ?capacityEvictions_single.
  destruct (enableStats opts); simpl; rewrite He, Hs;
    (split; [done|]; split; [|done]); destruct (stats s0); simpl;
    unfold incSets; simpl; f_equal; cbn; lia.
Qed.

Lemma Quiet_tagEvicted s0 s key :
  events s = events s0 -> stats s = stats s0 ->
  Quiet s0 (emit A (EvEvicted key PNull)
              (countIfEnabled A opts incEvictions s)).
Proof.
  intros He Hs. exists [EvEvicted key PNull].
  unfold Ledger, bump, emit, countIfEnabled.
  rewrite ?countEvents_single, ?capacityEvictions_single.
  destruct (enableStats opts); simpl; rewrite He, Hs;
    (split; [done|]; split; [|done]); destruct (stats s0); simpl;
    unfold incEvictions; simpl; f_equal; cbn; lia.
Qed.

Lemma Quiet_capacityEvicted s0 s key :
  events s = events s0 -> stats s = stats s0 ->
  Quiet s0 (emit A (EvEvicted key PUndefined) (withStats A incEvictions s)).
Proof.
  intros He Hs. exists [EvEvicted key PUndefined].
  unfold Ledger, bump, emit.
  rewrite ?countEvents_single, ?capacityEvictions_single.
  destruct (enableStats opts); simpl; rewrite He, Hs;
    (split; [done|]; split; [|done]); destruct (stats s0); simpl;
    unfold incEvictions; simpl; f_equal; cbn; lia.
Qed.

Lemma Quiet_deleteFinish pd r s : Quiet s (deleteFinish A opts pd r s).
Proof.
  destruct r as [b|e]; [|apply Quiet_error].
  unfold deleteFinish. by apply Quiet_deleteEv.
Qed.

Lemma Quiet_delete key s : Quiet s (snd (delete A opts key s)).
Proof.
  destruct (delete_cases A opts key s)
    as [[_ ->]|(pd & r & s1 & _ & _ & _ & _ & _ & _ & Hs & He & _ & ->)].
  - exists []. apply Ledger_refl.
  - eapply Quiet_trans; [by apply (Quiet_same s s1)|].
    apply Quiet_deleteFinish.
Qed.

Lemma Quiet_finishAll rs s : Quiet s (finishAll A opts rs s).
Proof.
  revert s. induction rs as [|[pd r] rest IH]; intros s.
  - exists []. apply Ledger_refl.
  - eapply Quiet_trans; [apply (Quiet_deleteFinish pd r s)|apply IH].
Qed.

Lemma Quiet_deleteMultiple keys s :
  Quiet s (snd (deleteMultiple A opts keys s)).
Proof.
  unfold deleteMultiple.
  destruct (beginAll_spec A keys s) as (Hf1 & _).
  destruct (beginAll A keys s) as [pds s1]. simpl in Hf1.
  destruct (storageAll_spec A pds s1) as (Hf2 & _).
  destruct (storageAll A pds s1) as [rs s2]. simpl in Hf2. simpl.
  eapply Quiet_trans; [by apply Quiet_StorageOnly|].
  eapply Quiet_trans; [by apply Quiet_StorageOnly|].
  apply Quiet_finishAll.
Qed.

Lemma Quiet_deleteByTag tag s : Quiet s (snd (deleteByTag A opts tag s)).
Proof.
  unfold deleteByTag. destruct (tagsMap s !! tag) as [ks|].
  - pose proof (Quiet_deleteMultiple ks s) as Hq.
    by destruct (deleteMultiple A opts ks s).
  - exists []. apply Ledger_refl.
Qed.

Lemma Quiet__evictLRU s : Quiet s (snd (_evictLRU A s)).
Proof.
  unfold _evictLRU.
  destruct (JsMap.size (accessOrder s) =? 0); [exists []; apply Ledger_refl|].
  destruct (scanOldest (accessOrder s) None None) as [k|];
    [|exists []; apply Ledger_refl].
  destruct (truthyKey k); [|exists []; apply Ledger_refl].
  destruct (deleteBegin_spec A k s) as [(_ & _ & _ & _ & Hs & He) _].
  destruct (deleteBegin A k s) as [pd s1]. simpl in *.
  by apply Quiet_capacityEvicted.
Qed.

Lemma Quiet_pendingStorage pd s : Quiet s (snd (pendingStorage A pd s)).
Proof.
  destruct pd as [p|]; simpl; [|exists []; apply Ledger_refl].
  pose proof (deleteStorage_spec A p s) as Hf.
  destruct (deleteStorage A p s) as [r s1]. by apply Quiet_StorageOnly.
Qed.

Lemma Quiet_pendingFinish pr s : Quiet s (pendingFinish A opts pr s).
Proof.
  destruct pr as [[p r]|]; simpl;
    [apply Quiet_deleteFinish|exists []; apply Ledger_refl].
Qed.

Lemma Quiet_tagStep key s tag : Quiet s (tagStep A opts key s tag).
Proof.
  unfold tagStep.
  set (s1 := withTagsMap A _ s).
  assert (Quiet s s1) as H1 by by apply Quiet_same.
  destruct (maxEntriesPerTag opts tag) as [m|]; [|done].
  destruct (truthyZ m && _); [|done].
  destruct (scanOldestTagged A s1 _ None None) as [k|]; [|done].
  destruct (truthyKey k); [|done].
  pose proof (Quiet_delete k s1) as H2.
  destruct (delete A opts k s1) as [r s2]. simpl in H2.
  eapply Quiet_trans; [exact H1|]. eapply Quiet_trans; [exact H2|].
  by apply Quiet_tagEvicted.
Qed.

Lemma Quiet_tagLoop key itemTags s :
  Quiet s (fold_left (tagStep A opts key) itemTags s).
Proof.
  revert s. induction itemTags as [|tag rest IH]; intros s; simpl.
  - exists []. apply Ledger_refl.
  - eapply Quiet_trans; [apply Quiet_tagStep|apply IH].
Qed.

Lemma Quiet_setCommit key value itemTags eff expiry tC tA s :
  Quiet s (setCommit A opts key value itemTags eff expiry tC tA s).
Proof.
  unfold setCommit.
  set (s1 := withAccessOrder A _ (withCache A _ s)).
  pose proof (Quiet_tagLoop key itemTags s1) as H2.
  set (s2 := fold_left _ itemTags s1) in *.
  eapply Quiet_trans; [by apply (Quiet_same s s1)|].
  eapply Quiet_trans; [exact H2|].
  cbv zeta. apply Quiet_setEv; by destruct (eff >? 0).
Qed.

Lemma Quiet_setWrite key value itemTags eff expiry tC tA pr s :
  Quiet s (snd (setWrite A opts key value itemTags eff expiry tC tA pr s)).
Proof.
  unfold setWrite. destruct (serialize opts value) as [raw|e]; simpl.
  - destruct (ad_set A key raw (storage s)) as [r st]. cbv zeta.
    set (s1 := withStorage A st s).
    pose proof (Quiet_pendingFinish pr s1) as H2.
    assert (Quiet s (pendingFinish A opts pr s1)) as H3.
    { eapply Quiet_trans; [by apply (Quiet_same s s1)|exact H2]. }
    destruct r as [b|e]; simpl.
    + eapply Quiet_trans; [exact H3|apply Quiet_setCommit].
    + eapply Quiet_trans; [exact H3|apply Quiet_error].
  - eapply Quiet_trans; [apply Quiet_error|apply Quiet_pendingFinish].
Qed.

Lemma Quiet_set key value ttl itemTags condition tE tC tA s :
  Quiet s (snd (set A opts key value ttl itemTags condition tE tC tA s)).
Proof.
  unfold set.
  destruct (match condition with
            | Some c => c key value
            | None => Ok true
            end) as [[|]|e]; simpl;
    [|exists []; apply Ledger_refl|apply Quiet_error].
  set (s1 := match cache s !! key with
             | Some existingItem =>
                 withTagsMap A (untagAll key (tags existingItem)) s
             | None => s
             end).
  assert (Quiet s s1) as H1.
  { subst s1. destruct (cache s !! key); [by apply Quiet_same|].
    exists []. apply Ledger_refl. }
  assert (exists pd s2,
            (if (Z.of_nat (size (cache s1)) >=? maxSize opts)
                && negb (bool_decide (is_Some (cache s1 !! key)))
             then _evictLRU A s1 else (None, s1)) = (pd, s2)
            /\ Quiet s1 s2) as (pd & s2 & -> & H2).
  { destruct ((Z.of_nat (size (cache s1)) >=? maxSize opts)
              && negb (bool_decide (is_Some (cache s1 !! key)))).
    - pose proof (Quiet__evictLRU s1) as Hq.
      destruct (_evictLRU A s1) as [pd s2]. by exists pd, s2.
    - exists None, s1. split; [done|]. exists []. apply Ledger_refl. }
  pose proof (Quiet_pendingStorage pd s2) as H3.
  destruct (pendingStorage A pd s2) as [pr s3]. simpl in H3.
  eapply Quiet_trans; [exact H1|]. eapply Quiet_trans; [exact H2|].
  eapply Quiet_trans; [exact H3|].
  eapply Quiet_trans; [|apply Quiet_setWrite]. by apply Quiet_same.
Qed.

Lemma Quiet_clear s : Quiet s (snd (clear A s)).
Proof.
  unfold clear. destruct (ad_clear A (storage s)) as [[b|e] st]; simpl.
  - by apply Quiet_clearEv.
  - eapply Quiet_trans; [|apply Quiet_error]. by apply Quiet_same.
Qed.

Lemma Quiet_has key now s : Quiet s (snd (has A opts key now s)).
Proof.
  unfold has. destruct (cache s !! key) as [item|];
    [|exists []; apply Ledger_refl].
  destruct (isExpired item now).
  - pose proof (Quiet_delete key s) as Hq.
    by destruct (delete A opts key s).
  - destruct (ad_has A key (storage s)) as [[[|]|e] st]; simpl;
      by apply Quiet_same.
Qed.

(** A [get] that ends in a miss. *)
Lemma Ledger_missed s s1 added :
  Ledger A opts (countIfEnabled A opts incTotalAccesses s) s1 added 0 0 ->
  Ledger A opts s (countIfEnabled A opts incMisses s1) added 1 1.
Proof.
  unfold Ledger, bump, countIfEnabled. intros (He & Hs & Hd).
  destruct (enableStats opts); simpl in *.
  - split; [done|]. split; [|lia]. rewrite Hs. destruct (stats s).
    unfold incMisses, incTotalAccesses. simpl. f_equal; lia.
  - split; [done|]. split; [|lia]. done.
Qed.

(** A [get] that ends in a hit. *)
Lemma Ledger_hit s s1 key p :
  events s1 = events s ->
  stats s1 = stats (countIfEnabled A opts incTotalAccesses s) ->
  Ledger A opts s
    (emit A (EvGet key p) (countIfEnabled A opts incHits s1))
    [EvGet key p] 0 1.
Proof.
  unfold Ledger, bump, emit, countIfEnabled.
  rewrite ?countEvents_single, ?capacityEvictions_single. intros He Hs.
  destruct (enableStats opts); simpl in *; rewrite He, Hs;
    (split; [done|]; split; [|done]); destruct (stats s); simpl;
    unfold incHits, incTotalAccesses; simpl; f_equal; cbn; lia.
Qed.

Lemma Ledger_get key t1 t2 t3 s :
  exists added dm,
    Ledger A opts s (snd (get A opts key t1 t2 t3 s)) added dm 1.
Proof.
  unfold get.
  set (s0 := countIfEnabled A opts incTotalAccesses s).
  cbv zeta.
  destruct (cache s0 !! key) as [item|].
  2:{ exists [], 1%N. apply Ledger_missed. apply Ledger_refl. }
  destruct (isExpired item t1).
  { destruct (Quiet_delete key s0) as [added Hq].
    destruct (delete A opts key s0) as [r s1]. simpl in Hq.
    exists added, 1%N. by apply Ledger_missed. }
  destruct (ad_get A key (storage s0)) as [r st].
  set (s1 := withStorage A st s0).
  destruct (match r with
            | Ok (Some raw) => deserialize opts raw
            | Ok None => Ok None
            | Throw e => Throw e
            end) as [[v|]|e]; simpl.
  - exists [EvGet key (PValue v)], 0%N. unfold getHit.
    apply Ledger_hit.
    + destruct (expiresAt item) as [e|];
        [destruct (slidingTTL opts && truthyZ e)|];
        apply (countIfEnabled_events A opts).
    + destruct (expiresAt item) as [e|];
        [destruct (slidingTTL opts && truthyZ e)|]; reflexivity.
  - exists [], 1%N. apply Ledger_missed. by apply Ledger_same.
  - destruct (Quiet_error e s1) as [added Hq].
    exists added, 1%N. apply Ledger_missed.
    destruct Hq as (He & Hs & Hd). split; [exact He|]. split; [exact Hs|done].
Qed.

Lemma Ledger_call c s :
  exists added dm da, Ledger A opts s (snd (call A opts c s)) added dm da.
Proof.
  destruct c as [key value ttl itemTags condition tE tC tA
                |key t1 t2 t3|key now|key|tag|]; simpl.
  - destruct (Quiet_set key value ttl itemTags condition tE tC tA s)
      as [added Hq].
    destruct (set A opts key value ttl itemTags condition tE tC tA s).
    by exists added, 0%N, 0%N.
  - destruct (Ledger_get key t1 t2 t3 s) as (added & dm & Hq).
    destruct (get A opts key t1 t2 t3 s). by exists added, dm, 1%N.
  - destruct (Quiet_has key now s) as [added Hq].
    destruct (has A opts key now s). by exists added, 0%N, 0%N.
  - destruct (Quiet_delete key s) as [added Hq].
    destruct (delete A opts key s). by exists added, 0%N, 0%N.
  - destruct (Quiet_deleteByTag tag s) as [added Hq].
    destruct (deleteByTag A opts tag s). by exists added, 0%N, 0%N.
  - destruct (Quiet_clear s) as [added Hq].
    destruct (clear A s). by exists added, 0%N, 0%N.
Qed.

Lemma Ledger_run calls s :
  exists added dm da, Ledger A opts s (snd (run A opts calls s)) added dm da.
Proof.
  revert s. induction calls as [|c rest IH]; intros s; simpl.
  - exists [], 0%N, 0%N. apply Ledger_refl.
  - destruct (Ledger_call c s) as (a1 & m1 & d1 & H1).
    destruct (call A opts c s) as [ans s1]. simpl in H1.
    destruct (IH s1) as (a2 & m2 & d2 & H2).
    destruct (run A opts rest s1) as [answers s2]. simpl in H2. simpl.
    exists (a1 ++ a2), (m1 + m2)%N, (d1 + d2)%N.
    by eapply Ledger_trans.
Qed.

(** X6: with statistics enabled, after any sequence of calls of [set],
    [get], [has], [delete], [deleteByTag] and [clear] on a fresh engine
    (and as long as no timer has fired), the counters agree with the
    notifications: [hits] is the number of [get] events, [sets] that of
    [set] events, [deletes] that of [delete] events, [evictions] that of
    [evicted] events, and every access is a hit or a miss. *)
Theorem stats_agree_with_events calls st :
  enableStats opts = true ->
  let s' := snd (run A opts calls (create Value A st)) in
  hits (stats s') = countEvents isGetEvent (events s')
  /\ sets (stats s') = countEvents isSetEvent (events s')
  /\ deletes (stats s') = countEvents isDeleteEvent (events s')
  /\ evictions (stats s') = countEvents isEvictedEvent (events s')
  /\ totalAccesses (stats s') = (hits (stats s') + misses (stats s'))%N.
Proof.
  intros Hen. cbv zeta.
  destruct (Ledger_run calls (create Value A st))
    as (added & dm & da & He & Hs & Hd).
  rewrite Hs, He. unfold bump. rewrite Hen. simpl.
  repeat split; lia.
Qed.

(** X7: with statistics disabled, the same sequences of calls leave
    every counter at 0 except [evictions]: [_evictLRU] counts without
    consulting [enableStats], so [evictions] is the number of capacity
    evictions announced. *)
Theorem stats_disabled_still_count_evictions calls st :
  enableStats opts = false ->
  let s' := snd (run A opts calls (create Value A st)) in
  hits (stats s') = 0%N /\ misses (stats s') = 0%N
  /\ sets (stats s') = 0%N /\ deletes (stats s') = 0%N
  /\ totalAccesses (stats s') = 0%N
  /\ evictions (stats s') = N.of_nat (capacityEvictions (events s')).
Proof.
  intros Hen. cbv zeta.
  destruct (Ledger_run calls (create Value A st))
    as (added & dm & da & He & Hs & Hd).
  rewrite Hs, He. unfold bump. rewrite Hen. simpl.
  repeat split; lia.
Qed.
End LedgerProps.

(** ** The access order, over any backend *)

Section AccessOrderProps.
Context {Value Raw : Type} (A : Adapter Raw) (opts : Options Value Raw).
Implicit Types s : Engine Value A.

Lemma pendingStorage_spec pd s :
  StorageOnly s (snd (pendingStorage A pd s)).
Proof.
  destruct pd as [p|]; simpl; [|apply StorageOnly_refl].
  pose proof (deleteStorage_spec A p s) as Hf.
  by destruct (deleteStorage A p s) as [r st].
Qed.

Lemma set_AccessOrderInv key value ttl itemTags condition tE tC tA s :
  key <> EmptyString -> AccessOrderInv s ->
  AccessOrderInv
    (snd (set A opts key value ttl itemTags condition tE tC tA s)).
Proof.
  intros Hk Hinv. unfold set.
  destruct (match condition with
            | Some c => c key value
            | None => Ok true
            end) as [[|]|e]; simpl; [|done|done].
  set (s1 := match cache s !! key with
             | Some existingItem =>
                 withTagsMap A (untagAll key (tags existingItem)) s
             | None => s
             end).
  assert (AccessOrderInv s1) as H1
    by (subst s1; by destruct (cache s !! key)).
  assert (exists pd s2,
            (if (Z.of_nat (size (cache s1)) >=? maxSize opts)
                && negb (bool_decide (is_Some (cache s1 !! key)))
             then _evictLRU A s1 else (None, s1)) = (pd, s2)
            /\ AccessOrderInv s2) as (pd & s2 & -> & H2).
  { destruct ((Z.of_nat (size (cache s1)) >=? maxSize opts)
              && negb (bool_decide (is_Some (cache s1 !! key)))).
    - destruct (_evictLRU_spec A s1) as (Hc & _ & Ha & _).
      destruct (_evictLRU A s1) as [pd s2]. exists pd, s2.
      split; [done|]. by apply (AccessOrderInv_ext A s1).
    - by exists None, s1. }
  destruct (pendingStorage_spec pd s2) as (Hc & _ & Ha & _).
  destruct (pendingStorage A pd s2) as [pr s3]. simpl in Hc, Ha.
  apply setWrite_spec; [done|].
  apply (AccessOrderInv_ext A s2); done.
Qed.

Lemma call_AccessOrderInv c s :
  wellKeyed c -> AccessOrderInv s -> AccessOrderInv (snd (call A opts c s)).
Proof.
  destruct c as [key value ttl itemTags condition tE tC tA
                |key t1 t2 t3|key now|key|tag|]; simpl; intros Hk Hinv.
  - pose proof (set_AccessOrderInv key value ttl itemTags condition
                  tE tC tA s Hk Hinv) as Hq.
    by destruct (set A opts key value ttl itemTags condition tE tC tA s).
  - pose proof (NoGrowth_get A opts key t1 t2 t3 s) as [_ Hq].
    destruct (get A opts key t1 t2 t3 s). by apply Hq.
  - pose proof (NoGrowth_has A opts key now s) as [_ Hq].
    destruct (has A opts key now s). by apply Hq.
  - pose proof (Shrunk_delete A opts key s) as (_ & Hq & _).
    destruct (delete A opts key s). by apply Hq.
  - pose proof (NoGrowth_deleteByTag A opts tag s) as [_ Hq].
    destruct (deleteByTag A opts tag s). by apply Hq.
  - pose proof (NoGrowth_clear A s) as [_ Hq].
    destruct (clear A s). by apply Hq.
Qed.

Lemma run_AccessOrderInv calls s :
  Forall wellKeyed calls -> AccessOrderInv s ->
  AccessOrderInv (snd (run A opts calls s)).
Proof.
  revert s. induction calls as [|c rest IH]; intros s Hk Hinv; [done|].
  apply Forall_cons in Hk as [Hc Hrest]. simpl.
  pose proof (call_AccessOrderInv c s Hc Hinv) as H1.
  destruct (call A opts c s) as [a s1].
  pose proof (IH s1 Hrest H1) as H2.
  by destruct (run A opts rest s1).
Qed.

(** X8: whatever the backend answers, and whatever [maxSize] is, a
    sequence of calls of [set] (with non-empty keys), [get], [has],
    [delete], [deleteByTag] and [clear] keeps the access order in step
    with the metadata: a key has a last-access time exactly when it has
    metadata.  A fresh engine starts that way. *)
Theorem access_order_tracks_metadata calls s :
  Forall wellKeyed calls ->
  AccessOrderInv s ->
  let s' := snd (run A opts calls s) in
  forall key,
    JsMap.has key (accessOrder s') = bool_decide (is_Some (cache s' !! key)).
Proof.
  intros Hk Hinv. cbv zeta.
  destruct (run_AccessOrderInv calls s Hk Hinv) as [Hq _].
  intros key. specialize (Hq key). unfold JsMap.has.
  destruct (JsMap.get key _) as [t|].
  - symmetry. apply bool_decide_eq_true_2. apply Hq. by eexists.
  - symmetry. apply bool_decide_eq_false_2. intros Hs.
    apply Hq in Hs as [? ?]. done.
Qed.
End AccessOrderProps.

(** ** Writing and reading back, over the in-memory backend *)

Section MemoryRoundTrip.
Context {Value Raw : Type} (opts : Options Value Raw).

Local Abbreviation Mem := (MemoryAdapter.adapter Raw).

Implicit Types (s : Engine Value Mem) (key : string).

(** What a [set] that got to write leaves for its key, when no limit
    applies to its tags. *)
Lemma set_stores key value ttl itemTags condition tE tC tA s raw :
  match condition with Some c => c key value = Ok true | None => True end ->
  serialize opts value = Ok raw ->
  (forall tag, In tag itemTags -> maxEntriesPerTag opts tag = None) ->
  let s' := snd (set Mem opts key value ttl itemTags condition tE tC tA s) in
  cache s' !! key
  = Some {| createdAt := tC;
            expiresAt := expiresAtOf (effectiveTTLOf opts ttl) tE;
            accessCount := 0; tags := itemTags |}
  /\ (storage s' : gmap string (option Raw)) !! key = Some raw.
Proof.
  intros Hc Hser Hno. cbv zeta. unfold set, setWrite.
  assert (match condition with Some c => c key value | None => Ok true end
          = Ok true) as -> by (destruct condition; done).
  destruct (if _ && _ then _ else _) as [pd s1].
  destruct (pendingStorage Mem pd s1) as [pr s2].
  rewrite Hser. cbn [ad_set MemoryAdapter.adapter MemoryAdapter.set snd].
  set (s3 := pendingFinish Mem opts pr _).
  assert ((storage s3 : gmap string (option Raw)) !! key = Some raw) as Hst.
  { subst s3. rewrite pendingFinish_storage. simpl. apply lookup_insert_eq. }
  destruct (setCommit_nocap Mem opts key value itemTags
              (effectiveTTLOf opts ttl)
              (expiresAtOf (effectiveTTLOf opts ttl) tE) tC tA s3 Hno)
    as (Hcache & _ & Hstore & _).
  rewrite Hcache, Hstore. split; [apply lookup_insert_eq|exact Hst].
Qed.

Lemma get_hits key t1 t2 t3 s item raw v :
  cache s !! key = Some item ->
  isExpired item t1 = false ->
  (storage s : gmap string (option Raw)) !! key = Some (Some raw) ->
  deserialize opts raw = Ok (Some v) ->
  get Mem opts key t1 t2 t3 s
  = (Some v,
     getHit Mem opts key item v t2 t3
       (countIfEnabled Mem opts incTotalAccesses s)).
Proof.
  intros Hi He Hst Hde. unfold get.
  rewrite countIfEnabled_cache, Hi, He.
  cbn [ad_get MemoryAdapter.adapter MemoryAdapter.get].
  rewrite countIfEnabled_storage, Hst, Hde. f_equal. f_equal.
  unfold countIfEnabled. by destruct (enableStats opts), s.
Qed.

Lemma get_expired key t1 t2 t3 s item :
  cache s !! key = Some item ->
  isExpired item t1 = true ->
  let g := get Mem opts key t1 t2 t3 s in
  fst g = None
  /\ cache (snd g) !! key = None
  /\ (storage (snd g) : gmap string (option Raw)) !! key = None
  /\ timers (snd g) !! key = None
  /\ JsMap.get key (accessOrder (snd g)) = None.
Proof.
  intros Hi He. cbv zeta. unfold get.
  rewrite countIfEnabled_cache, Hi, He.
  set (s0 := countIfEnabled Mem opts incTotalAccesses s).
  unfold delete, deleteBegin.
  assert (cache s0 !! key = Some item) as ->
    by (subst s0; by rewrite countIfEnabled_cache).
  cbn [ad_get MemoryAdapter.adapter MemoryAdapter.get].
  unfold deleteStorage.
  cbn [ad_delete MemoryAdapter.adapter MemoryAdapter.delete pd_key storage
         withStorage snd fst].
  match goal with
  | |- context [deleteFinish Mem opts ?pd (Ok ?b) ?x] =>
      destruct (deleteFinish_ok Mem opts pd b x) as (Hc & Ha & _ & Hs);
      pose proof (deleteFinish_ok_timers Mem opts pd b x) as Ht;
      set (s1 := deleteFinish Mem opts pd (Ok b) x) in *
  end.
  cbv zeta in Hc, Ha, Hs. cbn [pd_key] in Hc, Ha, Ht.
  split; [done|].
  rewrite countIfEnabled_cache, countIfEnabled_storage,
    countIfEnabled_timers, countIfEnabled_accessOrder, Hc, Ha, Hs, Ht.
  split; [apply lookup_delete_eq|]. split; [apply lookup_delete_eq|].
  split; [apply lookup_delete_eq|].
  rewrite JsMap_get_delete. by rewrite String.eqb_refl.
Qed.

Lemma isExpired_expiresAtOf eff tE tC ac tg t1 :
  isExpired {| createdAt := tC; expiresAt := expiresAtOf eff tE;
               accessCount := ac; tags := tg |} t1
  = (eff >? 0) && truthyZ (tE + eff) && (t1 >? tE + eff).
Proof.
  unfold isExpired, expiresAtOf. simpl. by destruct (eff >? 0).
Qed.

Lemma set_then_get_value
    key value ttl itemTags condition tE tC tA t1 t2 t3 s raw v :
  match condition with Some c => c key value = Ok true | None => True end ->
  serialize opts value = Ok (Some raw) ->
  deserialize opts raw = Ok (Some v) ->
  (forall tag, In tag itemTags -> maxEntriesPerTag opts tag = None) ->
  (0 < effectiveTTLOf opts ttl -> t1 <= tE + effectiveTTLOf opts ttl) ->
  let s1 := snd (set Mem opts key value ttl itemTags condition tE tC tA s) in
  get Mem opts key t1 t2 t3 s1
  = (Some v,
     getHit Mem opts key
       {| createdAt := tC;
          expiresAt := expiresAtOf (effectiveTTLOf opts ttl) tE;
          accessCount := 0; tags := itemTags |} v t2 t3
       (countIfEnabled Mem opts incTotalAccesses s1)).
Proof.
  intros Hc Hser Hde Hno Httl. cbv zeta.
  destruct (set_stores key value ttl itemTags condition tE tC tA s
              (Some raw) Hc Hser Hno) as [Hi Hst].
  eapply get_hits; [exact Hi| |exact Hst|exact Hde].
  rewrite isExpired_expiresAtOf.
  destruct (effectiveTTLOf opts ttl >? 0) eqn:Hpos; [|done].
  assert ((t1 >? tE + effectiveTTLOf opts ttl) = false) as -> by lia.
  by rewrite andb_false_r.
Qed.

(** X9: on the in-memory backend, a value written by a [set] that got to
    write (no limit applying to its tags) is what a [get] of the key
    returns, decoded, as long as the [get] does not come after the
    expiry: the resolved TTL is not positive, or the clock of the [get]
    is at most that of the [set] plus the TTL.  The hit is announced and
    the access recorded. *)
Theorem set_then_get_round_trip
    key value ttl itemTags condition tE tC tA t1 t2 t3 s raw v :
  match condition with Some c => c key value = Ok true | None => True end ->
  serialize opts value = Ok (Some raw) ->
  deserialize opts raw = Ok (Some v) ->
  (forall tag, In tag itemTags -> maxEntriesPerTag opts tag = None) ->
  (0 < effectiveTTLOf opts ttl -> t1 <= tE + effectiveTTLOf opts ttl) ->
  let s1 := snd (set Mem opts key value ttl itemTags condition tE tC tA s) in
  let g := get Mem opts key t1 t2 t3 s1 in
  fst g = Some v
  /\ events (snd g) = events s1 ++ [EvGet key (PValue v)]
  /\ JsMap.get key (accessOrder (snd g)) = Some t2
  /\ (accessCount <$> cache (snd g) !! key) = Some 1.
Proof.
  intros Hc Hser Hde Hno Httl. cbv zeta.
  rewrite (set_then_get_value key value ttl itemTags condition tE tC tA
             t1 t2 t3 s raw v Hc Hser Hde Hno Httl).
  set (s1 := snd (set Mem opts key value ttl itemTags condition tE tC tA s)).
  cbn [fst snd]. split; [done|]. unfold getHit.
  set (item := {| createdAt := tC; expiresAt := _; accessCount := 0;
                  tags := itemTags |}).
  change (events (emit Mem ?e ?x)) with (events x ++ [e]).
  change (accessOrder (emit Mem ?e ?x)) with (accessOrder x).
  change (cache (emit Mem ?e ?x)) with (cache x).
  rewrite countIfEnabled_events, countIfEnabled_accessOrder,
    countIfEnabled_cache.
  destruct (expiresAt item) as [e|];
    [destruct (slidingTTL opts && truthyZ e)|]; simpl;
    rewrite ?countIfEnabled_events, ?countIfEnabled_accessOrder,
      ?lookup_insert_eq, ?JsMap_get_set, ?String.eqb_refl; done.
Qed.

(** X10: on the in-memory backend, an entry written with a positive
    resolved TTL is gone for a [get] whose clock is past the expiry: the
    [get] returns [undefined] and removes the metadata, the stored value,
    the timer and the access time of the key. *)
Theorem set_then_get_expired
    key value ttl itemTags condition tE tC tA t1 t2 t3 s raw :
  match condition with Some c => c key value = Ok true | None => True end ->
  serialize opts value = Ok raw ->
  (forall tag, In tag itemTags -> maxEntriesPerTag opts tag = None) ->
  0 < effectiveTTLOf opts ttl -> 0 <= tE ->
  tE + effectiveTTLOf opts ttl < t1 ->
  let s1 := snd (set Mem opts key value ttl itemTags condition tE tC tA s) in
  let g := get Mem opts key t1 t2 t3 s1 in
  fst g = None
  /\ cache (snd g) !! key = None
  /\ (storage (snd g) : gmap string (option Raw)) !! key = None
  /\ timers (snd g) !! key = None
  /\ JsMap.get key (accessOrder (snd g)) = None.
Proof.
  intros Hc Hser Hno Hpos HtE Hlate. cbv zeta.
  destruct (set_stores key value ttl itemTags condition tE tC tA s
              raw Hc Hser Hno) as [Hi _].
  eapply get_expired; [exact Hi|].
  rewrite isExpired_expiresAtOf. unfold truthyZ.
  repeat (apply andb_true_iff; split); [lia| |lia].
  apply negb_true_iff. lia.
Qed.

(** X11: [has] and [get] disagree on a value stored as [undefined].  On
    the in-memory backend, after a [set] that got to write a value whose
    serialization is [undefined], [has] answers true and changes nothing
    while the entry has not expired; a [get] returns [undefined] all the
    same, and after that [get] [has] answers false. *)
Theorem has_true_where_get_misses
    key value ttl itemTags condition tE tC tA now t1 t2 t3 now' s :
  match condition with Some c => c key value = Ok true | None => True end ->
  serialize opts value = Ok None ->
  (forall tag, In tag itemTags -> maxEntriesPerTag opts tag = None) ->
  (0 < effectiveTTLOf opts ttl -> now <= tE + effectiveTTLOf opts ttl) ->
  let s1 := snd (set Mem opts key value ttl itemTags condition tE tC tA s) in
  let g := get Mem opts key t1 t2 t3 s1 in
  has Mem opts key now s1 = (true, s1)
  /\ fst g = None
  /\ has Mem opts key now' (snd g) = (false, snd g).
Proof.
  intros Hc Hser Hno Httl. cbv zeta.
  destruct (set_stores key value ttl itemTags condition tE tC tA s
              None Hc Hser Hno) as [Hi Hst].
  pose proof (set_undefined_unreadable opts key value ttl itemTags condition
                tE tC tA s Hc Hser) as Hu.
  set (s1 := snd (set Mem opts key value ttl itemTags condition tE tC tA s))
    in *.
  destruct (get_unreadable opts key t1 t2 t3 s1 Hu) as (Hg & _ & _ & Hgone & _).
  split; [|split; [exact Hg|]].
  - unfold has. rewrite Hi, isExpired_expiresAtOf.
    assert ((effectiveTTLOf opts ttl >? 0)
            && truthyZ (tE + effectiveTTLOf opts ttl)
            && (now >? tE + effectiveTTLOf opts ttl) = false) as ->.
    { destruct (effectiveTTLOf opts ttl >? 0) eqn:Hpos; [|done].
      assert ((now >? tE + effectiveTTLOf opts ttl) = false) as -> by lia.
      by rewrite andb_false_r. }
    cbn [ad_has MemoryAdapter.adapter MemoryAdapter.has]. rewrite Hst.
    f_equal. by destruct s1.
  - unfold has. by rewrite Hgone.
Qed.

(** X12: [getOrSet] loads once.  On the in-memory backend, for a key
    without metadata and a loader that returns a value which serializes
    and decodes, the first call stores and returns the loaded value; a
    second call before the expiry returns the decoded stored value
    whatever its own loader would have returned or thrown.  When the
    loader of the first call throws, the error is reported and rethrown
    and the key stays without metadata. *)
Theorem getOrSet_loads_once
    key v raw v' ttl g1 g2 g3 w1 w2 w3 h1 h2 h3 u1 u2 u3 loaded2 e s :
  cache s !! key = None ->
  serialize opts (Some v) = Ok (Some raw) ->
  deserialize opts raw = Ok (Some v') ->
  (0 < effectiveTTLOf opts ttl -> h1 <= w1 + effectiveTTLOf opts ttl) ->
  let first := getOrSet Mem opts key (Ok (Some v)) ttl g1 g2 g3 w1 w2 w3 s in
  let second :=
    getOrSet Mem opts key loaded2 ttl h1 h2 h3 u1 u2 u3 (snd first) in
  let failed := getOrSet Mem opts key (Throw e) ttl g1 g2 g3 w1 w2 w3 s in
  fst first = Ok (Some v)
  /\ fst second = Ok (Some v')
  /\ fst failed = Throw e
  /\ cache (snd failed) !! key = None
  /\ exists before, events (snd failed) = before ++ [EvError e].
Proof.
  intros Hn Hser Hde Httl. cbv zeta. unfold getOrSet.
  assert (get Mem opts key g1 g2 g3 s
          = (None, countIfEnabled Mem opts incMisses
                     (countIfEnabled Mem opts incTotalAccesses s))) as ->.
  { unfold get. by rewrite countIfEnabled_cache, Hn. }
  set (s0 := countIfEnabled Mem opts incMisses _).
  pose proof (set_then_get_value key (Some v) ttl [] None w1 w2 w3
                h1 h2 h3 s0 raw v' I Hser Hde
                (fun tag (H : In tag []) => match H with end) Httl) as Hget.
  cbv zeta in Hget.
  destruct (set Mem opts key (Some v) ttl [] None w1 w2 w3 s0) as [r sw].
  cbn [fst snd] in *. rewrite Hget. cbn [fst snd].
  split; [done|]. split; [done|]. split; [done|].
  split; [|by eexists].
  change (cache (emit Mem ?x ?y)) with (cache y). subst s0.
  by rewrite !countIfEnabled_cache.
Qed.
End MemoryRoundTrip.

(** ** setMultiple: overlapping writes *)

Section SetMultipleProps.
Context {Value Raw : Type} (A : Adapter Raw) (opts : Options Value Raw).
Implicit Types (s : Engine Value A) (queue : list (Task Value Raw)).

(** The commit of the write of entry [e]. *)
Local Abbreviation commitOf ttl e s :=
  (setCommit A opts (en_key e) (en_value e) [] (effectiveTTLOf opts ttl)
     (expiresAtOf (effectiveTTLOf opts ttl) (en_nowExpiry e))
     (en_nowCreated e) (en_nowAccess e) s).

Lemma queueCost_app queue1 queue2 :
  queueCost (queue1 ++ queue2) = (queueCost queue1 + queueCost queue2)%nat.
Proof. unfold queueCost. by rewrite map_app, list_sum_app. Qed.

Lemma queueCost_length queue : (length queue <= queueCost queue)%nat.
Proof.
  induction queue as [|t rest IH]; [done|].
  change (queueCost (t :: rest)) with (taskCost t + queueCost rest)%nat.
  simpl. destruct t; simpl; lia.
Qed.

Lemma runTask_cost t s :
  (queueCost (fst (runTask A opts t s)) < taskCost t)%nat.
Proof.
  destruct t as [pd|pd r|e ttl|e eff expiry r]; unfold queueCost; simpl.
  - destruct (deleteStorage A pd s). simpl. lia.
  - lia.
  - unfold setResume. destruct (serialize opts (en_value e)); [|simpl; lia].
    destruct (ad_set A (en_key e) _ _). simpl. lia.
  - destruct r; simpl; lia.
Qed.

Lemma runQueue_drains fuel queue s :
  (queueCost queue <= fuel)%nat -> fst (runQueue A opts fuel queue s) = [].
Proof.
  revert queue s. induction fuel as [|fuel IH]; intros queue s Hc.
  - destruct queue as [|t rest]; [done|].
    pose proof (queueCost_length (t :: rest)). simpl in *. lia.
  - destruct queue as [|t rest]; [done|]. simpl.
    pose proof (runTask_cost t s) as Ht.
    destruct (runTask A opts t s) as [more s1]. simpl in Ht.
    apply IH. rewrite queueCost_app.
    change (queueCost (t :: rest)) with (taskCost t + queueCost rest)%nat
      in Hc. lia.
Qed.

Lemma setStart_below ttl e s raw :
  Z.of_nat (size (cache s)) < maxSize opts ->
  (forall k r st, exists b st', ad_set A k r st = (Ok b, st')) ->
  serialize opts (en_value e) = Ok raw ->
  cache (snd (setStart A opts ttl e s)) = cache s
  /\ exists b,
       fst (setStart A opts ttl e s)
       = [TaskSetCommit e (effectiveTTLOf opts ttl)
            (expiresAtOf (effectiveTTLOf opts ttl) (en_nowExpiry e)) (Ok b)].
Proof.
  intros Hlt Hset Hser. unfold setStart.
  set (s0 := match cache s !! en_key e with
             | Some existingItem =>
                 withTagsMap A (untagAll (en_key e) (tags existingItem)) s
             | None => s
             end).
  assert (cache s0 = cache s) as Hc0
    by (subst s0; by destruct (cache s !! en_key e)).
  cbv zeta. rewrite Hc0.
  assert ((Z.of_nat (size (cache s)) >=? maxSize opts) = false) as -> by lia.
  cbn [andb]. unfold setResume. rewrite Hser.
  destruct (Hset (en_key e) raw
              (storage (withTimers A (base.delete (en_key e)) s0)))
    as (b & st' & ->).
  cbn [fst snd]. split; [exact Hc0|by exists b].
Qed.

Lemma startAll_below ttl entries s :
  Z.of_nat (size (cache s)) < maxSize opts ->
  (forall k r st, exists b st', ad_set A k r st = (Ok b, st')) ->
  (forall e, In e entries -> exists raw, serialize opts (en_value e) = Ok raw) ->
  cache (snd (startAll A opts ttl entries s)) = cache s
  /\ Forall2
       (fun e t =>
          exists b,
            t = TaskSetCommit e (effectiveTTLOf opts ttl)
                  (expiresAtOf (effectiveTTLOf opts ttl) (en_nowExpiry e))
                  (Ok b))
       entries (fst (startAll A opts ttl entries s)).
Proof.
  intros Hlt Hset. revert s Hlt.
  induction entries as [|e rest IH]; intros s Hlt Hser; simpl.
  - split; [done|constructor].
  - destruct (Hser e (or_introl eq_refl)) as [raw Hraw].
    destruct (setStart_below ttl e s raw Hlt Hset Hraw) as (Hc & b & Hq).
    destruct (setStart A opts ttl e s) as [tasks s1]. simpl in Hc, Hq.
    destruct (IH s1) as [Hc2 Hf2];
      [by rewrite Hc|intros e' He'; apply Hser; by right|].
    destruct (startAll A opts ttl rest s1) as [more s2]. simpl in Hc2, Hf2.
    simpl. split; [congruence|]. subst tasks. simpl.
    constructor; [by exists b|done].
Qed.

Lemma runQueue_commits ttl entries queue fuel s :
  Forall2
    (fun e t =>
       exists b,
         t = TaskSetCommit e (effectiveTTLOf opts ttl)
               (expiresAtOf (effectiveTTLOf opts ttl) (en_nowExpiry e))
               (Ok b))
    entries queue ->
  (length queue <= fuel)%nat ->
  let s' := snd (runQueue A opts fuel queue s) in
  (forall e, In e entries -> is_Some (cache s' !! en_key e))
  /\ (forall k, (forall e, In e entries -> en_key e <> k) ->
        cache s' !! k = cache s !! k).
Proof.
  intros Hf. revert fuel s.
  induction Hf as [|e t entries queue [b ->] Hf IH]; intros fuel s Hlen.
  - cbv zeta. split; [by intros e []|]. intros k _. by destruct fuel.
  - destruct fuel as [|fuel]; [simpl in Hlen; lia|].
    cbv zeta. simpl. rewrite app_nil_r.
    set (s1 := setCommit A opts (en_key e) (en_value e) []
                 (effectiveTTLOf opts ttl)
                 (expiresAtOf (effectiveTTLOf opts ttl) (en_nowExpiry e))
                 (en_nowCreated e) (en_nowAccess e) s).
    destruct (setCommit_untagged A opts (en_key e) (en_value e)
                (effectiveTTLOf opts ttl)
                (expiresAtOf (effectiveTTLOf opts ttl) (en_nowExpiry e))
                (en_nowCreated e) (en_nowAccess e) s) as [Hc _].
    fold s1 in Hc.
    destruct (IH fuel s1) as [Hin Hout]; [simpl in Hlen; lia|].
    split.
    + intros e' [<-|He']; [|by apply Hin].
      destruct (In_dec String.string_dec (en_key e) (map en_key entries))
        as [Hk|Hk].
      * apply in_map_iff in Hk as (e' & Hq & He'). rewrite <- Hq.
        by apply Hin.
      * rewrite Hout, Hc, lookup_insert_eq; [by eexists|].
        intros e' He' Hq. apply Hk. rewrite <- Hq. by apply in_map.
    + intros k Hk. rewrite Hout; [|intros e' He'; apply Hk; by right].
      rewrite Hc. apply lookup_insert_ne. apply Hk. by left.
Qed.

Lemma commitOf_cache ttl e s :
  cache (commitOf ttl e s)
  = <[en_key e := {| createdAt := en_nowCreated e;
                     expiresAt := expiresAtOf (effectiveTTLOf opts ttl)
                                    (en_nowExpiry e);
                     accessCount := 0; tags := [] |}]> (cache s).
Proof. apply setCommit_untagged. Qed.

Lemma setStart_commit ttl e e' s raw :
  en_key e <> en_key e' ->
  Z.of_nat (size (cache s)) + 1 < maxSize opts ->
  serialize opts (en_value e') = Ok raw ->
  snd (setStart A opts ttl e' (commitOf ttl e s))
  = commitOf ttl e (snd (setStart A opts ttl e' s)).
Proof.
  intros Hne Hlt Hser. unfold setStart. cbv zeta.
  rewrite commitOf_cache, lookup_insert_ne by done.
  set (s0 := match cache s !! en_key e' with
             | Some existingItem =>
                 withTagsMap A (untagAll (en_key e') (tags existingItem)) s
             | None => s
             end).
  assert (match cache s !! en_key e' with
          | Some existingItem =>
              withTagsMap A (untagAll (en_key e') (tags existingItem))
                (commitOf ttl e s)
          | None => commitOf ttl e s
          end = commitOf ttl e s0) as ->.
  { subst s0. destruct (cache s !! en_key e'); [|done].
    unfold setCommit, countIfEnabled. cbn [fold_left].
    by destruct (effectiveTTLOf opts ttl >? 0), (enableStats opts). }
  assert (cache s0 = cache s) as Hc0
    by (subst s0; by destruct (cache s !! en_key e')).
  rewrite commitOf_cache, Hc0.
  assert ((Z.of_nat (size (<[en_key e := {| createdAt := en_nowCreated e;
                     expiresAt := expiresAtOf (effectiveTTLOf opts ttl)
                                    (en_nowExpiry e);
                     accessCount := 0; tags := [] |}]> (cache s)))
           >=? maxSize opts) = false) as ->.
  { rewrite Z.geb_leb. apply Z.leb_gt.
    destruct (cache s !! en_key e) eqn:Hk.
    - erewrite map_size_insert_Some by done. lia.
    - rewrite map_size_insert_None by done. lia. }
  assert ((Z.of_nat (size (cache s)) >=? maxSize opts) = false) as -> by lia.
  cbn [andb]. unfold setResume. rewrite Hser. cbv zeta.
  assert (storage (withTimers A (base.delete (en_key e')) (commitOf ttl e s0))
          = storage (withTimers A (base.delete (en_key e')) s0)) as ->.
  { unfold setCommit, countIfEnabled. cbn [fold_left].
    by destruct (effectiveTTLOf opts ttl >? 0), (enableStats opts). }
  destruct (ad_set A (en_key e') raw
              (storage (withTimers A (base.delete (en_key e')) s0)))
    as [r st].
  cbn [snd].
  unfold setCommit, countIfEnabled. cbn [fold_left].
  destruct (effectiveTTLOf opts ttl >? 0), (enableStats opts);
    unfold emit, withStats, withTimers, withAccessOrder, withCache,
      withStorage; cbn; f_equal; by rewrite delete_insert_ne.
Qed.

Lemma commitOf_size ttl e s :
  (size (cache (commitOf ttl e s)) <= S (size (cache s)))%nat.
Proof.
  rewrite commitOf_cache. destruct (cache s !! en_key e) eqn:Hk.
  - erewrite map_size_insert_Some by done. lia.
  - rewrite map_size_insert_None by done. lia.
Qed.

Lemma startAll_commit ttl e entries s :
  ~ In (en_key e) (map en_key entries) ->
  Z.of_nat (size (cache s)) + 1 < maxSize opts ->
  (forall k r st, exists b st', ad_set A k r st = (Ok b, st')) ->
  (forall e', In e' entries ->
              exists raw, serialize opts (en_value e') = Ok raw) ->
  snd (startAll A opts ttl entries (commitOf ttl e s))
  = commitOf ttl e (snd (startAll A opts ttl entries s)).
Proof.
  intros Hk Hlt Hset. revert s Hk Hlt.
  induction entries as [|e' rest IH]; intros s Hk Hlt Hser; [done|].
  destruct (Hser e' (or_introl eq_refl)) as [raw Hraw].
  pose proof (setStart_commit ttl e e' s raw) as Hcomm.
  destruct (setStart_below ttl e' s raw) as (Hc & _);
    [lia|done|done|].
  cbn [startAll].
  destruct (setStart A opts ttl e' (commitOf ttl e s)) as [t1 s1].
  destruct (setStart A opts ttl e' s) as [t2 s2].
  cbn [snd] in *. rewrite Hcomm; [|intros Heq; apply Hk; by left|done|done].
  specialize (IH s2).
  destruct (startAll A opts ttl rest (commitOf ttl e s2)) as [t3 s3].
  destruct (startAll A opts ttl rest s2) as [t4 s4].
  cbn [snd] in *. apply IH.
  - intros Hin. apply Hk. by right.
  - by rewrite Hc.
  - intros e'' He''. apply Hser. by right.
Qed.

Lemma runQueue_commitOf ttl entries queue fuel s :
  Forall2
    (fun e t =>
       exists b,
         t = TaskSetCommit e (effectiveTTLOf opts ttl)
               (expiresAtOf (effectiveTTLOf opts ttl) (en_nowExpiry e))
               (Ok b))
    entries queue ->
  (length queue <= fuel)%nat ->
  snd (runQueue A opts fuel queue s)
  = fold_left (fun s e => commitOf ttl e s) entries s.
Proof.
  intros Hf. revert fuel s.
  induction Hf as [|e t entries queue [b ->] Hf IH]; intros fuel s Hlen.
  - by destruct fuel.
  - destruct fuel as [|fuel]; [simpl in Hlen; lia|].
    simpl. rewrite app_nil_r. apply IH. simpl in Hlen. lia.
Qed.

Lemma startAll_cons ttl e entries s :
  snd (startAll A opts ttl (e :: entries) s)
  = snd (startAll A opts ttl entries (snd (setStart A opts ttl e s))).
Proof.
  cbn [startAll]. destruct (setStart A opts ttl e s) as [t1 s1].
  cbn [snd]. by destruct (startAll A opts ttl entries s1).
Qed.

Lemma setMultiple_commits entries ttl s :
  Z.of_nat (size (cache s)) < maxSize opts ->
  (forall k r st, exists b st', ad_set A k r st = (Ok b, st')) ->
  (forall e, In e entries -> exists raw, serialize opts (en_value e) = Ok raw) ->
  snd (setMultiple A opts entries ttl s)
  = fold_left (fun s e => commitOf ttl e s) entries
      (snd (startAll A opts ttl entries s)).
Proof.
  intros Hlt Hset Hser. unfold setMultiple, setMultipleRun. cbn [snd].
  destruct (startAll_below ttl entries s Hlt Hset Hser) as [_ Hf].
  destruct (startAll A opts ttl entries s) as [queue s1]. cbn [fst snd] in *.
  apply runQueue_commitOf; [done|apply queueCost_length].
Qed.

Lemma setMultiple_single ttl e s :
  setMultiple A opts [e] ttl s
  = set A opts (en_key e) (en_value e) ttl [] None
      (en_nowExpiry e) (en_nowCreated e) (en_nowAccess e) s.
Proof.
  unfold setMultiple, setMultipleRun, startAll, setStart, set.
  set (s1 := match cache s !! en_key e with
             | Some existingItem =>
                 withTagsMap A (untagAll (en_key e) (tags existingItem)) s
             | None => s
             end).
  cbv zeta.
  destruct ((Z.of_nat (size (cache s1)) >=? maxSize opts)
            && negb (bool_decide (is_Some (cache s1 !! en_key e)))).
  + destruct (_evictLRU A s1) as [[p|] s2]; simpl.
    * unfold setWrite, setResume.
      destruct (deleteStorage A p s2) as [r s3]. simpl.
      destruct (serialize opts (en_value e)) as [raw|err]; simpl; [|done].
      destruct (ad_set A (en_key e) raw (storage s3)) as [[b|err] st];
        simpl; done.
    * unfold setWrite, setResume.
      destruct (serialize opts (en_value e)) as [raw|err]; simpl; [|done].
      destruct (ad_set A (en_key e) raw (storage s2)) as [[b|err] st];
        simpl; done.
  + simpl. unfold setWrite, setResume.
    destruct (serialize opts (en_value e)) as [raw|err]; simpl; [|done].
    destruct (ad_set A (en_key e) raw (storage s1)) as [[b|err] st];
      simpl; done.
Qed.

Lemma run_cons c calls s :
  snd (run A opts (c :: calls) s) = snd (run A opts calls (snd (call A opts c s))).
Proof.
  cbn [run]. destruct (call A opts c s) as [a s1]. cbn [snd].
  by destruct (run A opts calls s1).
Qed.

Lemma setInTurn_cons ttl e entries s :
  snd (run A opts (setInTurn ttl (e :: entries)) s)
  = snd (run A opts (setInTurn ttl entries)
           (snd (set A opts (en_key e) (en_value e) ttl [] None
                   (en_nowExpiry e) (en_nowCreated e) (en_nowAccess e) s))).
Proof.
  unfold setInTurn. cbn [map]. rewrite run_cons. f_equal.
  cbn [call].
  by destruct (set A opts (en_key e) (en_value e) ttl [] None
                 (en_nowExpiry e) (en_nowCreated e) (en_nowAccess e) s).
Qed.

(** X13: when there is room for all of them, the overlapping writes of
    [setMultiple] leave the engine as the same writes leave it when each
    is awaited before the next starts.  On a cache that holds n entries
    fewer than [maxSize], through a backend whose writes return,
    [setMultiple] of n entries with distinct keys whose values serialize
    ends in the state in which [set], called for the entries in turn,
    ends: metadata, timers, access order, tag index, statistics, backend
    and the order of the events.  For a single entry the two agree
    whatever the capacity and the backend. *)
Theorem setMultiple_as_in_turn ttl s :
  (forall e,
      snd (setMultiple A opts [e] ttl s)
      = snd (run A opts (setInTurn ttl [e]) s))
  /\ (forall entries,
        Z.of_nat (size (cache s)) + Z.of_nat (length entries)
        <= maxSize opts ->
        (forall k r st, exists b st', ad_set A k r st = (Ok b, st')) ->
        (forall e, In e entries ->
                   exists raw, serialize opts (en_value e) = Ok raw) ->
        NoDup (map en_key entries) ->
        snd (setMultiple A opts entries ttl s)
        = snd (run A opts (setInTurn ttl entries) s)).
Proof.
  split.
  { intros e. by rewrite setInTurn_cons, setMultiple_single. }
  intros entries Hroom Hset. revert s Hroom.
  induction entries as [|e rest IH]; intros s Hroom Hser Hnd; [done|].
  apply NoDup_cons in Hnd as [Hk Hnd]. rewrite list_elem_of_In in Hk.
  change (length (e :: rest)) with (S (length rest)) in Hroom.
  assert (Z.of_nat (size (cache s)) < maxSize opts) as Hlt by lia.
  destruct (Hser e (or_introl eq_refl)) as [raw Hraw].
  destruct (setStart_below ttl e s raw Hlt Hset Hraw) as (Hc & b & Hq).
  assert (snd (set A opts (en_key e) (en_value e) ttl [] None
                 (en_nowExpiry e) (en_nowCreated e) (en_nowAccess e) s)
          = commitOf ttl e (snd (setStart A opts ttl e s))) as Hone.
  { rewrite <- setMultiple_single.
    rewrite setMultiple_commits; [|done|done|].
    - cbn [startAll]. destruct (setStart A opts ttl e s) as [t1 s1]. done.
    - intros e' [<-|[]]. by exists raw. }
  rewrite setInTurn_cons, Hone.
  rewrite setMultiple_commits by done.
  rewrite startAll_cons. cbn [fold_left].
  set (s1 := snd (setStart A opts ttl e s)) in *.
  pose proof (commitOf_size ttl e s1) as Hsz. rewrite Hc in Hsz.
  assert (forall e', In e' rest ->
                     exists raw, serialize opts (en_value e') = Ok raw)
    as Hser' by (intros e' He'; apply Hser; by right).
  destruct (decide (rest = [])) as [->|Hrest]; [done|].
  assert (1 <= length rest)%nat as Hlen
    by (destruct rest; [done|simpl; lia]).
  rewrite <- startAll_commit; [|done|rewrite Hc; lia|done|done].
  rewrite <- setMultiple_commits; [|lia|done|done].
  apply IH; [lia|done|done].
Qed.

(** X14: the overlapping writes of [setMultiple] all check the capacity
    before any of them inserts.  On a cache below [maxSize], through a
    backend whose writes return, [setMultiple] of n distinct new keys
    whose values serialize stores every one of them: the cache ends with
    n more entries, however close to [maxSize] it was. *)
Theorem setMultiple_checks_capacity_first entries ttl s :
  Z.of_nat (size (cache s)) < maxSize opts ->
  (forall k r st, exists b st', ad_set A k r st = (Ok b, st')) ->
  (forall e, In e entries -> exists raw, serialize opts (en_value e) = Ok raw) ->
  NoDup (map en_key entries) ->
  (forall e, In e entries -> cache s !! en_key e = None) ->
  let s' := snd (setMultiple A opts entries ttl s) in
  (forall e, In e entries -> is_Some (cache s' !! en_key e))
  /\ size (cache s') = (size (cache s) + length entries)%nat.
Proof.
  intros Hlt Hset Hser Hnd Hfresh. cbv zeta.
  unfold setMultiple, setMultipleRun. cbn [snd].
  destruct (startAll_below ttl entries s Hlt Hset Hser) as [Hc Hf].
  destruct (startAll A opts ttl entries s) as [queue s1]. simpl in Hc, Hf.
  destruct (runQueue_commits ttl entries queue (queueCost queue) s1 Hf
              (queueCost_length queue)) as [Hin Hout].
  set (s2 := snd (runQueue A opts (queueCost queue) queue s1)) in *.
  split; [exact Hin|].
  assert (dom (cache s2)
          = dom (cache s) ∪ (list_to_set (map en_key entries) : gset string))
    as Hdom.
  { apply set_eq. intros k.
    rewrite elem_of_union, !elem_of_dom, elem_of_list_to_set, list_elem_of_In.
    destruct (In_dec String.string_dec k (map en_key entries)) as [Hk|Hk].
    - split; [by right|]. intros _.
      apply in_map_iff in Hk as (e & <- & He). by apply Hin.
    - rewrite Hout, Hc; [tauto|].
      intros e He Hq. apply Hk. rewrite <- Hq. by apply in_map. }
  rewrite <- !size_dom, Hdom, size_union, size_list_to_set, length_map;
    [done|done|].
  intros k Hk1 Hk2. apply elem_of_dom in Hk1 as [item Hi].
  apply elem_of_list_to_set, list_elem_of_In, in_map_iff in Hk2
    as (e & <- & He).
  rewrite (Hfresh e He) in Hi. done.
Qed.
End SetMultipleProps.

(** ** getInfo and getByTag *)

Section InfoProps.
Context {Value Raw : Type} (A : Adapter Raw) (opts : Options Value Raw).
Implicit Types s : Engine Value A.

Lemma get_expired_misses key t1 t2 t3 s item :
  cache s !! key = Some item -> isExpired item t1 = true ->
  fst (get A opts key t1 t2 t3 s) = None.
Proof.
  intros Hi He. unfold get. rewrite countIfEnabled_cache, Hi, He.
  by destruct (delete A opts key _).
Qed.

(** X15: [getInfo] answers null exactly for a key without metadata.
    What it reports agrees with [get]: when it says [isExpired], a [get]
    at that time or later returns [undefined], and the remaining [ttl]
    it computes at that time or later is 0; the remaining [ttl] is never
    negative, and is null exactly when the entry has no expiry or, as the
    test is one of truthiness, an expiry of 0. *)
Theorem getInfo_agrees_with_get key nowExpired nowTtl t1 t2 t3 s :
  (getInfo A key nowExpired nowTtl s = None <-> cache s !! key = None)
  /\ forall info,
       getInfo A key nowExpired nowTtl s = Some info ->
       (forall r, info_ttl info = Some r -> 0 <= r)
       /\ (info_ttl info = None
           <-> info_expiresAt info = None \/ info_expiresAt info = Some 0)
       /\ (info_isExpired info = true ->
           (nowExpired <= nowTtl -> info_ttl info = Some 0)
           /\ (nowExpired <= t1 ->
               fst (get A opts key t1 t2 t3 s) = None)).
Proof.
  unfold getInfo. destruct (cache s !! key) as [item|] eqn:Hi.
  - split; [split; done|]. intros info [= <-]. simpl.
    destruct (expiresAt item) as [e|] eqn:He.
    + unfold truthyZ. destruct (e =? 0) eqn:Hz; simpl.
      * apply Z.eqb_eq in Hz. subst e.
        split; [done|]. split; [split; [by right|done]|done].
      * apply Z.eqb_neq in Hz.
        split; [intros r [= <-]; lia|].
        split; [split; [done|intros [?|[= ?]]; done]|].
        intros Hex. assert (e < nowExpired) as Hlt by lia.
        split; [intros Hle; f_equal; lia|].
        intros Hle. apply (get_expired_misses key t1 t2 t3 s item Hi).
        unfold isExpired, truthyZ. rewrite He.
        apply andb_true_iff. split; [apply negb_true_iff; lia|lia].
    + split; [done|]. split; [split; [by left|done]|done].
  - split; [split; done|]. intros info [=].
Qed.

Lemma getEach_spec keys clock (result : gmap string Value) s :
  (forall k v,
     fst (getEach A opts keys clock result s) !! k = Some v ->
     result !! k = Some v \/ (In k keys /\ k <> "__proto__"%string))
  /\ NoGrowth s (snd (getEach A opts keys clock result s)).
Proof.
  revert result s. induction keys as [|key rest IH]; intros result s; simpl.
  - split; [by left|]. by apply NoGrowth_same.
  - destruct (clock key) as [[t1 t2] t3].
    pose proof (NoGrowth_get A opts key t1 t2 t3 s) as Hg.
    destruct (get A opts key t1 t2 t3 s) as [value s1]. simpl in Hg.
    match goal with
    | |- context [getEach A opts rest clock ?r s1] =>
        destruct (IH r s1) as [Hk Hn]
    end.
    split; [|by eapply NoGrowth_trans].
    intros k v Hv. apply Hk in Hv as [Hv|[Hin Hne]]; [|by right; split; [right|]].
    destruct value as [v0|]; [|by left].
    destruct (String.eqb_spec key "__proto__") as [Hp|Hp]; [by left|].
    apply lookup_insert_Some in Hv as [[<- _]|[_ Hv]]; [|by left].
    right. split; [by left|done].
Qed.

(** X16: [getByTag] answers the empty object for an unknown tag and
    changes nothing.  For a known tag, every property of the object it
    answers is a key listed under the tag ([__proto__] never becomes a
    property of an object literal), and the reads it makes do not add
    entries to the cache. *)
Theorem getByTag_only_listed tag clock s :
  let r := getByTag A opts tag clock s in
  (tagsMap s !! tag = None -> r = (∅, s))
  /\ (forall k v,
        fst r !! k = Some v ->
        Listed (tagsMap s) k tag /\ k <> "__proto__"%string)
  /\ (size (cache (snd r)) <= size (cache s))%nat.
Proof.
  cbv zeta. unfold getByTag.
  destruct (tagsMap s !! tag) as [ks|] eqn:Hks.
  - destruct (getEach_spec ks clock ∅ s) as [Hk [Hn _]].
    split; [done|]. split; [|exact Hn].
    intros k v Hv. apply Hk in Hv as [Hv|[Hin Hne]]; [done|].
    split; [by exists ks|done].
  - split; [done|]. split; [intros k v Hv; done|done].
Qed.
End InfoProps.

(** ** EasyCache.utils.parseTime *)

Section ParseTimeProps.
Import Utils.
Import Stdlib.Strings.Ascii.

Lemma append_empty_r (s : string) : String.append s EmptyString = s.
Proof.
  induction s as [|c s IH]; [done|].
  change (String c (String.append s EmptyString) = String c s).
  by rewrite IH.
Qed.

Lemma span_spec p s :
  s = String.append (fst (span p s)) (snd (span p s))
  /\ allChars p (fst (span p s)) = true
  /\ match snd (span p s) with
     | String c _ => p c = false
     | EmptyString => True
     end.
Proof.
  induction s as [|c s (IH1 & IH2 & IH3)]; simpl; [done|].
  destruct (p c) eqn:Hp; [|by repeat split].
  destruct (span p s) as [taken others]. simpl in *.
  rewrite ?Hp. split; [|done].
  change (String c s = String c (String.append taken others)).
  by f_equal.
Qed.

Lemma span_append p a b :
  allChars p a = true ->
  match b with String c _ => p c = false | EmptyString => True end ->
  span p (String.append a b) = (a, b).
Proof.
  intros Ha Hb. induction a as [|c a IH].
  - change (span p b = (EmptyString, b)).
    destruct b as [|c r]; [done|]. simpl. by rewrite Hb.
  - simpl in Ha. apply andb_true_iff in Ha as [Hc Ha].
    change (span p (String c (String.append a b)) = (String c a, b)).
    simpl. by rewrite Hc, (IH Ha).
Qed.

Lemma isLetter_not_digit c : isLetter c = true -> isDigit c = false.
Proof.
  unfold isLetter, isDigit.
  destruct (Nat.leb_spec 48 (nat_of_ascii c)),
           (Nat.leb_spec (nat_of_ascii c) 57),
           (Nat.leb_spec 65 (nat_of_ascii c)),
           (Nat.leb_spec (nat_of_ascii c) 90),
           (Nat.leb_spec 97 (nat_of_ascii c)),
           (Nat.leb_spec (nat_of_ascii c) 122); simpl; try done; lia.
Qed.

Lemma decimalValue_nonneg digits acc : 0 <= acc -> 0 <= decimalValue acc digits.
Proof.
  revert acc. induction digits as [|c digits IH]; intros acc Ha; simpl; [done|].
  apply IH. lia.
Qed.

Lemma times_cases value m r :
  times value m = r
  <-> (value * m < 2 ^ 53 /\ r = Num (value * m))
      \/ (2 ^ 53 <= value * m /\ r = Beyond).
Proof.
  unfold times. destruct (Z.ltb_spec (value * m) (2 ^ 53)); split.
  - intros <-. by left.
  - intros [[_ ->]|[? _]]; [done|lia].
  - intros <-. by right.
  - intros [[? _]|[_ ->]]; [lia|done].
Qed.

(** X17: [parseTime] answers for the strings made of one or more decimal
    digits followed by one or more ASCII letters, and throws for every
    other string.  For such a string it answers the number times the
    factor of the unit, the unit being read without regard to case, as
    long as that product is below 2^53 (beyond, a double only
    approximates it); it throws when the unit is none of ms, s, m, h, d,
    except that the unit [constructor], which the table inherits, makes
    it answer NaN. *)
Theorem parseTime_characterised timeStr r :
  parseTime timeStr = Ok r
  <-> exists digits unit,
        timeStr = String.append digits unit
        /\ digits <> EmptyString /\ allChars isDigit digits = true
        /\ unit <> EmptyString /\ allChars isLetter unit = true
        /\ match unitOf (toLowerCase unit) with
           | Factor m =>
               let n := decimalValue 0 digits * m in
               (n < 2 ^ 53 /\ r = Num n) \/ (2 ^ 53 <= n /\ r = Beyond)
           | Inherited => r = NaN
           | Missing => False
           end.
Proof.
  unfold parseTime. split.
  - destruct (span_spec isDigit timeStr) as (H1 & H2 & _).
    destruct (span isDigit timeStr) as [value rest]. simpl in H1, H2.
    destruct (span_spec isLetter rest) as (G1 & G2 & _).
    destruct (span isLetter rest) as [unit tail]. simpl in G1, G2.
    destruct value as [|c value]; [done|].
    destruct unit as [|d unit]; [done|].
    destruct tail as [|x tail]; [|done].
    rewrite append_empty_r in G1. subst rest.
    intros Hr. exists (String c value), (String d unit).
    split; [done|]. split; [done|]. split; [done|]. split; [done|].
    split; [done|].
    destruct (unitOf (toLowerCase (String d unit)));
      [|by injection Hr as <-|done].
    injection Hr as Hr. cbv zeta. by apply times_cases.
  - intros (digits & unit & -> & Hd & Hda & Hu & Hua & Hr).
    rewrite (span_append isDigit digits unit Hda).
    2:{ destruct unit as [|c u]; [done|]. simpl in Hua.
        apply andb_true_iff in Hua as [Hc _]. by apply isLetter_not_digit. }
    rewrite <- (append_empty_r unit) at 1.
    rewrite (span_append isLetter unit EmptyString Hua I).
    destruct digits as [|c ds]; [done|]. destruct unit as [|d u]; [done|].
    destruct (unitOf (toLowerCase (String d u))); [|by subst|done].
    f_equal. by apply times_cases.
Qed.

Lemma lowerChar_letter c : isLetter c = true -> isLetter (lowerChar c) = true.
Proof.
  intros Hl. unfold lowerChar. cbv zeta.
  pose proof (nat_ascii_bounded c) as Hb.
  destruct ((65 <=? nat_of_ascii c)%nat && (nat_of_ascii c <=? 90)%nat)
    eqn:Hup; [|done].
  apply andb_true_iff in Hup as [H1%Nat.leb_le H2%Nat.leb_le].
  unfold isLetter. cbv zeta. rewrite nat_ascii_embedding by lia.
  apply orb_true_iff. right. apply andb_true_iff.
  split; apply Nat.leb_le; lia.
Qed.

Lemma lowerChar_idem c : lowerChar (lowerChar c) = lowerChar c.
Proof.
  unfold lowerChar at 2 3. cbv zeta.
  pose proof (nat_ascii_bounded c) as Hb.
  destruct ((65 <=? nat_of_ascii c)%nat && (nat_of_ascii c <=? 90)%nat)
    eqn:Hup; unfold lowerChar; cbv zeta.
  - apply andb_true_iff in Hup as [H1%Nat.leb_le H2%Nat.leb_le].
    rewrite nat_ascii_embedding by lia.
    destruct (Nat.leb_spec (nat_of_ascii c + 32) 90); [lia|].
    by rewrite andb_false_r.
  - by rewrite Hup.
Qed.

Lemma toLowerCase_letters unit :
  allChars isLetter unit = true -> allChars isLetter (toLowerCase unit) = true.
Proof.
  induction unit as [|c unit IH]; [done|]. simpl.
  intros [Hc Hu]%andb_true_iff. by rewrite lowerChar_letter, IH.
Qed.

Lemma toLowerCase_idem unit : toLowerCase (toLowerCase unit) = toLowerCase unit.
Proof.
  induction unit as [|c unit IH]; [done|]. simpl.
  by rewrite lowerChar_idem, IH.
Qed.

Lemma parseTime_parts digits unit :
  allChars isDigit digits = true -> allChars isLetter unit = true ->
  parseTime (String.append digits unit)
  = match digits, unit with
    | String _ _, String _ _ =>
        match unitOf (toLowerCase unit) with
        | Factor m => Ok (times (decimalValue 0 digits) m)
        | Inherited => Ok NaN
        | Missing => Throw "Invalid time unit"
        end
    | _, _ => Throw "Invalid time format"
    end.
Proof.
  intros Hda Hua. unfold parseTime.
  rewrite (span_append isDigit digits unit Hda).
  2:{ destruct unit as [|c u]; [done|]. simpl in Hua.
      apply andb_true_iff in Hua as [Hc _]. by apply isLetter_not_digit. }
  rewrite <- (append_empty_r unit) at 1.
  rewrite (span_append isLetter unit EmptyString Hua I).
  destruct digits as [|c ds]; [done|]. by destruct unit as [|d u].
Qed.

(** X18: what [parseTime] does not tell apart.  For a string of decimal
    digits followed by ASCII letters, the case of the letters makes no
    difference to the answer, nor to the error thrown; when there is at
    least one digit, a zero in front of the digits makes none either.
    And a number below 2^53 that [parseTime] answers is never
    negative. *)
Theorem parseTime_insensitive digits unit :
  allChars isDigit digits = true -> allChars isLetter unit = true ->
  parseTime (String.append digits (toLowerCase unit))
  = parseTime (String.append digits unit)
  /\ (digits <> EmptyString ->
      parseTime (String "0" (String.append digits unit))
      = parseTime (String.append digits unit))
  /\ (forall n, parseTime (String.append digits unit) = Ok (Num n) -> 0 <= n).
Proof.
  intros Hda Hua. split; [|split].
  - rewrite !parseTime_parts by (done || by apply toLowerCase_letters).
    rewrite toLowerCase_idem. destruct digits as [|c ds]; [done|].
    by destruct unit as [|d u].
  - intros Hd.
    change (String "0" (String.append digits unit))
      with (String.append (String "0" digits) unit).
    rewrite !parseTime_parts by done.
    destruct digits as [|c ds]; [done|]. destruct unit as [|d u]; [done|].
    done.
  - intros n. rewrite parseTime_parts by done.
    destruct digits as [|c ds]; [done|]. destruct unit as [|d u]; [done|].
    pose proof (decimalValue_nonneg (String c ds) 0 (Z.le_refl 0)) as Hv.
    set (v := decimalValue 0 (String c ds)) in *.
    unfold unitOf, times.
    repeat match goal with
           | |- context [if ?b then _ else _] => destruct b
           end; intros [= <-]; lia.
Qed.
End ParseTimeProps.

(** ** Overlapping deletions; reads and the eviction order *)

Section OrderProps.
Context {Value Raw : Type} (A : Adapter Raw) (opts : Options Value Raw).
Implicit Types s : Engine Value A.

Lemma beginAll_present keys s :
  (forall k, In k keys -> is_Some (cache s !! k)) ->
  map pd_key (fst (beginAll A keys s)) = keys.
Proof.
  revert s. induction keys as [|key rest IH]; intros s Hall; simpl; [done|].
  destruct (deleteBegin_spec A key s) as [(Hc & _) Hpd].
  destruct (deleteBegin A key s) as [pd s1]. simpl in Hc, Hpd.
  specialize (IH s1).
  destruct (beginAll A rest s1) as [pds s2]. simpl in IH. simpl.
  destruct pd as [p|].
  - simpl. destruct Hpd as [-> _]. f_equal. apply IH.
    intros k Hk. rewrite Hc. apply Hall. by right.
  - destruct Hpd as [Hn _]. destruct (Hall key (or_introl eq_refl)). congruence.
Qed.

Lemma finishAll_events rs s :
  (forall pr, In pr rs -> exists b, snd pr = Ok b) ->
  events (finishAll A opts rs s)
  = events s ++ map (fun pr => EvDelete (pd_key (fst pr)) (pd_value (fst pr))) rs.
Proof.
  revert s. induction rs as [|[pd r] rest IH]; intros s Hok.
  - simpl. by rewrite app_nil_r.
  - change (finishAll A opts ((pd, r) :: rest) s)
      with (finishAll A opts rest (deleteFinish A opts pd r s)).
    destruct (Hok (pd, r) (or_introl eq_refl)) as [b Hb]. simpl in Hb. subst r.
    rewrite IH; [|intros pr Hp; apply Hok; by right].
    destruct (deleteFinish_ok A opts pd b s) as (_ & _ & -> & _).
    by rewrite <- app_assoc.
Qed.

Lemma countEvents_deletes (keys : list string) (payloads : list (Payload Value Raw)) :
  length payloads = length keys ->
  countEvents isDeleteEvent (zip_with EvDelete keys payloads)
  = N.of_nat (length keys).
Proof.
  revert payloads. induction keys as [|k keys IH]; intros [|p ps] Hl;
    try done.
  simpl in Hl.
  change (zip_with EvDelete (k :: keys) (p :: ps))
    with ([EvDelete k p] ++ zip_with EvDelete keys ps).
  rewrite countEvents_app, countEvents_single, IH by lia. simpl. lia.
Qed.

Lemma capacityEvictions_deletes (keys : list string)
    (payloads : list (Payload Value Raw)) :
  capacityEvictions (zip_with EvDelete keys payloads) = 0%nat.
Proof.
  revert payloads. induction keys as [|k keys IH]; intros [|p ps]; try done.
  change (zip_with EvDelete (k :: keys) (p :: ps))
    with ([EvDelete k p] ++ zip_with EvDelete keys ps).
  by rewrite capacityEvictions_app, IH.
Qed.

(** X19: the deletions of [deleteMultiple] all test for the key before
    any of them removes it.  Over a backend whose deletions return, when
    every listed key has metadata, each element of the list is announced
    by a [delete] event, in order, and counted in [deletes], also when a
    key is listed more than once and only one entry goes. *)
Theorem deleteMultiple_counts_every_request keys s :
  (forall k st, exists b st', ad_delete A k st = (Ok b, st')) ->
  (forall k, In k keys -> is_Some (cache s !! k)) ->
  let s' := snd (deleteMultiple A opts keys s) in
  exists payloads,
    length payloads = length keys
    /\ events s' = events s ++ zip_with EvDelete keys payloads
    /\ deletes (stats s')
       = (deletes (stats s)
          + (if enableStats opts then N.of_nat (length keys) else 0))%N.
Proof.
  intros Hd Hall. cbv zeta.
  destruct (Quiet_deleteMultiple A opts keys s) as (added & He & Hs & _).
  revert He Hs. unfold deleteMultiple.
  pose proof (beginAll_present keys s Hall) as Hkeys.
  destruct (beginAll_spec A keys s) as ((_ & _ & _ & _ & _ & He1) & _).
  destruct (beginAll A keys s) as [pds s1]. simpl in Hkeys, He1.
  destruct (storageAll_spec A pds s1) as ((_ & _ & _ & _ & _ & He2) & Hm & Hok).
  destruct (storageAll A pds s1) as [rs s2]. simpl in He2, Hm, Hok.
  cbn [snd]. rewrite (finishAll_events rs s2 (Hok Hd)), He2, He1.
  intros He Hs. apply app_inv_head in He. subst added.
  exists (map pd_value pds).
  assert (map (fun pr : PendingDelete Value Raw * Result bool =>
                 EvDelete (pd_key (fst pr)) (pd_value (fst pr))) rs
          = zip_with EvDelete keys (map pd_value pds)) as Hz.
  { rewrite <- Hkeys, <- Hm. clear. induction rs as [|pr rs IH]; [done|].
    simpl. by rewrite IH. }
  split; [by rewrite <- Hkeys, !length_map|]. split; [by rewrite Hz|].
  rewrite Hs, Hz. unfold bump.
  destruct (enableStats opts); simpl; [|lia].
  rewrite countEvents_deletes; [done|]. by rewrite <- Hkeys, !length_map.
Qed.

Lemma get_hit_inv key t1 t2 t3 s v :
  fst (get A opts key t1 t2 t3 s) = Some v ->
  exists item st,
    cache s !! key = Some item
    /\ snd (get A opts key t1 t2 t3 s)
       = getHit A opts key item v t2 t3
           (withStorage A st (countIfEnabled A opts incTotalAccesses s)).
Proof.
  unfold get. rewrite countIfEnabled_cache.
  destruct (cache s !! key) as [item|]; [|done].
  destruct (isExpired item t1); [by destruct (delete A opts key _)|].
  destruct (ad_get A key _) as [r st].
  destruct (match r with
            | Ok (Some raw) => deserialize opts raw
            | Ok None => Ok None
            | Throw e => Throw e
            end) as [[v0|]|e]; simpl; [|done|done].
  intros [= ->]. by exists item, st.
Qed.

Lemma getHit_shape key item v t2 t3 s :
  accessOrder (getHit A opts key item v t2 t3 s)
  = JsMap.set key t2 (accessOrder s)
  /\ exists item',
       cache (getHit A opts key item v t2 t3 s) = <[key := item']> (cache s).
Proof.
  unfold getHit.
  change (accessOrder (emit A ?e ?x)) with (accessOrder x).
  change (cache (emit A ?e ?x)) with (cache x).
  rewrite countIfEnabled_accessOrder, countIfEnabled_cache.
  destruct (expiresAt item) as [e|];
    [destruct (slidingTTL opts && truthyZ e)|]; simpl;
    (split; [done|by eexists]).
Qed.

(** X20: a read protects from eviction.  With [maxSize] 2 and a
    reliable backend, after writing two distinct non-empty new keys k1,
    k2 without tags into a fresh engine, a [get] of k1 that returns a
    value at a clock reading past the write of k2 makes k2 the least
    recently used: writing a third key k3 then removes k2 and keeps k1
    and k3. *)
Theorem read_protects_from_eviction
    st k1 k2 k3 v1 v2 v3 r1 r2 r3 ttl1 ttl2 ttl3
    e1 c1 a1 e2 c2 a2 e3 c3 a3 t1 t2 t3 v :
  maxSize opts = 2 ->
  (forall k r st, exists b st', ad_set A k r st = (Ok b, st')) ->
  (forall k st, exists b st', ad_delete A k st = (Ok b, st')) ->
  serialize opts v1 = Ok r1 -> serialize opts v2 = Ok r2 ->
  serialize opts v3 = Ok r3 ->
  k1 <> EmptyString -> k2 <> EmptyString -> k3 <> EmptyString ->
  k1 <> k2 -> k1 <> k3 -> k2 <> k3 ->
  a2 < t2 ->
  let s1 := snd (set A opts k1 v1 ttl1 [] None e1 c1 a1
                   (create Value A st)) in
  let s2 := snd (set A opts k2 v2 ttl2 [] None e2 c2 a2 s1) in
  let g := get A opts k1 t1 t2 t3 s2 in
  fst g = Some v ->
  let s3 := snd (set A opts k3 v3 ttl3 [] None e3 c3 a3 (snd g)) in
  cache s3 !! k2 = None
  /\ is_Some (cache s3 !! k1) /\ is_Some (cache s3 !! k3)
  /\ size (cache s3) = 2%nat.
Proof.
  intros Hm Hset Hdel Hs1 Hs2 Hs3 Hk1 Hk2 Hk3 H12 H13 H23 Hclock.
  cbv zeta.
  assert (1 <= maxSize opts) as Hm1 by lia.
  set (s0 := create Value A st).
  assert (AccessOrderInv s0) as Hinv0 by apply AccessOrderOk_empty.
  (* first write *)
  pose proof (set_untagged_spec A opts k1 v1 ttl1 None e1 c1 a1 s0 r1
                I Hs1 Hset Hdel Hinv0 Hm1) as W1.
  cbv zeta in W1. rewrite Hm in W1.
  change (cache s0) with (∅ : gmap string CacheItem) in W1.
  rewrite map_size_empty in W1. cbn [Z.of_nat Z.geb Z.compare andb] in W1.
  destruct W1 as [Hc1 Ha1].
  set (s1 := snd (set A opts k1 v1 ttl1 [] None e1 c1 a1 s0)) in *.
  change (accessOrder s0) with (@nil (string * Z)) in Ha1.
  cbn [JsMap.set] in Ha1.
  assert (AccessOrderInv s1) as Hinv1.
  { unfold AccessOrderInv. rewrite Hc1, Ha1.
    by apply (AccessOrderOk_insert ∅ [] k1 _ a1 Hk1), AccessOrderOk_empty. }
  (* second write *)
  pose proof (set_untagged_spec A opts k2 v2 ttl2 None e2 c2 a2 s1 r2
                I Hs2 Hset Hdel Hinv1 Hm1) as W2.
  cbv zeta in W2. rewrite Hm in W2.
  assert (size (cache s1) = 1%nat) as Hsz1
    by (rewrite Hc1; by rewrite map_size_insert_None, map_size_empty).
  rewrite Hsz1 in W2. cbn [Z.of_nat Pos.of_succ_nat Z.geb Z.compare
                             Pos.compare Pos.compare_cont andb] in W2.
  destruct W2 as [Hc2 Ha2].
  set (s2 := snd (set A opts k2 v2 ttl2 [] None e2 c2 a2 s1)) in *.
  assert (AccessOrderInv s2) as Hinv2.
  { unfold AccessOrderInv. rewrite Hc2, Ha2.
    by apply AccessOrderOk_insert. }
  rewrite Ha1 in Ha2. cbn [JsMap.set] in Ha2.
  destruct (String.eqb_spec k2 k1) as [|_]; [congruence|].
  assert (cache s1 !! k2 = None) as Hnew2
    by (rewrite Hc1; by rewrite lookup_insert_ne, lookup_empty).
  assert (size (cache s2) = 2%nat) as Hsz2
    by (rewrite Hc2; by rewrite map_size_insert_None, Hsz1).
  (* the read *)
  intros Hhit.
  destruct (get_hit_inv k1 t1 t2 t3 s2 v Hhit) as (item & st' & Hi & Hg).
  pose proof (NoGrowth_get A opts k1 t1 t2 t3 s2) as [_ Hinvg].
  specialize (Hinvg Hinv2).
  set (sg := snd (get A opts k1 t1 t2 t3 s2)) in *.
  destruct (getHit_shape k1 item v t2 t3
              (withStorage A st' (countIfEnabled A opts incTotalAccesses s2)))
    as (Hag & item' & Hcg).
  rewrite <- Hg in Hag, Hcg.
  change (accessOrder (withStorage A st' ?x)) with (accessOrder x) in Hag.
  change (cache (withStorage A st' ?x)) with (cache x) in Hcg.
  rewrite countIfEnabled_accessOrder, Ha2 in Hag.
  rewrite countIfEnabled_cache in Hcg.
  cbn [JsMap.set] in Hag. rewrite String.eqb_refl in Hag.
  assert (size (cache sg) = 2%nat) as Hszg.
  { rewrite Hcg, map_size_insert_Some; [done|]. rewrite Hi. by eexists. }
  (* third write *)
  pose proof (set_untagged_spec A opts k3 v3 ttl3 None e3 c3 a3 sg r3
                I Hs3 Hset Hdel Hinvg Hm1) as W3.
  cbv zeta in W3. rewrite Hm, Hszg in W3.
  assert (cache sg !! k3 = None) as Hnew3.
  { rewrite Hcg, lookup_insert_ne by done.
    rewrite Hc2, lookup_insert_ne by done.
    rewrite Hc1. by rewrite lookup_insert_ne, lookup_empty. }
  rewrite bool_decide_eq_false_2 in W3 by (rewrite Hnew3; by intros []).
  cbn [Z.of_nat Pos.of_succ_nat Pos.succ Z.geb Z.compare
         Pos.compare Pos.compare_cont andb negb] in W3.
  destruct W3 as (victim & Hv & Hc3 & _).
  assert (victim = k2) as ->.
  { rewrite Hag in Hv.
    destruct Hv as (before & time & after & Heq & Hb & Haf).
    destruct before as [|[kb tb] before].
    - injection Heq as <- <- <-.
      specialize (Haf k2 a2 (or_introl eq_refl)). lia.
    - injection Heq as Hkb Htb Heq. subst kb tb.
      destruct before as [|? before]; [by injection Heq|by destruct before]. }
  rewrite Hc3, Hcg, Hc2, Hc1.
  split; [|split; [|split]].
  - rewrite lookup_insert_ne by done. apply lookup_delete_eq.
  - rewrite lookup_insert_ne by done.
    rewrite lookup_delete_ne by done. rewrite lookup_insert_eq. eauto.
  - rewrite lookup_insert_eq. eauto.
  - rewrite map_size_insert_None.
    + rewrite map_size_delete_Some.
      * rewrite <- Hc1, <- Hc2, <- Hcg. by rewrite Hszg.
      * rewrite lookup_insert_ne by done. rewrite lookup_insert_eq. eauto.
    + rewrite lookup_delete_ne by done.
      by rewrite !lookup_insert_ne, lookup_empty.
Qed.
End OrderProps.

(** ** clear *)

Section ClearProps.
Context {Value Raw : Type} (A : Adapter Raw) (opts : Options Value Raw).
Implicit Types s : Engine Value A.

Lemma get_nothing_cached key t1 t2 t3 s :
  cache s = ∅ ->
  fst (get A opts key t1 t2 t3 s) = None
  /\ cache (snd (get A opts key t1 t2 t3 s)) = ∅.
Proof.
  intros Hc. unfold get. rewrite countIfEnabled_cache, Hc, lookup_empty.
  cbn [fst snd]. by rewrite !countIfEnabled_cache.
Qed.

Lemma getEach_nothing_cached keys clock result s :
  cache s = ∅ -> fst (getEach A opts keys clock result s) = result.
Proof.
  revert result s. induction keys as [|key rest IH]; intros result s Hc;
    [done|].
  cbn [getEach]. destruct (clock key) as [[t1 t2] t3].
  destruct (get_nothing_cached key t1 t2 t3 s Hc) as [Hv Hc'].
  destruct (get A opts key t1 t2 t3 s) as [value s1]. cbn [fst snd] in *.
  subst value. by apply IH.
Qed.

Lemma beginAll_nothing_cached keys s :
  cache s = ∅ -> beginAll A keys s = ([], s).
Proof.
  intros Hc. induction keys as [|key rest IH]; [done|].
  cbn [beginAll]. unfold deleteBegin. rewrite Hc, lookup_empty.
  by rewrite IH.
Qed.

(** X21: [clear] empties the cache and leaves the tag index behind.
    When the backend's [clear] returns, no metadata, timer or access
    time is left, the statistics are as they were and [clear] is
    announced; every [get] that follows returns [undefined] and every
    [has] false.  The tag index is not touched: a tag that was known
    stays known, so the index is no longer right; [getByTag] of such a
    tag finds nothing, and [deleteByTag] answers true although it
    deletes nothing and leaves the engine as it is. *)
Theorem clear_empties_but_keeps_tags s b st :
  ad_clear A (storage s) = (Ok b, st) ->
  let s' := snd (clear A s) in
  cache s' = ∅ /\ timers s' = ∅ /\ accessOrder s' = []
  /\ tagsMap s' = tagsMap s /\ stats s' = stats s
  /\ events s' = events s ++ [EvClear]
  /\ (forall key t1 t2 t3, fst (get A opts key t1 t2 t3 s') = None)
  /\ (forall key now, fst (has A opts key now s') = false)
  /\ (forall tag ks,
        tagsMap s !! tag = Some ks -> ks <> [] ->
        (forall clock, fst (getByTag A opts tag clock s') = ∅)
        /\ deleteByTag A opts tag s' = (RBool true, s')
        /\ ~ TagIndexInv s').
Proof.
  intros Hclear. cbv zeta. unfold clear. rewrite Hclear. cbn [snd].
  set (s' := emit A EvClear _).
  assert (cache s' = ∅) as Hc by done.
  assert (tagsMap s' = tagsMap s) as Ht by done.
  split; [done|]. split; [done|]. split; [done|]. split; [done|].
  split; [done|]. split; [done|]. split; [|split].
  - intros key t1 t2 t3. by apply get_nothing_cached.
  - intros key now. unfold has. by rewrite Hc, lookup_empty.
  - intros tag ks Hks Hne. split; [|split].
    + intros clock. unfold getByTag. rewrite Ht, Hks.
      by apply getEach_nothing_cached.
    + unfold deleteByTag. rewrite Ht, Hks. unfold deleteMultiple.
      rewrite (beginAll_nothing_cached ks s' Hc). cbn.
      do 2 f_equal. apply Z.gtb_lt. destruct ks; [done|simpl; lia].
    + intros [Hl _]. destruct ks as [|k ks]; [done|].
      destruct (proj1 (Hl k tag)) as (item & Hi & _).
      * exists (k :: ks). split; [by rewrite Ht|by left].
      * by rewrite Hc, lookup_empty in Hi.
Qed.
End ClearProps.

(** ** The limit on the entries of a tag *)

Section TagLimitProps.
Context {Value Raw : Type} (A : Adapter Raw) (opts : Options Value Raw).
Implicit Types s : Engine Value A.

Lemma JsSet_delete_length key ks :
  (length (JsSet.delete key ks) <= length ks)%nat
  /\ (In key ks -> (length (JsSet.delete key ks) < length ks)%nat).
Proof.
  induction ks as [|k ks [IH1 IH2]]; simpl; [split; [lia|tauto]|].
  destruct (String.eqb_spec key k) as [->|Hne]; simpl.
  - split; [lia|]. intros _. lia.
  - split; [lia|]. intros [Hk|Hk]; [congruence|]. specialize (IH2 Hk). lia.
Qed.

Lemma JsSet_add_length key ks :
  (length (JsSet.add key ks) <= S (length ks))%nat.
Proof.
  unfold JsSet.add. destruct (JsSet.has key ks); [lia|].
  rewrite length_app. simpl. lia.
Qed.

Lemma untag_lookup key tm t tag ks' :
  untag key tm t !! tag = Some ks' ->
  exists ks,
    tm !! tag = Some ks
    /\ (t = tag -> ks' = JsSet.delete key ks)
    /\ (t <> tag -> ks' = ks).
Proof.
  unfold untag. destruct (tm !! t) as [kt|] eqn:Ht.
  - destruct (JsSet.size (JsSet.delete key kt) =? 0).
    + intros [Hne Hl]%lookup_delete_Some. exists ks'. by repeat split.
    + intros [[<- <-]|[Hne Hl]]%lookup_insert_Some.
      * exists kt. by repeat split.
      * exists ks'. by repeat split.
  - intros Hl. exists ks'. split; [done|]. split; [|done].
    intros ->. congruence.
Qed.

Lemma untagAll_shrinks key itemTags tm tag ks' :
  untagAll key itemTags tm !! tag = Some ks' ->
  exists ks,
    tm !! tag = Some ks
    /\ (length ks' <= length ks)%nat
    /\ (In tag itemTags -> In key ks -> (length ks' < length ks)%nat).
Proof.
  unfold untagAll. revert tm.
  induction itemTags as [|t rest IH]; intros tm Hl; simpl in *.
  - exists ks'. split; [done|]. split; [lia|tauto].
  - destruct (IH _ Hl) as (ks1 & H1 & Hle & Hlt).
    destruct (untag_lookup key tm t tag ks1 H1) as (ks & Hks & Heq & Hne).
    exists ks. split; [done|].
    destruct (JsSet_delete_length key ks) as [Hd1 Hd2].
    destruct (decide (t = tag)) as [Ht|Ht].
    + rewrite (Heq Ht) in Hle. split; [lia|]. intros _ Hk.
      specialize (Hd2 Hk). lia.
    + rewrite (Hne Ht) in Hle, Hlt. split; [lia|].
      intros [?|Hin] Hk; [done|]. by apply Hlt.
Qed.

Lemma scanOldestTagged_acc s members k0 t0 :
  exists v,
    scanOldestTagged A s members (Some k0) (Some t0) = Some v
    /\ (v = k0 \/ (In v members /\ is_Some (cache s !! v))).
Proof.
  revert k0 t0. induction members as [|k rest IH]; intros k0 t0; simpl.
  - exists k0. split; [done|by left].
  - destruct (cache s !! k) as [item|] eqn:Hi.
    + destruct (JsMap.get k (accessOrder s)) as [time|].
      * destruct (time <? t0).
        -- destruct (IH k time) as (v & Hv & [->|[Hin Hs]]).
           ++ exists k. split; [done|]. right. split; [by left|by eexists].
           ++ exists v. split; [done|]. right. split; [by right|done].
        -- destruct (IH k0 t0) as (v & Hv & [->|[Hin Hs]]).
           ++ exists k0. split; [done|by left].
           ++ exists v. split; [done|]. right. split; [by right|done].
      * destruct (IH k0 t0) as (v & Hv & [->|[Hin Hs]]).
        -- exists k0. split; [done|by left].
        -- exists v. split; [done|]. right. split; [by right|done].
    + destruct (IH k0 t0) as (v & Hv & [->|[Hin Hs]]).
      * exists k0. split; [done|by left].
      * exists v. split; [done|]. right. split; [by right|done].
Qed.

Lemma scanOldestTagged_found s members :
  (exists k, In k members /\ is_Some (cache s !! k)
             /\ is_Some (JsMap.get k (accessOrder s))) ->
  exists v,
    scanOldestTagged A s members None None = Some v
    /\ In v members /\ is_Some (cache s !! v).
Proof.
  induction members as [|k rest IH]; intros (k' & Hin & Hc & Ha);
    [destruct Hin|]. simpl.
  destruct (cache s !! k) as [item|] eqn:Hi.
  - destruct (JsMap.get k (accessOrder s)) as [time|] eqn:Hg.
    + simpl. destruct (scanOldestTagged_acc s rest k time)
        as (v & Hv & [->|[Hv1 Hv2]]).
      * exists k. split; [done|]. split; [by left|by eexists].
      * exists v. split; [done|]. split; [by right|done].
    + destruct IH as (v & Hv & Hv1 & Hv2).
      { exists k'. split; [|done]. destruct Hin as [<-|Hin]; [|done].
        rewrite Hg in Ha. by destruct Ha. }
      exists v. split; [done|]. split; [by right|done].
  - destruct IH as (v & Hv & Hv1 & Hv2).
    { exists k'. split; [|done]. destruct Hin as [<-|Hin]; [|done].
      rewrite Hi in Hc. by destruct Hc. }
    exists v. split; [done|]. split; [by right|done].
Qed.

(** One round of the loop over the tags of [set], under a limit. *)
Lemma tagStep_limit key s tag m item :
  maxEntriesPerTag opts tag = Some m -> 1 <= m ->
  (forall k st, exists b st', ad_delete A k st = (Ok b, st')) ->
  cache s !! key = Some item -> In tag (tags item) ->
  is_Some (JsMap.get key (accessOrder s)) ->
  cache s !! EmptyString = None ->
  (forall k, k <> key -> Listed (tagsMap s) k tag -> Tagged (cache s) k tag) ->
  (forall ks, tagsMap s !! tag = Some ks -> Z.of_nat (length ks) <= m) ->
  forall ks,
    tagsMap (tagStep A opts key s tag) !! tag = Some ks ->
    Z.of_nat (length ks) <= m.
Proof.
  intros Hmax Hm Hdel Hitem Htag Hacc Hempty Hidx Hbound.
  unfold tagStep. rewrite Hmax.
  set (ks0 := match tagsMap s !! tag with Some ks => ks | None => [] end).
  set (members := JsSet.add key ks0).
  set (s1 := withTagsMap A (insert tag members) s).
  assert (Z.of_nat (length ks0) <= m) as Hks0.
  { subst ks0. destruct (tagsMap s !! tag) as [ks|] eqn:Hks;
      [by apply Hbound|simpl; lia]. }
  pose proof (JsSet_add_length key ks0) as Hadd. fold members in Hadd.
  assert (truthyZ m = true) as -> by (unfold truthyZ; apply negb_true_iff; lia).
  cbn [andb]. unfold JsSet.size.
  destruct (Z.of_nat (length members) >? m) eqn:Hover.
  2:{ intros ks. simpl. rewrite lookup_insert_eq. intros [= <-]. lia. }
  destruct (scanOldestTagged_found s1 members) as (victim & -> & Hvin & Hvc).
  { exists key. split; [apply JsSet_add_In; by right|].
    split; [|exact Hacc]. change (cache s1) with (cache s).
    rewrite Hitem. by eexists. }
  change (cache s1) with (cache s) in Hvc.
  assert (truthyKey victim = true) as ->.
  { unfold truthyKey. apply negb_true_iff.
    destruct (String.eqb_spec victim EmptyString) as [->|]; [|done].
    rewrite Hempty in Hvc. by destruct Hvc. }
  destruct (delete_cases A opts victim s1)
    as [[Hn _]|(pd & r & s2 & Hi & Hk & _ & _ & _ & Htm & _ & _
                & [st Hr] & Hdq)].
  { change (cache s1) with (cache s) in Hn. rewrite Hn in Hvc.
    by destruct Hvc. }
  rewrite Hdq. destruct (Hdel victim st) as (b & st' & Hq).
  rewrite Hq in Hr. simpl in Hr. subst r.
  intros ks.
  change (tagsMap (emit A ?e ?x)) with (tagsMap x).
  unfold countIfEnabled at 1.
  assert (forall x : Engine Value A,
            tagsMap (if enableStats opts then withStats A incEvictions x
                     else x) = tagsMap x) as -> by
    (intros x; by destruct (enableStats opts)).
  rewrite deleteFinish_ok_tags, Hk, Htm. intros Hl.
  apply untagAll_shrinks in Hl as (ks1 & Hks1 & _ & Hlt).
  change (tagsMap s1) with (<[tag := members]> (tagsMap s)) in Hks1.
  rewrite lookup_insert_eq in Hks1. injection Hks1 as <-.
  assert (In tag (tags (pd_item pd))) as Hvt.
  { change (cache s1) with (cache s) in Hi.
    destruct (decide (victim = key)) as [->|Hne]; [congruence|].
    destruct (Hidx victim Hne) as (item' & Hi' & Hin').
    - apply JsSet_add_In in Hvin as [Hvin|?]; [|done].
      subst ks0. destruct (tagsMap s !! tag) as [ks'|] eqn:Hks';
        [by exists ks'|destruct Hvin].
    - congruence. }
  specialize (Hlt Hvt Hvin). lia.
Qed.

Lemma set_tag_bound
    key value ttl tag m condition tE tC tA s raw :
  maxEntriesPerTag opts tag = Some m -> 1 <= m ->
  serialize opts value = Ok raw ->
  (forall k r st, exists b st', ad_set A k r st = (Ok b, st')) ->
  (forall k st, exists b st', ad_delete A k st = (Ok b, st')) ->
  key <> EmptyString ->
  TagIndexInv s -> AccessOrderInv s ->
  (forall ks, tagsMap s !! tag = Some ks -> Z.of_nat (length ks) <= m) ->
  let s' := snd (set A opts key value ttl [tag] condition tE tC tA s) in
  forall ks, tagsMap s' !! tag = Some ks -> Z.of_nat (length ks) <= m.
Proof.
  intros Hmax Hm Hser Hset Hdel Hkey Hinv Hao Hbound. cbv zeta.
  unfold set.
  destruct (match condition with
            | Some c => c key value
            | None => Ok true
            end) as [[|]|e]; [|done|done].
  pose proof (untagExisting_TagIndexBut A key s Hinv) as Hbut.
  set (s1 := match cache s !! key with
             | Some existingItem =>
                 withTagsMap A (untagAll key (tags existingItem)) s
             | None => s
             end) in *.
  assert (cache s1 = cache s) as Hc1
    by (subst s1; by destruct (cache s !! key)).
  assert (forall ks, tagsMap s1 !! tag = Some ks -> Z.of_nat (length ks) <= m)
    as Hb1.
  { subst s1. destruct (cache s !! key) as [old|]; [|done].
    intros ks Hl. simpl in Hl.
    apply untagAll_shrinks in Hl as (ks0 & Hks0 & Hle & _).
    specialize (Hbound ks0 Hks0). lia. }
  assert (cache s1 !! EmptyString = None) as He1
    by (rewrite Hc1; apply Hao).
  (* what the state before the commit has to satisfy *)
  assert (forall s5 : Engine Value A,
            TagIndexBut A key s5 ->
            cache s5 !! EmptyString = None ->
            (forall ks, tagsMap s5 !! tag = Some ks ->
                        Z.of_nat (length ks) <= m) ->
            forall eff expiry ks,
              tagsMap (setCommit A opts key value [tag] eff expiry tC tA s5)
                !! tag = Some ks ->
              Z.of_nat (length ks) <= m) as Hcommit.
  { intros s5 (Hl5 & _ & _) He5 Hb5 eff expiry ks. unfold setCommit.
    cbn [fold_left].
    change (tagsMap (emit A ?e ?x)) with (tagsMap x).
    unfold countIfEnabled at 1.
    assert (forall x : Engine Value A,
              tagsMap (if enableStats opts then withStats A incSets x
                       else x) = tagsMap x) as -> by
      (intros x; by destruct (enableStats opts)).
    assert (forall x : Engine Value A,
              tagsMap (if eff >? 0
                       then withTimers A
                              (insert key {| delay := eff;
                                             origin := ArmedBySet;
                                             reported :=
                                               payloadOfValue value |}) x
                       else x) = tagsMap x) as -> by
      (intros x; by destruct (eff >? 0)).
    eapply (tagStep_limit key _ tag m); try done.
    - simpl. apply lookup_insert_eq.
    - simpl. by left.
    - simpl. rewrite JsMap_get_set, String.eqb_refl. by eexists.
    - simpl. by rewrite lookup_insert_ne.
    - intros k Hk Hl. simpl in *. apply Tagged_insert. right.
      split; [done|]. by apply Hl5. }
  cbv zeta.
  destruct ((Z.of_nat (size (cache s1)) >=? maxSize opts)
            && negb (bool_decide (is_Some (cache s1 !! key)))) eqn:Hcap.
  - apply andb_true_iff in Hcap as [_ Hfresh].
    apply negb_true_iff, bool_decide_eq_false in Hfresh.
    destruct (_evictLRU_spec A s1) as (Hc & Ht & _ & _ & Hpd).
    destruct (_evictLRU A s1) as [pd s2]. simpl in Hc, Ht, Hpd.
    destruct pd as [p|]; simpl.
    + pose proof (deleteStorage_spec A p s2) as (Hc3 & _ & _ & Ht3 & _).
      destruct (deleteStorage A p s2) as [r s3]. simpl in Hc3, Ht3.
      unfold setWrite. rewrite Hser.
      destruct (Hset key raw
                  (storage (withTimers A (base.delete key) s3)))
        as (b & st' & ->).
      cbv zeta. cbn [snd pendingFinish].
      assert (pd_key p <> key) as Hpk.
      { intros Hq. apply Hfresh. rewrite <- Hq, (Hpd p eq_refl). by eexists. }
      apply Hcommit.
      * apply deleteFinish_TagIndexBut; [done|left|].
        -- simpl. rewrite Hc3, Hc. by apply Hpd.
        -- apply (TagIndexBut_ext A key s1); simpl; congruence.
      * destruct r as [b'|e']; [|simpl; congruence].
        destruct (deleteFinish_ok A opts p b'
                    (withStorage A st' (withTimers A (base.delete key) s3)))
          as (-> & _).
        apply lookup_delete_None. right. simpl. congruence.
      * intros ks Hl. destruct r as [b'|e'].
        -- rewrite deleteFinish_ok_tags in Hl. simpl in Hl.
           apply untagAll_shrinks in Hl as (ks0 & Hks0 & Hle & _).
           rewrite Ht3, Ht in Hks0. specialize (Hb1 ks0 Hks0). lia.
        -- simpl in Hl. rewrite Ht3, Ht in Hl. by apply Hb1.
    + unfold setWrite. rewrite Hser.
      destruct (Hset key raw
                  (storage (withTimers A (base.delete key) s2)))
        as (b & st' & ->).
      cbv zeta. cbn [snd pendingFinish].
      apply Hcommit.
      * apply (TagIndexBut_ext A key s1); simpl; congruence.
      * simpl. congruence.
      * intros ks Hl. simpl in Hl. rewrite Ht in Hl. by apply Hb1.
  - simpl. unfold setWrite. rewrite Hser.
    destruct (Hset key raw
                (storage (withTimers A (base.delete key) s1)))
      as (b & st' & ->).
    cbv zeta. cbn [snd pendingFinish].
    apply Hcommit.
    + by apply (TagIndexBut_ext A key s1).
    + done.
    + done.
Qed.

Lemma scanOldestTagged_tagOrder s members oldestKey oldestTime :
  (forall k, In k members -> is_Some (cache s !! k)) ->
  scanOldestTagged A s members oldestKey oldestTime
  = scanOldest (tagOrder (accessOrder s) members) oldestKey oldestTime.
Proof.
  revert oldestKey oldestTime.
  induction members as [|k rest IH]; intros oldestKey oldestTime Hc; [done|].
  destruct (Hc k (or_introl eq_refl)) as [item Hi].
  unfold tagOrder. cbn [scanOldestTagged omap list_omap]. rewrite Hi.
  destruct (JsMap.get k (accessOrder s)) as [time|]; cbn.
  - destruct (ltOldest time oldestTime); apply IH;
      intros k' Hk'; apply Hc; by right.
  - apply IH. intros k' Hk'. apply Hc. by right.
Qed.

Lemma JsSet_has_In key ks : JsSet.has key ks = true <-> In key ks.
Proof.
  unfold JsSet.has. rewrite existsb_exists. split.
  - intros (k & Hin & Hq). apply String.eqb_eq in Hq. by subst.
  - intros Hin. exists key. split; [done|apply String.eqb_refl].
Qed.

Lemma tagOrder_set_other key t order ks :
  ~ In key ks -> tagOrder (JsMap.set key t order) ks = tagOrder order ks.
Proof.
  intros Hk. unfold tagOrder. induction ks as [|k rest IH]; [done|].
  cbn [omap list_omap]. rewrite JsMap_get_set.
  destruct (String.eqb_spec k key) as [->|Hne]; [destruct Hk; by left|].
  rewrite IH; [done|]. intros Hin. apply Hk. by right.
Qed.

Lemma tagOrder_add key t order ks :
  ~ In key ks ->
  tagOrder (JsMap.set key t order) (JsSet.add key ks)
  = tagOrder order ks ++ [(key, t)].
Proof.
  intros Hk. unfold JsSet.add.
  destruct (JsSet.has key ks) eqn:Hh; [by apply JsSet_has_In in Hh|].
  unfold tagOrder. rewrite omap_app. fold (tagOrder (JsMap.set key t order) ks).
  rewrite tagOrder_set_other by done. f_equal.
  cbn [omap list_omap]. by rewrite JsMap_get_set, String.eqb_refl.
Qed.

Lemma tagOrder_In order ks k t : In (k, t) (tagOrder order ks) -> In k ks.
Proof.
  unfold tagOrder. induction ks as [|k' rest IH]; [done|].
  cbn [omap list_omap]. destruct (JsMap.get k' order) as [t'|]; simpl.
  - intros [[= -> _]|Hin]; [by left|right; by apply IH].
  - intros Hin. right. by apply IH.
Qed.

Lemma set_tag_victim key value ttl tag m condition tE tC tA s raw ks :
  maxEntriesPerTag opts tag = Some m -> 1 <= m ->
  serialize opts value = Ok raw ->
  (forall k r st, exists b st', ad_set A k r st = (Ok b, st')) ->
  (forall k st, exists b st', ad_delete A k st = (Ok b, st')) ->
  key <> EmptyString ->
  TagIndexInv s -> AccessOrderInv s ->
  tagsMap s !! tag = Some ks -> Z.of_nat (length ks) = m ->
  cache s !! key = None ->
  Z.of_nat (size (cache s)) < maxSize opts ->
  match condition with Some c => c key value = Ok true | None => True end ->
  let s' := snd (set A opts key value ttl [tag] condition tE tC tA s) in
  exists victim,
    LruVictim (tagOrder (accessOrder s) ks ++ [(key, tA)]) victim
    /\ cache s' !! victim = None
    /\ (forall k, Listed (tagsMap s') k tag
                  <-> (k = key \/ In k ks) /\ k <> victim)
    /\ exists reported,
         events s'
         = events s ++ [EvDelete victim reported; EvEvicted victim PNull;
                        EvSet key (payloadOfValue value)].
Proof.
  intros Hmax Hm Hser Hset Hdel Hkey Hinv Hao Hks Hlen Hnew Hroom Hcond.
  cbv zeta. unfold set.
  assert (match condition with
          | Some c => c key value
          | None => Ok true
          end = Ok true) as -> by (by destruct condition).
  rewrite Hnew. cbv zeta.
  assert ((Z.of_nat (size (cache s)) >=? maxSize opts) = false) as -> by lia.
  cbn [andb pendingStorage]. unfold setWrite. rewrite Hser.
  destruct (Hset key raw (storage (withTimers A (base.delete key) s)))
    as (b & st' & ->).
  cbv zeta. cbn [snd pendingFinish].
  set (s0 := withStorage A st' (withTimers A (base.delete key) s)).
  pose proof Hinv as [Hl Hne]%TagIndexInv_split.
  assert (~ In key ks) as Hkks.
  { intros Hin. destruct (proj1 (Hl key tag)) as (item & Hi & _);
      [by exists ks|congruence]. }
  unfold setCommit. cbn [fold_left].
  set (item := {| createdAt := tC;
                  expiresAt := expiresAtOf (effectiveTTLOf opts ttl) tE;
                  accessCount := 0; tags := [tag] |}).
  set (sa := withAccessOrder A (JsMap.set key tA)
               (withCache A (insert key item) s0)).
  unfold tagStep. rewrite Hmax.
  change (tagsMap sa) with (tagsMap s). rewrite Hks.
  set (members := JsSet.add key ks).
  set (sb := withTagsMap A (insert tag members) sa).
  assert (truthyZ m = true) as -> by (unfold truthyZ; apply negb_true_iff; lia).
  cbn [andb].
  assert (length members = S (length ks)) as Hmlen.
  { subst members. unfold JsSet.add.
    destruct (JsSet.has key ks) eqn:Hh; [by apply JsSet_has_In in Hh|].
    rewrite length_app. simpl. lia. }
  assert ((JsSet.size members >? m) = true) as ->
    by (unfold JsSet.size; rewrite Hmlen; apply Z.gtb_lt; lia).
  assert (forall k, In k members -> is_Some (cache sb !! k)) as Hmc.
  { intros k [Hin| ->]%JsSet_add_In.
    - destruct (proj1 (Hl k tag)) as (it & Hi & _); [by exists ks|].
      change (cache sb) with (<[key := item]> (cache s)).
      rewrite lookup_insert_ne; [by eexists|]. intros <-. by apply Hkks.
    - change (cache sb) with (<[key := item]> (cache s)).
      rewrite lookup_insert_eq. by eexists. }
  rewrite (scanOldestTagged_tagOrder sb members None None Hmc).
  change (accessOrder sb) with (JsMap.set key tA (accessOrder s)).
  subst members. rewrite tagOrder_add by done.
  destruct (scanOldest_victim (tagOrder (accessOrder s) ks ++ [(key, tA)]))
    as (victim & -> & Hv); [by destruct (tagOrder (accessOrder s) ks)|].
  exists victim. split; [exact Hv|].
  assert (In victim (JsSet.add key ks)) as Hvin.
  { destruct Hv as (before & time & after & Hq & _).
    assert (In (victim, time) (tagOrder (accessOrder s) ks ++ [(key, tA)]))
      as [Hin|[[= <- _]|[]]]%in_app_iff
      by (rewrite Hq; apply in_app_iff; right; by left).
    - apply JsSet_add_In. left. by eapply tagOrder_In.
    - apply JsSet_add_In. by right. }
  assert (cache sb !! EmptyString = None) as Hempty.
  { change (cache sb) with (<[key := item]> (cache s)).
    rewrite lookup_insert_ne by done. apply Hao. }
  assert (truthyKey victim = true) as ->.
  { unfold truthyKey. apply negb_true_iff.
    destruct (String.eqb_spec victim EmptyString) as [->|]; [|done].
    destruct (Hmc _ Hvin) as [x Hx]. congruence. }
  destruct (delete_cases A opts victim sb)
    as [[Hn _]|(pd & r & s2 & Hi & Hk & Hc2 & _ & _ & Htm & _ & He2
                & [st Hr] & ->)].
  { destruct (Hmc _ Hvin) as [x Hx]. congruence. }
  destruct (Hdel victim st) as (b' & st'' & Hq).
  rewrite Hq in Hr. simpl in Hr. subst r.
  set (s3 := deleteFinish A opts pd (Ok b') s2).
  destruct (deleteFinish_ok A opts pd b' s2) as (Hc3 & _ & He3 & _).
  pose proof (deleteFinish_ok_tags A opts pd b' s2) as Ht3.
  fold s3 in Hc3, He3, Ht3. rewrite Hk in Hc3, He3, Ht3.
  assert (In tag (tags (pd_item pd))) as Hvt.
  { change (cache sb) with (<[key := item]> (cache s)) in Hi.
    destruct (decide (victim = key)) as [->|Hvk].
    - rewrite lookup_insert_eq in Hi. injection Hi as <-. by left.
    - rewrite lookup_insert_ne in Hi by done.
      apply JsSet_add_In in Hvin as [Hin|?]; [|done].
      destruct (proj1 (Hl victim tag)) as (it & Hit & Htag);
        [by exists ks|congruence]. }
  assert (forall F : Engine Value A,
             cache F = cache s3 -> tagsMap F = tagsMap s3 ->
             events F = events s3 ++ [EvEvicted victim PNull;
                                      EvSet key (payloadOfValue value)] ->
             cache F !! victim = None
             /\ (forall k, Listed (tagsMap F) k tag
                           <-> (k = key \/ In k ks) /\ k <> victim)
             /\ exists reported,
                  events F
                  = events s ++ [EvDelete victim reported;
                                 EvEvicted victim PNull;
                                 EvSet key (payloadOfValue value)]) as Hfin.
  { intros F HcF HtF HeF. split; [|split].
    - rewrite HcF, Hc3. apply lookup_delete_eq.
    - intros k. rewrite HtF, Ht3, Htm, untagAll_listed.
      change (tagsMap sb) with (<[tag := JsSet.add key ks]> (tagsMap s)).
      rewrite Listed_insert, JsSet_add_In. split.
      + intros [[[_ Hin]|[? _]] Hnot]; [|done].
        split; [tauto|]. intros ->. by apply Hnot.
      + intros [Hin Hnv]. split; [left; split; [done|tauto]|].
        intros [? _]. done.
    - exists (pd_value pd). rewrite HeF, He3, He2.
      change (events sb) with (events s). by rewrite <- app_assoc. }
  apply Hfin; unfold countIfEnabled;
    destruct (effectiveTTLOf opts ttl >? 0), (enableStats opts); cbn;
    rewrite ?He3, <- ?app_assoc; done.
Qed.

(** X22: the limit [maxEntriesPerTag] holds, at the cost of the least
    recently used key of the tag.  For a tag limited to m >= 1 keys, on
    a state whose tag index and access order are right and where the tag
    has at most m keys, a [set] that gives the key this one tag, over a
    reliable backend, leaves the tag with at most m keys.  When the tag
    has m keys, the key is new, the cache is below capacity and the
    condition passes, the [set] deletes one key: the least recently used
    among the keys of the tag and the new key, the earlier in the tag's
    key set winning a tie.  That key has no metadata afterwards, the tag
    lists the others, and the deletion and the eviction (reported with
    null) are announced before the write. *)
Theorem tag_limit_enforced
    key value ttl tag m condition tE tC tA s raw :
  maxEntriesPerTag opts tag = Some m -> 1 <= m ->
  serialize opts value = Ok raw ->
  (forall k r st, exists b st', ad_set A k r st = (Ok b, st')) ->
  (forall k st, exists b st', ad_delete A k st = (Ok b, st')) ->
  key <> EmptyString ->
  TagIndexInv s -> AccessOrderInv s ->
  (forall ks, tagsMap s !! tag = Some ks -> Z.of_nat (length ks) <= m) ->
  let s' := snd (set A opts key value ttl [tag] condition tE tC tA s) in
  (forall ks, tagsMap s' !! tag = Some ks -> Z.of_nat (length ks) <= m)
  /\ (forall ks,
        tagsMap s !! tag = Some ks -> Z.of_nat (length ks) = m ->
        cache s !! key = None ->
        Z.of_nat (size (cache s)) < maxSize opts ->
        match condition with
        | Some c => c key value = Ok true
        | None => True
        end ->
        exists victim,
          LruVictim (tagOrder (accessOrder s) ks ++ [(key, tA)]) victim
          /\ cache s' !! victim = None
          /\ (forall k, Listed (tagsMap s') k tag
                        <-> (k = key \/ In k ks) /\ k <> victim)
          /\ exists reported,
               events s'
               = events s ++ [EvDelete victim reported;
                              EvEvicted victim PNull;
                              EvSet key (payloadOfValue value)]).
Proof.
  intros Hmax Hm Hser Hset Hdel Hkey Hinv Hao Hbound. cbv zeta. split.
  - by apply (set_tag_bound key value ttl tag m condition tE tC tA s raw).
  - intros ks Hks Hlen Hnew Hroom Hcond.
    by apply (set_tag_victim key value ttl tag m condition tE tC tA s raw ks).
Qed.
End TagLimitProps.

(** ** EasyCache.utils.formatBytes *)

Section FormatBytesProps.
Import Utils.

Lemma hundredths_bounds (num : Z) (den : positive) :
  let n := hundredths (num # den) in
  2 * n * Z.pos den <= 200 * num + Z.pos den < 2 * (n + 1) * Z.pos den.
Proof.
  cbv zeta. unfold hundredths, Qfloor. cbn.
  set (N := num * 100 * 2 + 1 * Z.pos (den * 1)).
  set (D := Z.pos (den * 1 * 2)).
  assert (0 < D) as HD by (subst D; lia).
  pose proof (Z.mul_div_le N D HD) as H1.
  pose proof (Z.mul_succ_div_gt N D HD) as H2.
  assert (D = 2 * Z.pos den) as HDe by (subst D; lia).
  assert (N = 200 * num + Z.pos den) as HNe by (subst N; lia).
  remember (N / D) as q eqn:Hq. clear Hq.
  rewrite HDe, HNe in H1, H2. lia.
Qed.

(** X23: for a byte count up to [Number.MAX_SAFE_INTEGER],
    [formatBytes] picks the unit by the thresholds 1024, 1024^2 and
    1024^3, GB being the last unit whatever the size, and prints the
    byte count divided by 1024 to the power of the unit's index, rounded
    to the nearest hundredth, a tie upwards. *)
Theorem formatBytes_scales (bytes : N) :
  (bytes < 2 ^ 53)%N ->
  let b := Z.of_N bytes in
  exists (i : nat) (n : Z),
    formatBytes bytes = Some (fixed2 n +:+ " " +:+ nth i units EmptyString)
    /\ (i <= 3)%nat
    /\ ((i < 3)%nat -> b < 1024 ^ (Z.of_nat i + 1))
    /\ ((0 < i)%nat -> 1024 ^ Z.of_nat i <= b)
    /\ 2 * n * 1024 ^ Z.of_nat i
       <= 200 * b + 1024 ^ Z.of_nat i
       < 2 * (n + 1) * 1024 ^ Z.of_nat i.
Proof.
  intros Hsafe. cbv zeta. unfold formatBytes.
  assert ((bytes <? 2 ^ 53)%N = true) as -> by by apply N.ltb_lt.
  set (b := Z.of_N bytes).
  assert (0 <= b) as Hb by (subst b; lia).
  cbn [scale]. change (0 <? length units - 1)%nat with true.
  change (1 <? length units - 1)%nat with true.
  change (2 <? length units - 1)%nat with true.
  rewrite !andb_true_r.
  destruct (Qle_bool 1024 (inject_Z b)) eqn:E1.
  2:{ exists 0%nat, (hundredths (inject_Z b)). split; [done|].
      unfold Qle_bool in E1. cbn in E1. apply Z.leb_gt in E1.
      pose proof (hundredths_bounds b 1) as Hh. cbv zeta in Hh.
      change (b # 1) with (inject_Z b) in Hh.
      remember (hundredths (inject_Z b)) as n eqn:Hn. clear Hn.
      split; [lia|]. split; [intros _; cbn; lia|]. split; [lia|].
      cbn. lia. }
  unfold Qle_bool in E1. cbn in E1. apply Z.leb_le in E1.
  destruct (Qle_bool 1024 (inject_Z b / 1024)) eqn:E2.
  2:{ exists 1%nat, (hundredths (inject_Z b / 1024)). split; [done|].
      unfold Qle_bool in E2. cbn in E2. apply Z.leb_gt in E2.
      pose proof (hundredths_bounds (b * 1) 1024) as Hh. cbv zeta in Hh.
      change (b * 1 # 1024) with (inject_Z b / 1024)%Q in Hh.
      remember (hundredths (inject_Z b / 1024)) as n eqn:Hn. clear Hn.
      split; [lia|]. split; [intros _; cbn; lia|].
      split; [intros _; cbn; lia|]. cbn. lia. }
  unfold Qle_bool in E2. cbn in E2. apply Z.leb_le in E2.
  destruct (Qle_bool 1024 (inject_Z b / 1024 / 1024)) eqn:E3.
  2:{ exists 2%nat, (hundredths (inject_Z b / 1024 / 1024)).
      split; [done|].
      unfold Qle_bool in E3. cbn in E3. apply Z.leb_gt in E3.
      pose proof (hundredths_bounds (b * 1 * 1) 1048576) as Hh.
      cbv zeta in Hh.
      change (b * 1 * 1 # 1048576) with (inject_Z b / 1024 / 1024)%Q in Hh.
      remember (hundredths (inject_Z b / 1024 / 1024)) as n eqn:Hn. clear Hn.
      split; [lia|]. split; [intros _; cbn; lia|].
      split; [intros _; cbn; lia|]. cbn. lia. }
  unfold Qle_bool in E3. cbn in E3. apply Z.leb_le in E3.
  exists 3%nat, (hundredths (inject_Z b / 1024 / 1024 / 1024)).
  split; [done|].
  pose proof (hundredths_bounds (b * 1 * 1 * 1) 1073741824) as Hh.
  cbv zeta in Hh.
  change (b * 1 * 1 * 1 # 1073741824)
    with (inject_Z b / 1024 / 1024 / 1024)%Q in Hh.
  remember (hundredths (inject_Z b / 1024 / 1024 / 1024)) as n eqn:Hn.
  clear Hn.
  split; [lia|]. split; [lia|]. split; [intros _; cbn; lia|]. cbn. lia.
Qed.

Lemma string_app_assoc (a b c : string) :
  (a +:+ b) +:+ c = a +:+ (b +:+ c).
Proof.
  induction a as [|x a IH]; [done|].
  change (String x ((a +:+ b) +:+ c) = String x (a +:+ (b +:+ c))).
  by rewrite IH.
Qed.

(** X24: below 1024 the byte count is printed as it is, with two zero
    decimals and the unit B. *)
Theorem formatBytes_below_1024 (bytes : N) :
  (bytes < 1024)%N ->
  formatBytes bytes = Some (pretty (Z.of_N bytes) +:+ ".00 B").
Proof.
  intros Hlt. unfold formatBytes.
  assert ((bytes <? 2 ^ 53)%N = true) as ->
    by (apply N.ltb_lt; eapply N.lt_trans; [exact Hlt|done]).
  set (b := Z.of_N bytes).
  assert (0 <= b < 1024) as Hb by (subst b; lia).
  cbn [scale].
  assert (Qle_bool 1024 (inject_Z b) = false) as ->.
  { unfold Qle_bool. cbn. apply Z.leb_gt. lia. }
  cbn [andb nth units].
  assert (hundredths (inject_Z b) = b * 100) as ->.
  { pose proof (hundredths_bounds b 1) as Hh. cbv zeta in Hh.
    change (b # 1) with (inject_Z b) in Hh. lia. }
  unfold fixed2.
  rewrite Z.div_mul by lia. rewrite Z.mod_mul by lia.
  replace (b * 100) with (b * 10 * 10) by lia. rewrite Z.mod_mul by lia.
  change (0 / 10) with 0.
  rewrite !string_app_assoc. done.
Qed.
End FormatBytesProps.

(** * Further examples *)

Module MoreExamples.
Import Demo DemoRest.

Lemma memory_writes_return (k : string) (r : option string)
    (st : Store memory) :
  exists b st', ad_set memory k r st = (Ok b, st').
Proof. by eexists _, _. Qed.

Lemma memory_deletions_return (k : string) (st : Store memory) :
  exists b st', ad_delete memory k st = (Ok b, st').
Proof. by eexists _, _. Qed.

Lemma no_tag_limits (itemTags : list string) (tag : string) :
  In tag itemTags -> maxEntriesPerTag (options 10 0 false) tag = None.
Proof. done. Qed.

Lemma fresh_TagIndexInv : TagIndexInv fresh.
Proof.
  unfold TagIndexInv, fresh, create. cbn [tagsMap cache]. split.
  - intros key tag. split.
    + intros (ks & Hks & _). by rewrite lookup_empty in Hks.
    + intros (item & Hi & _). by rewrite lookup_empty in Hi.
  - intros tag ks Hks. by rewrite lookup_empty in Hks.
Qed.

Lemma tagged_TagIndexInv : TagIndexInv tagged.
Proof.
  unfold tagged.
  eapply (set_TagIndexInv memory (options 10 0 false)); try done.
  - apply memory_writes_return.
  - eapply (set_TagIndexInv memory (options 10 0 false)); try done.
    + apply memory_writes_return.
    + apply fresh_TagIndexInv.
Qed.

Lemma delete_keeps_tag_index_witness :
  let s' := snd (delete memory (options 10 0 false) "a" tagged) in
  TagIndexInv tagged
  /\ TagIndexInv s'
  /\ cache s' !! "a"%string = None
  /\ is_Some (cache s' !! "b"%string).
Proof.
  cbv zeta.
  destruct (delete_keeps_tag_index memory (options 10 0 false) "a" tagged
              tagged_TagIndexInv) as (Hinv & Hother & Hgone).
  split; [apply tagged_TagIndexInv|]. split; [exact Hinv|].
  split; [apply (Hgone memory_deletions_return)|].
  rewrite Hother; [|done]. eexists. by vm_compute.
Defined.

Lemma deleteMultiple_removes_keys_witness :
  let s' := snd (deleteMultiple memory (options 10 0 false)
                   ["a"; "a"; "zz"]%string tagged) in
  TagIndexInv s'
  /\ cache s' !! "a"%string = None
  /\ cache s' !! "b"%string = cache tagged !! "b"%string.
Proof.
  cbv zeta.
  destruct (deleteMultiple_removes_keys memory (options 10 0 false)
              ["a"; "a"; "zz"]%string tagged) as (Hinv & Hother & Hgone).
  split; [apply Hinv, tagged_TagIndexInv|].
  split; [apply (Hgone memory_deletions_return); by left|].
  apply Hother. intros [Hq|[Hq|[Hq|[]]]]; done.
Defined.

Lemma deleteByTag_clears_tag_witness :
  let r := deleteByTag memory (options 10 0 false) "t" tagged in
  TagIndexInv tagged
  /\ fst r = RBool true
  /\ tagsMap (snd r) !! "t"%string = None
  /\ cache (snd r) !! "a"%string = None
  /\ cache (snd r) !! "b"%string = None.
Proof.
  cbv zeta.
  destruct (deleteByTag_clears_tag memory (options 10 0 false) "t" tagged
              memory_deletions_return tagged_TagIndexInv)
    as (Hr & _ & Htag & Hgone & _).
  split; [apply tagged_TagIndexInv|]. split; [by rewrite Hr|].
  split; [exact Htag|].
  split; apply Hgone; eexists; (split; [by vm_compute|]); simpl; tauto.
Defined.

Lemma set_replaces_tags_witness :
  let s' := snd (set memory (options 10 0 false) "a" yes None
                   ["v"%string] None 30 30 30 tagged) in
  Json.stringify yes = Ok (Some "true"%string)
  /\ TagIndexInv tagged
  /\ TagIndexInv s'
  /\ (forall tag, Listed (tagsMap s') "a" tag <-> In tag ["v"%string]).
Proof.
  cbv zeta.
  destruct (set_replaces_tags memory (options 10 0 false) "a" yes None
              ["v"%string] None 30 30 30 tagged (Some "true"%string)
              eq_refl memory_writes_return (no_tag_limits ["v"%string])
              tagged_TagIndexInv) as (Hinv & Htags).
  split; [done|]. split; [apply tagged_TagIndexInv|]. split; [exact Hinv|].
  apply (Htags I).
Defined.


Lemma stats_agree_with_events_witness :
  let s' := snd (run memory (options 1000 0 false) session fresh) in
  enableStats (options 1000 0 false) = true
  /\ hits (stats s') = 2%N /\ sets (stats s') = 2%N
  /\ deletes (stats s') = 1%N
  /\ totalAccesses (stats s') = (hits (stats s') + misses (stats s'))%N.
Proof.
  cbv zeta.
  destruct (stats_agree_with_events memory (options 1000 0 false) session
              (∅ : gmap string (option string)) eq_refl)
    as (Hh & Hs & Hd & _ & Ha).
  split; [done|].
  split; [etransitivity; [exact Hh|by vm_compute]|].
  split; [etransitivity; [exact Hs|by vm_compute]|].
  split; [etransitivity; [exact Hd|by vm_compute]|exact Ha].
Defined.

Lemma stats_disabled_still_count_evictions_witness :
  let s' := snd (run memory (silent 1) crowded fresh) in
  enableStats (silent 1) = false
  /\ hits (stats s') = 0%N /\ sets (stats s') = 0%N
  /\ evictions (stats s') = 1%N.
Proof.
  cbv zeta.
  destruct (stats_disabled_still_count_evictions memory (silent 1) crowded
              (∅ : gmap string (option string)) eq_refl)
    as (Hh & _ & Hs & _ & _ & He).
  split; [done|]. split; [exact Hh|]. split; [exact Hs|].
  etransitivity; [exact He|by vm_compute].
Defined.

Lemma access_order_tracks_metadata_witness :
  let s' := snd (run memory (options 1000 0 false) session fresh) in
  Forall wellKeyed session
  /\ AccessOrderInv fresh
  /\ JsMap.has "b" (accessOrder s') = true
  /\ JsMap.has "a" (accessOrder s') = false.
Proof.
  cbv zeta.
  assert (Forall wellKeyed session) as Hk by (repeat constructor; done).
  assert (AccessOrderInv fresh) as Hf by apply AccessOrderOk_empty.
  pose proof (access_order_tracks_metadata memory (options 1000 0 false)
                session fresh Hk Hf) as Hq.
  cbv zeta in Hq.
  split; [exact Hk|]. split; [exact Hf|].
  split; (etransitivity; [apply Hq|by vm_compute]).
Defined.

Lemma set_then_get_round_trip_witness :
  let o := options 10 0 false in
  let s1 := snd (set memory o "k" yes (Some 100) ["t"%string] None
                   10 10 10 fresh) in
  Json.stringify yes = Ok (Some "true"%string)
  /\ Json.parse "true" = Ok yes
  /\ 50 <= 10 + 100
  /\ fst (get memory o "k" 50 50 50 s1) = yes.
Proof.
  cbv zeta.
  destruct (set_then_get_round_trip (options 10 0 false) "k" yes (Some 100)
              ["t"%string] None 10 10 10 50 50 50 fresh "true"%string
              (Json.JBool true) I eq_refl eq_refl
              (no_tag_limits ["t"%string])
              (fun _ => ltac:(simpl; lia))) as (Hv & _).
  split; [done|]. split; [done|]. split; [lia|exact Hv].
Defined.

Lemma set_then_get_expired_witness :
  let o := options 10 0 false in
  let s1 := snd (set memory o "k" yes (Some 100) [] None 10 10 10 fresh) in
  let g := get memory o "k" 111 111 111 s1 in
  10 + 100 < 111
  /\ fst g = None /\ cache (snd g) !! "k"%string = None.
Proof.
  cbv zeta.
  destruct (set_then_get_expired (options 10 0 false) "k" yes (Some 100)
              [] None 10 10 10 111 111 111 fresh (Some "true"%string)
              I eq_refl (no_tag_limits [])
              ltac:(simpl; lia) ltac:(lia) ltac:(simpl; lia))
    as (Hv & Hc & _).
  split; [lia|]. split; [exact Hv|exact Hc].
Defined.

Lemma has_true_where_get_misses_witness :
  let o := options 10 0 false in
  let s1 := snd (set memory o "k" None None [] None 10 10 10 fresh) in
  Json.stringify None = Ok None
  /\ fst (has memory o "k" 20 s1) = true
  /\ fst (get memory o "k" 30 30 30 s1) = None
  /\ fst (has memory o "k" 40 (snd (get memory o "k" 30 30 30 s1))) = false.
Proof.
  cbv zeta.
  destruct (has_true_where_get_misses (options 10 0 false) "k" None None
              [] None 10 10 10 20 30 30 30 40 fresh I eq_refl
              (no_tag_limits []) (fun H => ltac:(simpl in H; lia)))
    as (Hh & Hg & Hh').
  split; [done|]. split; [exact (f_equal fst Hh)|].
  split; [exact Hg|exact (f_equal fst Hh')].
Defined.

Lemma getOrSet_loads_once_witness :
  let o := options 10 0 false in
  let first := getOrSet memory o "k" (Ok yes) None 10 10 10 11 11 11 fresh in
  let second :=
    getOrSet memory o "k" (Throw "loader down") None 20 20 20 21 21 21
      (snd first) in
  cache fresh !! "k"%string = None
  /\ fst first = Ok yes /\ fst second = Ok yes.
Proof.
  cbv zeta.
  destruct (getOrSet_loads_once (options 10 0 false) "k" (Json.JBool true)
              "true"%string (Json.JBool true) None 10 10 10 11 11 11
              20 20 20 21 21 21 (Throw "loader down") "boom"%string fresh
              eq_refl eq_refl eq_refl (fun H => ltac:(simpl in H; lia)))
    as (H1 & H2 & _).
  split; [done|]. split; [exact H1|exact H2].
Defined.

Lemma setMultiple_as_in_turn_witness :
  let o := options 10 0 false in
  let s' := snd (setMultiple memory o batch None fresh) in
  Z.of_nat (size (cache fresh)) + Z.of_nat (length batch) <= maxSize o
  /\ s' = snd (run memory o (setInTurn None batch) fresh)
  /\ size (cache s') = 3%nat
  /\ events s'
     = [EvSet "a" (PValue (Json.JBool true));
        EvSet "b" (PValue (Json.JBool false));
        EvSet "c" (PValue (Json.JBool true))].
Proof.
  cbv zeta.
  assert (Z.of_nat (size (cache fresh)) + Z.of_nat (length batch)
          <= maxSize (options 10 0 false)) as Hroom by by vm_compute.
  assert (forall e, In e batch ->
            exists raw, serialize (options 10 0 false) (en_value e) = Ok raw)
    as Hser by (intros e _; by eexists).
  assert (NoDup (map en_key batch)) as Hnd
    by (apply (bool_decide_unpack (NoDup (map en_key batch)));
        vm_compute; exact I).
  destruct (setMultiple_as_in_turn memory (options 10 0 false) None fresh)
    as [_ Hall].
  split; [exact Hroom|].
  split; [exact (Hall batch Hroom memory_writes_return Hser Hnd)|].
  split; by vm_compute.
Defined.

Lemma setMultiple_checks_capacity_first_witness :
  let o := options 2 0 false in
  let s' := snd (setMultiple memory o batch None fresh) in
  Z.of_nat (size (cache fresh)) < maxSize o
  /\ size (cache s') = 3%nat
  /\ maxSize o = 2.
Proof.
  cbv zeta.
  assert (forall e, In e batch ->
            exists raw, serialize (options 2 0 false) (en_value e) = Ok raw)
    as Hser by (intros e _; by eexists).
  assert (NoDup (map en_key batch)) as Hnd
    by (apply (bool_decide_unpack (NoDup (map en_key batch)));
        vm_compute; exact I).
  assert (forall e, In e batch -> cache fresh !! en_key e = None) as Hfresh
    by (intros e _; apply lookup_empty).
  destruct (setMultiple_checks_capacity_first memory (options 2 0 false)
              batch None fresh ltac:(by vm_compute) memory_writes_return
              Hser Hnd Hfresh) as [_ Hsize].
  split; [by vm_compute|]. split; [exact Hsize|done].
Defined.

Lemma getInfo_agrees_with_get_witness :
  let o := options 10 0 false in
  exists info,
    getInfo memory "k" 200 200 timed = Some info
    /\ info_isExpired info = true
    /\ info_ttl info = Some 0
    /\ fst (get memory o "k" 300 300 300 timed) = None.
Proof.
  cbv zeta.
  destruct (getInfo_agrees_with_get memory (options 10 0 false) "k"
              200 200 300 300 300 timed) as [_ Hinfo].
  assert (exists info, getInfo memory "k" 200 200 timed = Some info
                       /\ info_isExpired info = true) as (info & Hi & Hex)
    by (eexists; split; by vm_compute).
  destruct (Hinfo info Hi) as (_ & _ & Hexp).
  destruct (Hexp Hex) as [Httl Hget].
  exists info. split; [exact Hi|]. split; [exact Hex|].
  split; [apply Httl; lia|apply Hget; lia].
Defined.

Lemma getByTag_only_listed_witness :
  let r := getByTag memory (options 10 0 false) "t"
             (fun _ => (30, 30, 30)) tagged in
  fst r !! "a"%string = Some (Json.JBool true)
  /\ Listed (tagsMap tagged) "a" "t"
  /\ getByTag memory (options 10 0 false) "zz" (fun _ => (30, 30, 30)) tagged
     = (∅, tagged).
Proof.
  cbv zeta.
  destruct (getByTag_only_listed memory (options 10 0 false) "t"
              (fun _ => (30, 30, 30)) tagged) as (_ & Hl & _).
  destruct (getByTag_only_listed memory (options 10 0 false) "zz"
              (fun _ => (30, 30, 30)) tagged) as (Hnone & _).
  assert (fst (getByTag memory (options 10 0 false) "t"
                 (fun _ => (30, 30, 30)) tagged) !! "a"%string
          = Some (Json.JBool true)) as Ha by by vm_compute.
  split; [exact Ha|]. split; [apply (Hl _ _ Ha)|].
  apply Hnone. by vm_compute.
Defined.

Lemma parseTime_characterised_witness :
  Utils.parseTime "15M" = Ok (Utils.Num 900000)
  /\ Utils.parseTime "2constructor" = Ok Utils.NaN.
Proof.
  split.
  - apply parseTime_characterised. exists "15"%string, "M"%string.
    repeat split; try done. left. by vm_compute.
  - apply parseTime_characterised.
    exists "2"%string, "constructor"%string. by repeat split.
Defined.

Lemma parseTime_insensitive_witness :
  Utils.allChars Utils.isDigit "15" = true
  /\ Utils.allChars Utils.isLetter "M" = true
  /\ Utils.parseTime "15m" = Utils.parseTime "15M"
  /\ Utils.parseTime "015M" = Utils.parseTime "15M"
  /\ Utils.parseTime "15M" = Ok (Utils.Num 900000)
  /\ 0 <= 900000.
Proof.
  destruct (parseTime_insensitive "15" "M" eq_refl eq_refl)
    as (Hcase & Hzero & Hpos).
  split; [reflexivity|]. split; [reflexivity|].
  split; [exact Hcase|]. split; [by apply Hzero|].
  assert (Utils.parseTime "15M" = Ok (Utils.Num 900000)) as Hp
    by by vm_compute.
  split; [exact Hp|]. by apply Hpos.
Defined.

Lemma deleteMultiple_counts_every_request_witness :
  let o := options 10 0 false in
  let s' := snd (deleteMultiple memory o ["a"; "a"]%string tagged) in
  is_Some (cache tagged !! "a"%string)
  /\ deletes (stats s') = (deletes (stats tagged) + 2)%N
  /\ size (cache s') = 1%nat.
Proof.
  cbv zeta.
  assert (is_Some (cache tagged !! "a"%string)) as Ha
    by (eexists; by vm_compute).
  destruct (deleteMultiple_counts_every_request memory (options 10 0 false)
              ["a"; "a"]%string tagged memory_deletions_return)
    as (payloads & _ & _ & Hd).
  { intros k [<-|[<-|[]]]; exact Ha. }
  split; [exact Ha|]. split; [exact Hd|by vm_compute].
Defined.

Lemma read_protects_from_eviction_witness :
  let o := options 2 0 false in
  let s1 := snd (set memory o "a" yes None [] None 10 10 10 fresh) in
  let s2 := snd (set memory o "b" no None [] None 20 20 20 s1) in
  let g := get memory o "a" 30 30 30 s2 in
  let s3 := snd (set memory o "c" yes None [] None 40 40 40 (snd g)) in
  fst g = yes
  /\ cache s3 !! "b"%string = None
  /\ is_Some (cache s3 !! "a"%string) /\ is_Some (cache s3 !! "c"%string).
Proof.
  cbv zeta.
  assert (fst (get memory (options 2 0 false) "a" 30 30 30
                 (snd (set memory (options 2 0 false) "b" no None [] None
                         20 20 20
                         (snd (set memory (options 2 0 false) "a" yes None
                                 [] None 10 10 10 fresh)))))
          = Some (Json.JBool true)) as Hhit by by vm_compute.
  destruct (read_protects_from_eviction memory (options 2 0 false)
              (∅ : gmap string (option string))
              "a" "b" "c" yes no yes
              (Some "true"%string) (Some "false"%string)
              (Some "true"%string) None None None
              10 10 10 20 20 20 40 40 40 30 30 30 (Json.JBool true)
              eq_refl memory_writes_return memory_deletions_return
              eq_refl eq_refl eq_refl
              ltac:(done) ltac:(done) ltac:(done)
              ltac:(done) ltac:(done) ltac:(done)
              ltac:(lia) Hhit) as (Hb & Ha & Hc & _).
  split; [exact Hhit|]. split; [exact Hb|]. split; [exact Ha|exact Hc].
Defined.

Lemma clear_empties_but_keeps_tags_witness :
  let o := options 10 0 false in
  let s' := snd (clear memory tagged) in
  ad_clear memory (storage tagged) = (Ok true, ∅)
  /\ tagsMap tagged !! "t"%string = Some ["a"; "b"]%string
  /\ cache s' = ∅
  /\ tagsMap s' !! "t"%string = Some ["a"; "b"]%string
  /\ fst (get memory o "a" 30 30 30 s') = None
  /\ fst (getByTag memory o "t" (fun _ => (30, 30, 30)) s') = ∅
  /\ deleteByTag memory o "t" s' = (RBool true, s')
  /\ ~ TagIndexInv s'.
Proof.
  cbv zeta.
  assert (ad_clear memory (storage tagged) = (Ok true, ∅)) as Hclear
    by reflexivity.
  assert (tagsMap tagged !! "t"%string = Some ["a"; "b"]%string) as Ht
    by by vm_compute.
  destruct (clear_empties_but_keeps_tags memory (options 10 0 false) tagged
              true ∅ Hclear)
    as (Hc & _ & _ & Htm & _ & _ & Hget & _ & Htag).
  destruct (Htag "t"%string ["a"; "b"]%string Ht ltac:(done))
    as (Hby & Hdel & Hinv).
  split; [exact Hclear|]. split; [exact Ht|]. split; [exact Hc|].
  split; [by rewrite Htm|]. split; [apply Hget|].
  split; [apply Hby|]. split; [exact Hdel|exact Hinv].
Defined.

Lemma tagged_AccessOrderInv : AccessOrderInv tagged.
Proof.
  unfold tagged.
  apply (set_AccessOrderInv memory (options 10 0 false)); [done|].
  apply (set_AccessOrderInv memory (options 10 0 false)); [done|].
  apply AccessOrderOk_empty.
Qed.

Lemma tag_limit_enforced_witness :
  let s' := snd (set memory limited "c" yes None ["t"%string] None
                   30 30 30 tagged) in
  maxEntriesPerTag limited "t" = Some 2
  /\ tagsMap tagged !! "t"%string = Some ["a"; "b"]%string
  /\ tagsMap s' !! "t"%string = Some ["b"; "c"]%string
  /\ (forall ks, tagsMap s' !! "t"%string = Some ks ->
                 Z.of_nat (length ks) <= 2)
  /\ exists victim,
       LruVictim [("a"%string, 10); ("b"%string, 20); ("c"%string, 30)]
         victim
       /\ cache s' !! victim = None.
Proof.
  cbv zeta.
  assert (tagsMap tagged !! "t"%string = Some ["a"; "b"]%string) as Ht
    by by vm_compute.
  split; [done|]. split; [exact Ht|]. split; [by vm_compute|].
  destruct (tag_limit_enforced memory limited "c" yes None "t" 2 None
              30 30 30 tagged (Some "true"%string) eq_refl ltac:(lia) eq_refl
              memory_writes_return memory_deletions_return ltac:(done)
              tagged_TagIndexInv tagged_AccessOrderInv) as [Hbound Hvictim].
  { intros ks Hl. rewrite Ht in Hl. injection Hl as <-. simpl. lia. }
  split; [exact Hbound|].
  destruct (Hvictim ["a"; "b"]%string Ht eq_refl ltac:(by vm_compute)
              ltac:(by vm_compute) I) as (victim & Hv & Hgone & _).
  exists victim. split; [|exact Hgone].
  assert (tagOrder (accessOrder tagged) ["a"; "b"]%string
            ++ [("c"%string, 30)]
          = [("a"%string, 10); ("b"%string, 20); ("c"%string, 30)]) as Hq
    by by vm_compute.
  by rewrite Hq in Hv.
Defined.

Lemma formatBytes_scales_witness :
  (1048575 < 2 ^ 53)%N
  /\ Utils.formatBytes 1048575 = Some "1024.00 KB"%string
  /\ exists (i : nat) (n : Z),
       Utils.formatBytes 1048575
       = Some (Utils.fixed2 n +:+ " " +:+ nth i Utils.units EmptyString)
       /\ (i <= 3)%nat.
Proof.
  split; [done|]. split; [by vm_compute|].
  destruct (formatBytes_scales 1048575%N eq_refl) as (i & n & Hf & Hi & _).
  by exists i, n.
Defined.

Lemma formatBytes_below_1024_witness :
  (512 < 1024)%N /\ Utils.formatBytes 512 = Some "512.00 B"%string.
Proof.
  split; [done|].
  etransitivity; [apply (formatBytes_below_1024 512%N); done|by vm_compute].
Defined.

End MoreExamples.
